(** * KaizenAI: silence removal server

    A shallow embedding of [server.js] (the queueing server, module [V1]
    below) and of [server (2).js] (the sequential server, module [V2]),
    together with the properties of the segment planner, the silence-trace
    parser, the filter-graph builder, the duration probe and the job queue.

    JavaScript numbers are the binary64 values of IEEE 754: the primitive
    floating-point numbers of the prover, whose [+], [-] and [*] round to
    the nearest value, ties to even, and whose comparisons are false on
    [NaN], as in the language.  The proofs about their order go through
    the specification of these numbers ([Prim2SF], [FloatAxioms]). *)

From Stdlib Require Import ZArith QArith Lia Lqa Ascii String Floats.
From stdpp Require Import gmap strings list pretty.

Set Warnings "-inexact-float".

(** ** JavaScript numbers *)

Module JS.

Definition number : Set := float.

(** [Math.max(a, b)]: [NaN] when an argument is [NaN]; [+0] counts as
    larger than [-0]. *)
Definition max (a b : number) : number :=
  if is_nan a || is_nan b then nan
  else if (a <? b)%float then b
  else if (b <? a)%float then a
  else if get_sign a then b else a.

(** The order of the language as propositions; it holds of no [NaN]. *)
Definition le (a b : number) : Prop := (a <=? b)%float = true.
Definition lt (a b : number) : Prop := (a <? b)%float = true.

(** Every finite number is a whole multiple of [2^-1074]: [units x] is that
    multiple, and [exact x] the number as a rational.  (Both are 0 on
    [NaN] and the infinities.) *)
Definition units (x : number) : Z :=
  match Prim2SF x with
  | S754_finite s m e => cond_Zopp s (Z.pos m * 2 ^ (e + 1074))
  | _ => 0
  end.

Definition of_units (u : Z) : Q := inject_Z u / inject_Z (2 ^ 1074).

Definition exact (x : number) : Q := of_units (units x).

(** The number nearest to [(-1)^neg * m * 10^e] ([0 <= m]), ties to even:
    the value of a decimal literal. *)
Definition round_decimal (neg : bool) (m e : Z) : number :=
  SF2Prim
    match m with
    | Z.pos p =>
        if (0 <=? e)%Z
        then binary_normalize prec emax (cond_Zopp neg (Z.pos p * 10 ^ e)) 0 neg
        else SFdiv prec emax (S754_finite neg p 0)
                   (S754_finite false (Z.to_pos (10 ^ (- e))) 0)
    | _ => S754_zero neg
    end.

End JS.

Import JS.

Bind Scope float_scope with number.
Notation "a >=? b" := (PrimFloat.leb b a) (at level 70, only parsing) : float_scope.
Notation "a >? b" := (PrimFloat.ltb b a) (at level 70, only parsing) : float_scope.
Infix "<=" := JS.le : float_scope.
Infix "<" := JS.lt : float_scope.

(** ** JavaScript strings

    Strings are sequences of bytes, the UTF-8 form of the text.
    [includes], [split] (for a non-empty separator) and [parseFloat] follow
    the language. *)

Fixpoint includes (needle s : string) : bool :=
  String.prefix needle s
  || match s with
     | EmptyString => false
     | String _ r => includes needle r
     end.

Fixpoint split_from (sep : string) (skip : nat) (acc : string) (s : string)
    : list string :=
  match s with
  | EmptyString => [acc]
  | String c r =>
      match skip with
      | S k => split_from sep k acc r
      | O =>
          if String.prefix sep s
          then acc :: split_from sep (String.length sep - 1) "" r
          else split_from sep 0 (acc +:+ String c "") r
      end
  end.

(** [s.split(sep)] *)
Definition split (sep s : string) : list string := split_from sep 0 "" s.

Definition strip_prefix (p s : string) : option string :=
  if String.prefix p s
  then Some (String.substring (String.length p) (String.length s - String.length p) s)
  else None.

Definition is_digit (c : Ascii.ascii) : bool :=
  let n := Ascii.nat_of_ascii c in
  (48 <=? n)%nat && (n <=? 57)%nat.

(** White space and line terminators of one byte: TAB, LF, VT, FF, CR and
    the space. *)
Definition is_space (c : Ascii.ascii) : bool :=
  let n := Ascii.nat_of_ascii c in
  ((9 <=? n)%nat && (n <=? 13)%nat) || (n =? 32)%nat.

(** White space of two and of three bytes: U+00A0; U+1680, U+2000 to
    U+200A, U+2028, U+2029, U+202F, U+205F, U+3000 and U+FEFF. *)
Definition is_space2 (a b : Ascii.ascii) : bool :=
  (Ascii.nat_of_ascii a =? 194)%nat && (Ascii.nat_of_ascii b =? 160)%nat.

Definition is_space3 (a b c : Ascii.ascii) : bool :=
  let '(a, b, c) := (Ascii.nat_of_ascii a, Ascii.nat_of_ascii b, Ascii.nat_of_ascii c) in
  ((a =? 225) && (b =? 154) && (c =? 128))%nat
  || ((a =? 226) && (b =? 128)
      && (((128 <=? c) && (c <=? 138)) || (c =? 168) || (c =? 169) || (c =? 175)))%nat
  || ((a =? 226) && (b =? 129) && (c =? 159))%nat
  || ((a =? 227) && (b =? 128) && (c =? 128))%nat
  || ((a =? 239) && (b =? 187) && (c =? 191))%nat.

(** The string without its leading white space. *)
Fixpoint skip_spaces (s : string) : string :=
  match s with
  | String a r =>
      if is_space a then skip_spaces r
      else
        match r with
        | String b r2 =>
            if is_space2 a b then skip_spaces r2
            else
              match r2 with
              | String c r3 => if is_space3 a b c then skip_spaces r3 else s
              | EmptyString => s
              end
        | EmptyString => s
        end
  | EmptyString => s
  end.

(** The longest prefix of digits, and what follows it. *)
Fixpoint span_digits (s : string) : string * string :=
  match s with
  | String c r =>
      if is_digit c
      then let '(d, rest) := span_digits r in (String c d, rest)
      else ("", s)
  | EmptyString => ("", s)
  end.

Fixpoint digits_value (acc : Z) (s : string) : Z :=
  match s with
  | String c r =>
      digits_value (10 * acc + Z.of_nat (Ascii.nat_of_ascii c - 48)) r
  | EmptyString => acc
  end.

(** One or more digits. *)
Definition digits1 (s : string) : option (string * string) :=
  let '(d, rest) := span_digits s in
  match d with
  | EmptyString => None
  | _ => Some (d, rest)
  end.

Definition read_sign (s : string) : bool * string :=
  match s with
  | String "-"%char r => (true, r)
  | String "+"%char r => (false, r)
  | _ => (false, s)
  end.

(** The exponent part [e[+-]digits], if there is one. *)
Definition read_exponent (s : string) : Z :=
  match s with
  | String c r =>
      if bool_decide (c = "e"%char) || bool_decide (c = "E"%char)
      then
        let '(neg, r) := read_sign r in
        match digits1 r with
        | Some (d, _) => if neg then (- digits_value 0 d)%Z else digits_value 0 d
        | None => 0%Z
        end
      else 0%Z
  | EmptyString => 0%Z
  end.

(** [parseFloat(x)]; [None] is [undefined].  The longest prefix of the
    trimmed text that is a decimal literal is read: a sign, then
    [Infinity], or digits with an optional fraction and exponent; its value
    is rounded to the nearest number. *)
Definition parseFloat (x : option string) : number :=
  match x with
  | None => nan
  | Some s =>
      let '(neg, s) := read_sign (skip_spaces s) in
      if String.prefix "Infinity" s
      then (if neg then neg_infinity else infinity)
      else
        let '(ip, s) := span_digits s in
        let '(fp, s) :=
          match s with
          | String "."%char r => span_digits r
          | _ => ("", s)
          end in
        match ip +:+ fp with
        | EmptyString => nan
        | ds =>
            round_decimal neg (digits_value 0 ds)
                          (read_exponent s - Z.of_nat (String.length fp))
        end
  end.

(** The promise returned by [runFFmpeg] (and the streams of a spawned
    tool): the captured diagnostic text, resolved on exit code 0 and
    rejected otherwise. *)
Inductive outcome : Type :=
  | Resolved (log : string)
  | Rejected (log : string).

(** The completion of a function body: a returned value, or a thrown one
    (an [Error] with its message, or the rejected text itself). *)
Inductive completion (A : Type) : Type :=
  | Return (a : A)
  | Throw (e : string).
Arguments Return {A} a.
Arguments Throw {A} e.

(** The line feed, the separator of [log.split("\n")]. *)
Definition LF : string := String (Ascii.ascii_of_nat 10) "".

(** A time range [{start, end}] whose bounds are numbers: the keep segments
    of both servers and the silences of [server.js]. *)
Module Span.
Record t : Type := mk { start : number; end_ : number }.
End Span.

(** A silence of [server (2).js]: [end] is [null] while the silence is
    still open when the trace stops. *)
Module Silence.
Record t : Type := mk { start : number; end_ : option number }.
End Silence.

(** ** Filter graphs

    The text handed to the encoder is a list of chains separated by [;];
    a chain is a row of input pads, filters separated by [,] and output
    pads.  Both servers write this text with template strings; the
    structured form below is what the text denotes, and [render] writes it
    back. *)

Inductive stream : Type := Video | Audio.

Inductive pad : Type :=
  | Source (s : stream)           (* [0:v], [0:a] *)
  | Piece (s : stream) (i : nat)  (* [v3], [a3] *)
  | Named (name : string).        (* [outv] *)

Inductive filter_op : Type :=
  | Trim (s : stream) (named : bool) (start end_ : number)
  | SetPts (s : stream)
  | FadeIn (s : stream) (d : number)
  | FadeOut (s : stream) (st d : number)
  | Concat (n v a : nat).

Record chain : Type := Chain {
  inputs : list pad;
  filters : list filter_op;
  outputs : list pad
}.

#[global] Instance stream_eq_dec : EqDecision stream.
Proof. solve_decision. Defined.

#[global] Instance pad_eq_dec : EqDecision pad.
Proof. solve_decision. Defined.

Definition stream_letter (s : stream) : string :=
  match s with Video => "v" | Audio => "a" end.

(** [trim] and [atrim], [fade] and [afade], ... *)
Definition stream_prefix (s : stream) : string :=
  match s with Video => "" | Audio => "a" end.

Section Render.

(** The conversion of a number to text in a template string. *)
Variable toString : number -> string.

Definition render_pad (p : pad) : string :=
  match p with
  | Source s => "[0:" +:+ stream_letter s +:+ "]"
  | Piece s i => "[" +:+ stream_letter s +:+ pretty i +:+ "]"
  | Named name => "[" +:+ name +:+ "]"
  end.

Definition render_filter (f : filter_op) : string :=
  match f with
  | Trim s false a b =>
      stream_prefix s +:+ "trim=" +:+ toString a +:+ ":" +:+ toString b
  | Trim s true a b =>
      stream_prefix s +:+ "trim=start=" +:+ toString a +:+ ":end=" +:+ toString b
  | SetPts s => stream_prefix s +:+ "setpts=PTS-STARTPTS"
  | FadeIn s d => stream_prefix s +:+ "fade=t=in:st=0:d=" +:+ toString d
  | FadeOut s st d =>
      stream_prefix s +:+ "fade=t=out:st=" +:+ toString st +:+ ":d=" +:+ toString d
  | Concat n v a =>
      "concat=n=" +:+ pretty n +:+ ":v=" +:+ pretty v +:+ ":a=" +:+ pretty a
  end.

Definition render_chain (c : chain) : string :=
  String.concat "" (map render_pad (inputs c))
  +:+ String.concat "," (map render_filter (filters c))
  +:+ String.concat "" (map render_pad (outputs c)).

Definition render (g : list chain) : string :=
  String.concat ";" (map render_chain g).

End Render.

(** What a graph contains: the ranges of its trim operations on a stream,
    in order; its concat operations; the fades of a chain. *)
Definition trim_range (s : stream) (f : filter_op) : list (number * number) :=
  match f with
  | Trim s' _ a b => if bool_decide (s' = s) then [(a, b)] else []
  | _ => []
  end.

Definition trims (s : stream) (g : list chain) : list (number * number) :=
  flat_map (fun c => flat_map (trim_range s) (filters c)) g.

Definition is_concat (f : filter_op) : bool :=
  match f with Concat _ _ _ => true | _ => false end.

Definition is_fade_in (f : filter_op) : bool :=
  match f with FadeIn _ _ => true | _ => false end.

Definition is_fade_out (f : filter_op) : bool :=
  match f with FadeOut _ _ _ => true | _ => false end.

Definition concat_ops (g : list chain) : list chain :=
  List.filter (fun c => existsb is_concat (filters c)) g.

Definition has_fade_in (c : chain) : bool := existsb is_fade_in (filters c).
Definition has_fade_out (c : chain) : bool := existsb is_fade_out (filters c).

(** The pads [[v0][a0][v1][a1]...] of [n] segments. *)
Definition pairs (n : nat) : list pad :=
  flat_map (fun i => [Piece Video i; Piece Audio i]) (seq 0 n).

Definition bounds (s : Span.t) : number * number :=
  (Span.start s, Span.end_ s).

(** Total length of a list of segments, [sum (end - start)], computed
    without rounding. *)
Fixpoint durations (ks : list Span.t) : Q :=
  match ks with
  | [] => 0
  | k :: r => exact (Span.end_ k) - exact (Span.start k) + durations r
  end%Q.

(** A relation holds between each element and the next one. *)
Fixpoint adjacent {A} (R : A -> A -> Prop) (l : list A) : Prop :=
  match l with
  | a :: (b :: _) as r => R a b /\ adjacent R r
  | _ => True
  end.

Definition ordered_by_start : list Span.t -> Prop :=
  adjacent (fun a b => Span.start a < Span.start b)%float.

Definition non_overlapping : list Span.t -> Prop :=
  adjacent (fun a b => Span.end_ a <= Span.start b)%float.

(** ** server.js *)

Module V1.

Definition MAX_FILES : nat := 10.
Definition MAX_FILE_SIZE : N := 1024 * 1024 * 1024.
Definition MAX_CONCURRENT_JOBS : Z := 2.

Definition MIN_SILENCE : number := 0.6.
Definition KEEP_BEFORE : number := 0.3.
Definition KEEP_AFTER : number := 0.3.
Definition FADE : number := 0.08.

(** The match of [/Duration: (\d+):(\d+):(\d+\.\d+)/] at the start of [s]:
    the three groups. *)
Definition match_Duration_at (s : string) : option (string * string * string) :=
  r ← strip_prefix "Duration: " s;
  '(h, r) ← digits1 r;
  r ← strip_prefix ":" r;
  '(m, r) ← digits1 r;
  r ← strip_prefix ":" r;
  '(si, r) ← digits1 r;
  r ← strip_prefix "." r;
  '(sf, _) ← digits1 r;
  Some (h, m, si +:+ "." +:+ sf).

(** [e.match(/Duration: .../)]: the leftmost match. *)
Fixpoint match_Duration (e : string) : option (string * string * string) :=
  match match_Duration_at e with
  | Some g => Some g
  | None =>
      match e with
      | String _ r => match_Duration r
      | EmptyString => None
      end
  end.

(** Unary plus on a matched group (digits, or digits with a fraction). *)
Definition to_number (s : string) : number := parseFloat (Some s).

(** [getDuration]: [run] is the outcome of [runFFmpeg(["-i", file])].
    When that promise resolves, the body ends without a [return]: the
    result is [undefined], here [None]. *)
Definition getDuration (run : outcome) : completion (option number) :=
  match run with
  | Resolved _ => Return None
  | Rejected e =>
      match match_Duration e with
      | None => Throw "Duration parse failed"
      | Some (h, m, s) =>
          Return (Some (to_number h * 3600%float + to_number m * 60%float
                        + to_number s)%float)
      end
  end.

(** One line of the trace; [start] is [null] ([None]) or a number. *)
Definition detect_step (st : list Span.t * option number) (line : string)
    : list Span.t * option number :=
  let '(silences, start) := st in
  let start :=
    if includes "silence_start" line
    then Some (parseFloat (split "silence_start:" line !! 1%nat))
    else start in
  if includes "silence_end" line
  then
    match start with
    | Some start_ =>
        let end_ := parseFloat (split "silence_end:" line !! 1%nat) in
        (if (end_ - start_ >=? MIN_SILENCE)%float
         then silences ++ [Span.mk start_ end_]
         else silences,
         None)
    | None => (silences, start)
    end
  else (silences, start).

Definition detect_lines (lines : list string) : list Span.t :=
  fst (fold_left detect_step lines ([], None)).

(** [detectSilences]: [run] is the outcome of the [silencedetect] run. *)
Definition detectSilences (run : outcome) : completion (list Span.t) :=
  match run with
  | Resolved log => Return (detect_lines (split LF log))
  | Rejected e => Throw e
  end.

Definition keep_step (st : list Span.t * number) (s : Span.t)
    : list Span.t * number :=
  let '(keeps, cursor) := st in
  let keepEnd := (Span.start s + KEEP_BEFORE)%float in
  let nextStart := (Span.end_ s - KEEP_AFTER)%float in
  if (keepEnd >? cursor)%float
  then (keeps ++ [Span.mk cursor keepEnd], nextStart)
  else (keeps, cursor).

Definition buildKeepSegments (silences : list Span.t) (duration : number)
    : list Span.t :=
  let '(keeps, cursor) := fold_left keep_step silences ([], 0%float) in
  if (cursor <? duration)%float
  then keeps ++ [Span.mk cursor duration]
  else keeps.

Section FilterGraph.

Variable toString : number -> string.

(** The two entries pushed on [f] for segment [i] of [n]. *)
Definition segment_filters (n i : nat) (s : Span.t) : list string :=
  let dur := (Span.end_ s - Span.start s)%float in
  let fadeOut := JS.max 0%float (dur - FADE)%float in
  [ "[0:v]trim=" +:+ toString (Span.start s) +:+ ":" +:+ toString (Span.end_ s)
    +:+ ",setpts=PTS-STARTPTS"
    +:+ (if (0 <? i)%nat then ",fade=t=in:st=0:d=" +:+ toString FADE else "")
    +:+ (if (i <? n - 1)%nat
         then ",fade=t=out:st=" +:+ toString fadeOut +:+ ":d=" +:+ toString FADE
         else "")
    +:+ "[v" +:+ pretty i +:+ "]";
    "[0:a]atrim=" +:+ toString (Span.start s) +:+ ":" +:+ toString (Span.end_ s)
    +:+ ",asetpts=PTS-STARTPTS"
    +:+ (if (0 <? i)%nat then ",afade=t=in:st=0:d=" +:+ toString FADE else "")
    +:+ (if (i <? n - 1)%nat
         then ",afade=t=out:st=" +:+ toString fadeOut +:+ ":d=" +:+ toString FADE
         else "")
    +:+ "[a" +:+ pretty i +:+ "]" ].

Definition buildFilterGraph (segs : list Span.t) : string :=
  let n := length segs in
  let f := concat (imap (segment_filters n) segs) in
  let c := imap (fun i _ => "[v" +:+ pretty i +:+ "][a" +:+ pretty i +:+ "]") segs in
  let f := f ++ [String.concat "" c +:+ "concat=n=" +:+ pretty n
                 +:+ ":v=1:a=1[outv][outa]"] in
  String.concat ";" f.

End FilterGraph.

(** [path.parse(p)], POSIX flavour: the name and the extension of the last
    component of [p]. *)
Definition path_parse (p : string) : string * string :=
  let base :=
    default "" (last (List.filter (fun c => negb (String.eqb c "")) (split "/" p))) in
  let parts := split "." base in
  let name := String.concat "." (removelast parts) in
  if bool_decide (name = "") || bool_decide (base = "..")
  then (base, "")
  else (name, "." +:+ default "" (last parts)).

(** What the tools answer during one call of [processFile]: the probe
    run, the silence detection run, the error that [copyFileSync] throws if
    it throws, and the encoding run for a given graph. *)
Record ToolRun : Type := {
  probe : outcome;
  detect : outcome;
  copy : option string;
  encode : string -> outcome
}.

Section ProcessFile.

Variable toString : number -> string.

(** [processFile]: the [outputName] it sets on the file when it returns.
    An [undefined] duration behaves as [NaN] in the only use the planner
    makes of it when it is not a number, the test [cursor < duration]. *)
Definition processFile (originalName : string) (t : ToolRun) : completion string :=
  let '(name, ext) := path_parse originalName in
  let outputName := name +:+ " finished" +:+ ext in
  match getDuration (probe t) with
  | Throw e => Throw e
  | Return duration =>
      match detectSilences (detect t) with
      | Throw e => Throw e
      | Return [] =>
          match copy t with
          | Some e => Throw e
          | None => Return outputName
          end
      | Return silences =>
          let keeps := buildKeepSegments silences (default nan duration) in
          let graph := buildFilterGraph toString keeps in
          match encode t graph with
          | Resolved _ => Return outputName
          | Rejected e => Throw e
          end
      end
  end.

End ProcessFile.

(** The graph that [buildFilterGraph] writes. *)
Definition fades (n i : nat) (st : stream) (s : Span.t) : list filter_op :=
  let dur := (Span.end_ s - Span.start s)%float in
  let fadeOut := JS.max 0%float (dur - FADE)%float in
  (if (0 <? i)%nat then [FadeIn st FADE] else [])
  ++ (if (i <? n - 1)%nat then [FadeOut st fadeOut FADE] else []).

Definition segment_chain (n i : nat) (st : stream) (s : Span.t) : chain :=
  Chain [Source st]
        ([Trim st false (Span.start s) (Span.end_ s); SetPts st] ++ fades n i st s)
        [Piece st i].

Definition filter_graph (segs : list Span.t) : list chain :=
  let n := length segs in
  concat (imap (fun i s => [segment_chain n i Video s; segment_chain n i Audio s]) segs)
  ++ [Chain (pairs n) [Concat n 1 1] [Named "outv"; Named "outa"]].

(** *** Jobs, the queue and the routes

    A job object is shared by the [jobs] map, the queue, the request that
    created it and the activation of [runQueue] that processes it.  Job
    objects therefore live in a store, [objects], addressed by their id;
    the map and the queue hold ids.  [uid()] is modelled by a counter: it
    never returns the same id twice. *)

Inductive Status : Type := QUEUED | PROCESSING | DONE | ERROR.

#[global] Instance Status_eq_dec : EqDecision Status.
Proof. solve_decision. Defined.

Module FileTask.
Record t : Type := mk {
  originalName : string;
  inputPath : string;
  outputName : option string;
  status : Status
}.
Definition set_status (s : Status) (f : t) : t :=
  mk (originalName f) (inputPath f) (outputName f) s.
Definition set_outputName (o : string) (f : t) : t :=
  mk (originalName f) (inputPath f) (Some o) (status f).
End FileTask.

Module Job.
Record t : Type := mk {
  id : nat;
  status : Status;
  files : list FileTask.t;
  uploadDir : list string;
  outputDir : list string
}.
Definition set_status (s : Status) (j : t) : t :=
  mk (id j) s (files j) (uploadDir j) (outputDir j).
Definition set_files (fs : list FileTask.t) (j : t) : t :=
  mk (id j) (status j) fs (uploadDir j) (outputDir j).
Definition alter_file (i : nat) (f : FileTask.t -> FileTask.t) (j : t) : t :=
  set_files (alter f i (files j)) j.
End Job.

(** The state of the server between two events.  A path is the list of its
    components.  [awaiting] holds the suspended activations of [runQueue]:
    the job of each and the index of the file whose [processFile] it
    awaits. *)
Record State : Type := mkState {
  objects : gmap nat Job.t;
  jobs : gset nat;
  queue : list nat;
  activeJobs : Z;
  awaiting : gmap nat nat;
  dirs : gset (list string);
  timers : gset nat;
  next_uid : nat
}.

Definition with_objects (f : gmap nat Job.t -> gmap nat Job.t) (st : State) : State :=
  mkState (f (objects st)) (jobs st) (queue st) (activeJobs st) (awaiting st)
          (dirs st) (timers st) (next_uid st).

Definition with_queue (q : list nat) (st : State) : State :=
  mkState (objects st) (jobs st) q (activeJobs st) (awaiting st)
          (dirs st) (timers st) (next_uid st).

Definition with_activeJobs (n : Z) (st : State) : State :=
  mkState (objects st) (jobs st) (queue st) n (awaiting st)
          (dirs st) (timers st) (next_uid st).

Definition with_awaiting (f : gmap nat nat -> gmap nat nat) (st : State) : State :=
  mkState (objects st) (jobs st) (queue st) (activeJobs st) (f (awaiting st))
          (dirs st) (timers st) (next_uid st).

Definition update_job (job : nat) (f : Job.t -> Job.t) (st : State) : State :=
  with_objects (alter f job) st.

Definition files_of (job : nat) (st : State) : list FileTask.t :=
  default [] (Job.files <$> objects st !! job).

(** The pieces of [runQueue]: the admission of [job] ([queue.shift()],
    [activeJobs++], [job.status = "PROCESSING"]), the start of a file
    ([f.status = "PROCESSING"], then the activation waits for
    [processFile]), and the end of the activation (the status set by the
    [try] or the [catch] block, then [activeJobs--] of the [finally]
    block). *)
Definition start_job (job : nat) (q : list nat) (st : State) : State :=
  update_job job (Job.set_status PROCESSING)
    (with_activeJobs (activeJobs st + 1) (with_queue q st)).

Definition start_file (job i : nat) (st : State) : State :=
  with_awaiting <[job := i]>
    (update_job job (Job.alter_file i (FileTask.set_status PROCESSING)) st).

Definition end_job (job : nat) (s : Status) (st : State) : State :=
  let st := update_job job (Job.set_status s) st in
  with_activeJobs (activeJobs st - 1) st.

(** [runQueue], with [q] the content of the queue.  The body runs up to
    its first [await]; a job without files has none, so that its [finally]
    block, and the call of [runQueue] in it, run at once. *)
Fixpoint run (q : list nat) (st : State) : State :=
  if bool_decide (MAX_CONCURRENT_JOBS ≤ activeJobs st)%Z then st
  else
    match q with
    | [] => st
    | job :: q =>
        let st := start_job job q st in
        match files_of job st with
        | [] => run q (end_job job DONE st)
        | _ :: _ => start_file job 0 st
        end
    end.

Definition runQueue (st : State) : State := run (queue st) st.

(** The end of an activation, with the call of [runQueue] that closes
    the [finally] block. *)
Definition finish (job : nat) (s : Status) (st : State) : State :=
  runQueue (end_job job s st).

(** The file that [processFile] has handled: it set [outputName], and
    the loop sets [f.status = "DONE"]. *)
Definition file_done (job i : nat) (outputName : string) (st : State) : State :=
  update_job job (Job.alter_file i (FileTask.set_status DONE))
    (update_job job (Job.alter_file i (FileTask.set_outputName outputName)) st).

(** The awaited [processFile] of [job] settles: it returns, or throws. *)
Definition settle (job : nat) (result : completion string) (st : State) : State :=
  match awaiting st !! job with
  | None => st
  | Some i =>
      let st := with_awaiting (delete job) st in
      match result with
      | Throw _ => finish job ERROR st
      | Return outputName =>
          let st := file_done job i outputName st in
          if bool_decide (S i < length (files_of job st))%nat
          then start_file job (S i) st
          else finish job DONE st
      end
  end.

Definition BASE_DIR : list string := ["jobs"].

(** The directories that [mkdirSync(p, {recursive: true})] makes sure of. *)
Fixpoint ancestors (p : list string) : list (list string) :=
  match p with
  | [] => []
  | c :: r => [c] :: map (cons c) (ancestors r)
  end.

Definition ensure (dir : list string) (ds : gset (list string)) : gset (list string) :=
  ds ∪ list_to_set (ancestors dir).

(** The job-creation middleware. *)
Definition createJob (st : State) : nat * State :=
  let jobId := next_uid st in
  let jobDir := BASE_DIR ++ [pretty jobId] in
  let uploadDir := jobDir ++ ["uploads"] in
  let outputDir := jobDir ++ ["outputs"] in
  let job := Job.mk jobId QUEUED [] uploadDir outputDir in
  (jobId,
   mkState (<[jobId := job]> (objects st)) ({[jobId]} ∪ jobs st) (queue st)
           (activeJobs st) (awaiting st)
           (ensure outputDir (ensure uploadDir (dirs st)))
           ({[jobId]} ∪ timers st) (S jobId)).

(** The callback of the timer of job [jobId]. *)
Definition expire (jobId : nat) (st : State) : State :=
  if bool_decide (jobId ∈ timers st)
  then
    let jobDir := BASE_DIR ++ [pretty jobId] in
    mkState (objects st) (jobs st ∖ {[jobId]}) (queue st) (activeJobs st)
            (awaiting st)
            (filter (fun p => ¬ jobDir `prefix_of` p) (dirs st))
            (timers st ∖ {[jobId]}) (next_uid st)
  else st.

(** A file as multer stores it. *)
Module Upload.
Record t : Type := mk { originalname : string; path : string; size : N }.
End Upload.

Inductive Route : Type :=
  | PostUpload (files : list Upload.t)
  | GetStatus (jobId : nat)
  | GetDownload (jobId : nat) (file : string)
  | NoRoute.

(** A request, as far as the middleware stack tells requests apart:
    [static_hit] when [express.static] finds the file under [public] and
    answers, [urlencoded_error] when the body parser fails and hands an
    error on, which skips the rest of the stack. *)
Record Request : Type := {
  static_hit : bool;
  urlencoded_error : bool;
  route : Route
}.

(** The limits of multer: beyond them the route handler is not called. *)
Definition multer_ok (files : list Upload.t) : bool :=
  bool_decide (length files ≤ MAX_FILES)%nat
  && forallb (fun f => bool_decide (Upload.size f ≤ MAX_FILE_SIZE)%N) files.

(** The handler of [POST /upload]; [job] is [req.job]. *)
Definition upload (job : nat) (files : list Upload.t) (st : State) : State :=
  let tasks :=
    map (fun f => FileTask.mk (Upload.originalname f) (Upload.path f) None QUEUED)
        files in
  let st := update_job job (fun j => Job.set_files (Job.files j ++ tasks) j) st in
  let st := with_queue (queue st ++ [job]) st in
  runQueue st.

(** [jobs.get(jobId)], as the status and download routes read it. *)
Definition get_job (jobId : nat) (st : State) : option Job.t :=
  if bool_decide (jobId ∈ jobs st) then objects st !! jobId else None.

Definition handle (req : Request) (st : State) : State :=
  if static_hit req then st
  else if urlencoded_error req then st
  else
    let '(job, st) := createJob st in
    match route req with
    | PostUpload files => if multer_ok files then upload job files st else st
    | GetStatus _ | GetDownload _ _ | NoRoute => st
    end.

Inductive Event : Type :=
  | Http (req : Request)
  | Settled (job : nat) (result : completion string)
  | TtlExpired (jobId : nat).

Definition step (ev : Event) (st : State) : State :=
  match ev with
  | Http req => handle req st
  | Settled job result => settle job result st
  | TtlExpired jobId => expire jobId st
  end.

(** The state after [ensure(BASE_DIR)]. *)
Definition init : State :=
  mkState ∅ ∅ [] 0 ∅ (ensure BASE_DIR ∅) ∅ 0.

Inductive reachable : State -> Prop :=
  | reachable_init : reachable init
  | reachable_step ev st : reachable st -> reachable (step ev st).

(** The states that follow a state. *)
Inductive follows (st : State) : State -> Prop :=
  | follows_refl : follows st st
  | follows_step ev st' : follows st st' -> follows st (step ev st').

(** The jobs whose status is [PROCESSING]. *)
Definition processing (st : State) : gmap nat Job.t :=
  filter (fun kv => Job.status kv.2 = PROCESSING) (objects st).

(** *** The invariant of the queue *)

(** The status of file [k] of a job whose file [i] has status [cur]: the
    files before [i] are done, the files after it wait. *)
Definition expected (i : nat) (cur : Status) (k : nat) : Status :=
  if (k <? i)%nat then DONE else if (k =? i)%nat then cur else QUEUED.

Definition shape (i : nat) (cur : Status) (files : list FileTask.t) : Prop :=
  forall k f, files !! k = Some f -> FileTask.status f = expected i cur k.


(** A job, given the file its activation awaits ([a]) and whether it is in
    the queue. *)
Definition job_ok (a : option nat) (queued : Prop) (job : Job.t) : Prop :=
  match a with
  | Some i =>
      Job.status job = PROCESSING /\ ~ queued
      /\ (i < length (Job.files job))%nat
      /\ shape i PROCESSING (Job.files job)
  | None =>
      match Job.status job with
      | QUEUED => shape 0 QUEUED (Job.files job)
      | PROCESSING => False
      | DONE => ~ queued /\ shape (length (Job.files job)) DONE (Job.files job)
      | ERROR =>
          ~ queued
          /\ exists i, (i < length (Job.files job))%nat
                       /\ shape i PROCESSING (Job.files job)
      end
  end.

Record Inv (st : State) : Prop := {
  inv_nodup : NoDup (queue st);
  inv_queue : forall j, j ∈ queue st -> is_Some (objects st !! j);
  inv_await : forall j i, awaiting st !! j = Some i -> is_Some (objects st !! j);
  inv_jobs : forall j job, objects st !! j = Some job ->
             job_ok (awaiting st !! j) (j ∈ queue st) job;
  inv_active : activeJobs st = Z.of_nat (size (awaiting st));
  inv_limit : (activeJobs st ≤ MAX_CONCURRENT_JOBS)%Z;
  inv_fresh : forall j, is_Some (objects st !! j) -> (j < next_uid st)%nat;
  inv_known : forall j, j ∈ jobs st -> (j < next_uid st)%nat
}.

(** A job that neither waits in the queue nor is being processed is
    never touched again (lemma [idle_step]). *)
Definition idle (j : nat) (st : State) : Prop :=
  is_Some (objects st !! j) /\ (j ∉ queue st) /\ awaiting st !! j = None.

End V1.

(** ** server (2).js *)

Module V2.

(** The text kept from the stderr chunks of the [silencedetect] run. *)
Definition trace (chunks : list string) : string :=
  fold_left (fun log t => if includes "silence_" t then log +:+ t else log)
            chunks "".

(** One line of the trace; [current] is [null] or an object holding
    [start]. *)
Definition detect_step (st : list Silence.t * option number) (line : string)
    : list Silence.t * option number :=
  let '(silences, current) := st in
  let current :=
    if includes "silence_start" line
    then Some (parseFloat (split "silence_start:" line !! 1%nat))
    else current in
  if includes "silence_end" line
  then
    match current with
    | Some start =>
        let end_ := parseFloat (split "silence_end:" line !! 1%nat) in
        (silences ++ [Silence.mk start (Some end_)], None)
    | None => (silences, current)
    end
  else (silences, current).

Definition detect_lines (lines : list string) : list Silence.t :=
  let '(silences, current) := fold_left detect_step lines ([], None) in
  match current with
  | Some start => silences ++ [Silence.mk start None]
  | None => silences
  end.

(** [detectSilence]: the promise resolves when the tool closes. *)
Definition detectSilence (chunks : list string) : list Silence.t :=
  detect_lines (split LF (trace chunks)).

(** [getDuration]: [out] is the standard output of the probe; the promise
    resolves in every case. *)
Definition getDuration (out : string) : number := parseFloat (Some out).

(** The object argument of [buildKeepSegments]; an absent property is
    [None] and takes the default of the parameter list. *)
Record Args : Type := {
  silences : list Silence.t;
  totalDuration : number;
  postSpeechBuffer : option number;
  preSpeechBuffer : option number;
  minKeep : option number
}.

Definition keep_step (totalDuration postSpeechBuffer preSpeechBuffer minKeep : number)
    (st : list Span.t * number) (s : Silence.t) : list Span.t * number :=
  let '(keep, cursor) := st in
  let end_ := default totalDuration (Silence.end_ s) in
  let cutStart := (Silence.start s + postSpeechBuffer)%float in
  let cutEnd := (end_ - preSpeechBuffer)%float in
  let keep :=
    if (cutStart - cursor >=? minKeep)%float
    then keep ++ [Span.mk cursor cutStart]
    else keep in
  (keep, JS.max cursor cutEnd).

Definition buildKeepSegments (a : Args) : list Span.t :=
  let totalDuration := totalDuration a in
  let postSpeechBuffer := default 0.5%float (postSpeechBuffer a) in
  let preSpeechBuffer := default 0.5%float (preSpeechBuffer a) in
  let minKeep := default 0.2%float (minKeep a) in
  let '(keep, cursor) :=
    fold_left (keep_step totalDuration postSpeechBuffer preSpeechBuffer minKeep)
              (silences a) ([], 0%float) in
  if (totalDuration - cursor >=? minKeep)%float
  then keep ++ [Span.mk cursor totalDuration]
  else keep.

Section FilterGraph.

Variable toString : number -> string.

Definition buildConcatFilter (segments : list Span.t) : string :=
  let v := String.concat "" (imap (fun i s =>
      "[0:v]trim=start=" +:+ toString (Span.start s) +:+ ":end="
      +:+ toString (Span.end_ s) +:+ ",setpts=PTS-STARTPTS[v" +:+ pretty i +:+ "];")
      segments) in
  let a := String.concat "" (imap (fun i s =>
      "[0:a]atrim=start=" +:+ toString (Span.start s) +:+ ":end="
      +:+ toString (Span.end_ s) +:+ ",asetpts=PTS-STARTPTS[a" +:+ pretty i +:+ "];")
      segments) in
  let vOut := String.concat "" (imap (fun i _ => "[v" +:+ pretty i +:+ "]") segments) in
  let aOut := String.concat "" (imap (fun i _ => "[a" +:+ pretty i +:+ "]") segments) in
  let n := length segments in
  v +:+ a +:+ vOut +:+ "concat=n=" +:+ pretty n +:+ ":v=1:a=0[v];"
  +:+ aOut +:+ "concat=n=" +:+ pretty n +:+ ":v=0:a=1[a]".

End FilterGraph.

(** The graph that [buildConcatFilter] writes. *)
Definition segment_chain (i : nat) (st : stream) (s : Span.t) : chain :=
  Chain [Source st]
        [Trim st true (Span.start s) (Span.end_ s); SetPts st]
        [Piece st i].

Definition concat_graph (segments : list Span.t) : list chain :=
  let n := length segments in
  imap (fun i s => segment_chain i Video s) segments
  ++ imap (fun i s => segment_chain i Audio s) segments
  ++ [Chain (map (Piece Video) (seq 0 n)) [Concat n 1 0] [Named "v"];
      Chain (map (Piece Audio) (seq 0 n)) [Concat n 0 1] [Named "a"]].

End V2.

(** ** Numbers as text

    [decimal] is the conversion of a number to a string that a template
    string applies ([Number::toString], radix 10): the shortest decimal
    that reads back as the number, written without an exponent when
    its decimal point lies within 21 digits to the right or 6 to the
    left. *)

(** [u / 2^1074 * 10^k] as a fraction. *)
Definition scaled (u k : Z) : Z * Z :=
  if (0 <=? k)%Z then (u * 10 ^ k, 2 ^ 1074)%Z
  else (u, 2 ^ 1074 * 10 ^ (- k))%Z.

(** The [n] with [10^(n-1) <= u / 2^1074 < 10^n], searched downwards. *)
Fixpoint magnitude (fuel : nat) (u n : Z) : Z :=
  match fuel with
  | O => n
  | S fuel =>
      let '(a, b) := scaled u (1 - n) in
      if (b <=? a)%Z then n else magnitude fuel u (n - 1)
  end.

(** The integer [s] of [k] digits nearest to [u / 2^1074 * 10^(k-n)] such
    that [s * 10^(n-k)] reads back as [x], if there is one. *)
Definition candidate (x : number) (u n k : Z) : option Z :=
  let '(a, b) := scaled u (k - n) in
  let lo := (a / b)%Z in
  let hi := (lo + 1)%Z in
  let ok s := PrimFloat.Leibniz.eqb (round_decimal false s (n - k)) x in
  match ok lo, ok hi with
  | true, true =>
      Some match (2 * (a mod b) ?= b)%Z with
           | Lt => lo
           | Gt => hi
           | Eq => if Z.even lo then lo else hi
           end
  | true, false => Some lo
  | false, true => Some hi
  | false, false => None
  end.

Fixpoint shortest (fuel : nat) (x : number) (u n k : Z) : Z * Z :=
  match fuel with
  | O => (0%Z, k)
  | S fuel =>
      match candidate x u n k with
      | Some s => (s, k)
      | None => shortest fuel x u n (k + 1)
      end
  end.

Definition zeros (n : Z) : string := String.concat "" (replicate (Z.to_nat n) "0").

(** The text of a finite number larger than 0.  The search for its
    magnitude starts from a bound read off its binary logarithm. *)
Definition decimal_positive (x : number) : string :=
  let u := units x in
  let b := (Z.log2 u - 1073)%Z in
  let n := magnitude 8 u (Z.max (b * 30103 / 100000) (b * 30102 / 100000) + 2) in
  let '(s, k) := shortest 17 x u n 1 in
  let '(s, n) := if (s =? 10 ^ k)%Z then (10 ^ (k - 1), n + 1)%Z else (s, n) in
  let ds : string := pretty s in
  let head (i : Z) := String.substring 0 (Z.to_nat i) ds in
  let tail (i : Z) := String.substring (Z.to_nat i) (String.length ds) ds in
  if (k <=? n)%Z && (n <=? 21)%Z then ds +:+ zeros (n - k)
  else if (0 <? n)%Z && (n <=? 21)%Z then head n +:+ "." +:+ tail n
  else if (-6 <? n)%Z && (n <=? 0)%Z then "0." +:+ zeros (- n) +:+ ds
  else
    let e := (n - 1)%Z in
    let es := (if (e <? 0)%Z then "-" else "+") +:+ pretty (Z.abs e) in
    if (k =? 1)%Z then ds +:+ "e" +:+ es
    else head 1%Z +:+ "." +:+ tail 1%Z +:+ "e" +:+ es.

Definition decimal (x : number) : string :=
  if is_nan x then "NaN"
  else if is_zero x then "0"
  else
    let a := abs x in
    (if (x <? 0)%float then "-" else "")
    +:+ (if is_infinity a then "Infinity" else decimal_positive a).

(** ** The order of the numbers

    [rank] places the numbers other than [NaN] in their order: a finite
    number by its units, the infinities beyond every finite number
    (lemma [SFcompare_rank]). *)
Definition beyond : Z := 2 ^ 2098.

Definition rank (x : number) : Z :=
  match Prim2SF x with
  | S754_infinity s => cond_Zopp s beyond
  | _ => units x
  end.

(** [x] is not [NaN]. *)
Definition num (x : number) : Prop := Prim2SF x <> S754_nan.

Definition positive_float (x : spec_float) : Prop :=
  match x with
  | S754_finite false _ _ | S754_infinity false => True
  | _ => False
  end.

(** [x] is neither [NaN] nor an infinity. *)
Definition finite (x : number) : Prop :=
  (neg_infinity < x)%float /\ (x < infinity)%float.

(** ** What the properties of the planners ask *)

(** The segments [ks] have numbers for bounds, none is empty, and they lie
    one after another between the ranks [lo] and [hi]. *)
Fixpoint laid_out (lo : Z) (ks : list Span.t) (hi : Z) : Prop :=
  match ks with
  | [] => (lo <= hi)%Z
  | k :: r =>
      num (Span.start k) /\ num (Span.end_ k)
      /\ (lo <= rank (Span.start k))%Z
      /\ (rank (Span.start k) < rank (Span.end_ k))%Z
      /\ laid_out (rank (Span.end_ k)) r hi
  end.

Definition finite_span (k : Span.t) : Prop :=
  finite (Span.start k) /\ finite (Span.end_ k).

(** The segments are strictly ordered by start, do not overlap, have
    finite bounds, and their lengths add up to [total] at most. *)
Definition well_planned (ks : list Span.t) (total : number) : Prop :=
  ordered_by_start ks /\ non_overlapping ks
  /\ Forall finite_span ks /\ (durations ks <= exact total)%Q.

(** The cut that the planner of [server (2).js] computes for a silence,
    [start + postSpeechBuffer] to [(end ?? totalDuration) -
    preSpeechBuffer], is not inverted and ends inside the media. *)
Definition fits (total post pre : number) (s : Silence.t) : Prop :=
  let end_ := default total (Silence.end_ s) in
  (Silence.start s + post <= end_ - pre)%float /\ (end_ - pre <= total)%float.

(** The same for [server.js]: [start + KEEP_BEFORE] to [end - KEEP_AFTER]. *)
Definition fits1 (duration : number) (s : Span.t) : Prop :=
  (Span.start s + V1.KEEP_BEFORE <= Span.end_ s - V1.KEEP_AFTER)%float
  /\ (Span.end_ s - V1.KEEP_AFTER <= duration)%float.

(** The call [buildKeepSegments({silences, totalDuration})] of
    [processSingleFile]. *)
Definition plan (silences : list Silence.t) (totalDuration : number) : V2.Args :=
  {| V2.silences := silences; V2.totalDuration := totalDuration;
     V2.postSpeechBuffer := None; V2.preSpeechBuffer := None;
     V2.minKeep := None |}.

(** Every segment of [ks] lies inside the media: [0 <= start < end <= total]. *)
Definition within_media (total : number) (ks : list Span.t) : Prop :=
  Forall (fun k => (0 <= Span.start k)%float
                   /\ (Span.start k < Span.end_ k)%float
                   /\ (Span.end_ k <= total)%float) ks.

(** What the loop of the planner of [server (2).js] keeps, whatever the
    silences are: no segment is empty, the starts do not decrease, and
    they lie at or before the cursor while it is a number. *)
Definition v2_keeps_ok (ks : list Span.t) (c : number) : Prop :=
  Forall (fun k => (Span.start k < Span.end_ k)%float) ks
  /\ adjacent (fun x y => (Span.start x <= Span.start y)%float) ks
  /\ (num c -> Forall (fun k => num (Span.start k)
                                /\ (rank (Span.start k) <= rank c)%Z) ks).

(** ** The lines of a trace *)


(** A line of the trace that holds a silence marker. *)
Definition marked (line : string) : bool :=
  includes "silence_start" line || includes "silence_end" line.





(** What C5 asks of the graph built for [segs]. *)
Definition one_concat_graph (segs : list Span.t) (g : list chain) : Prop :=
  trims Video g = map bounds segs
  /\ trims Audio g = map bounds segs
  /\ (exists c, concat_ops g = [c] /\ inputs c = pairs (length segs))
  /\ (forall c st, c ∈ g -> Piece st 0 ∈ outputs c -> has_fade_in c = false)
  /\ (forall c st, c ∈ g -> Piece st (length segs - 1) ∈ outputs c ->
      has_fade_out c = false).

(** No character of [s] is a digit. *)
Fixpoint no_digit (s : string) : bool :=
  match s with
  | EmptyString => true
  | String c r => negb (is_digit c) && no_digit r
  end.

(** Requests and states for the examples: an upload of one file, three
    uploads in a row, and a request for a page of the interface, which
    [express.static] answers. *)
Definition upload_one (name : string) : V1.Event :=
  V1.Http {| V1.static_hit := false; V1.urlencoded_error := false;
             V1.route := V1.PostUpload [V1.Upload.mk name name 1000] |}.

Definition three_uploads : V1.State :=
  V1.step (upload_one "c.mp4")
    (V1.step (upload_one "b.mp4") (V1.step (upload_one "a.mp4") V1.init)).

Definition page_request : V1.Request :=
  {| V1.static_hit := true; V1.urlencoded_error := false; V1.route := V1.NoRoute |}.

Definition status_request (jobId : nat) : V1.Request :=
  {| V1.static_hit := false; V1.urlencoded_error := false;
     V1.route := V1.GetStatus jobId |}.

(** The pads that the chains of a graph write and read, in order. *)
Definition produced (g : list chain) : list pad := flat_map outputs g.
Definition consumed (g : list chain) : list pad := flat_map inputs g.

(** The values of the [-map] options of an argument list; [-y] is the
    only option of these lists that takes no value. *)
Fixpoint mapped (args : list string) : list string :=
  match args with
  | flag :: rest =>
      if String.eqb flag "-y" then mapped rest
      else
        match rest with
        | value :: rest =>
            (if String.eqb flag "-map" then [value] else []) ++ mapped rest
        | [] => []
        end
  | [] => []
  end.

(** The argument list of the encoding run of [processFile] in
    [server.js]. *)
Definition v1_encode_args (inputPath graph outputPath : string) : list string :=
  ["-i"; inputPath; "-filter_complex"; graph; "-map"; "[outv]"; "-map"; "[outa]";
   "-y"; outputPath].

(** The argument lists of [processSingleFile] in [server (2).js]: the
    plain re-encoding when no silence was found, the cut otherwise. *)
Definition v2_reencode_args (input output : string) : list string :=
  ["-y"; "-i"; input; "-c:v"; "libx264"; "-preset"; "veryfast"; "-crf"; "23";
   "-c:a"; "aac"; "-b:a"; "128k"; "-movflags"; "+faststart"; output].

Definition v2_cut_args (input filter output : string) : list string :=
  ["-y"; "-i"; input; "-filter_complex"; filter; "-map"; "[v]"; "-map"; "[a]";
   "-c:v"; "libx264"; "-preset"; "veryfast"; "-crf"; "23";
   "-c:a"; "aac"; "-b:a"; "128k"; "-movflags"; "+faststart"; output].

Section ProcessSingleFile.

Variable toString : number -> string.

(** [processSingleFile]: the arguments of the run it spawns, from what the
    detector and the probe returned. *)
Definition processSingleFile (silences : list Silence.t) (duration : number)
    (input output : string) : list string :=
  match silences with
  | [] => v2_reencode_args input output
  | _ =>
      let keepSegments := V2.buildKeepSegments (plan silences duration) in
      let filter := V2.buildConcatFilter toString keepSegments in
      v2_cut_args input filter output
  end.

End ProcessSingleFile.

(** The directory of a job, [path.join(BASE_DIR, jobId)]. *)
Definition job_dir (j : nat) : list string := V1.BASE_DIR ++ [pretty j].

(** What holds of the job object [j] besides its statuses: its id and
    directories are those the middleware gave it, and a file has an
    [outputName] exactly when it is done. *)
Definition good_job (j : nat) (job : V1.Job.t) : Prop :=
  V1.Job.id job = j
  /\ V1.Job.uploadDir job = job_dir j ++ ["uploads"]
  /\ V1.Job.outputDir job = job_dir j ++ ["outputs"]
  /\ forall k f, V1.Job.files job !! k = Some f ->
       (V1.FileTask.status f = V1.DONE <-> is_Some (V1.FileTask.outputName f)).

Definition all_good (st : V1.State) : Prop :=
  forall j job, V1.objects st !! j = Some job -> good_job j job.

(** The queue is worked off without delay: a job waits only while as many
    jobs are being processed as the limit allows. *)
Definition busy (st : V1.State) : Prop :=
  V1.queue st = [] \/ V1.activeJobs st = V1.MAX_CONCURRENT_JOBS.

(** The page of [GET /status/:jobId]: whether it reloads itself, its
    heading, an item for each file (name, status, and the output offered
    for download when [outputName] is set and not empty) and whether it
    links back to the upload form.  [None] stands for the answer
    "This job has expired." *)
Record Page : Type := {
  reloads : bool;
  heading : string;
  items : list (string * V1.Status * option string);
  upload_more : bool
}.

Definition page_item (f : V1.FileTask.t) : string * V1.Status * option string :=
  (V1.FileTask.originalName f, V1.FileTask.status f,
   match V1.FileTask.outputName f with
   | Some o => if String.eqb o "" then None else Some o
   | None => None
   end).

Definition status_page (jobId : nat) (st : V1.State) : option Page :=
  match V1.get_job jobId st with
  | None => None
  | Some job =>
      let done := bool_decide (V1.Job.status job = V1.DONE) in
      Some {| reloads := negb done;
              heading := if done then "Processing complete" else "Processing…";
              items := map page_item (V1.Job.files job);
              upload_more := done |}
  end.

(** * Properties *)

Example rounding :
  (0.4 + 0.5)%float = 0.9%float
  /\ (1.4 - 0.5)%float = 0.8999999999999999%float
  /\ (0.7 - 0.1 >=? 0.6)%float = true
  /\ (0.1 + 0.3)%float = 0.4%float
  /\ (0.7 - 0.3)%float = 0.39999999999999997%float
  /\ (9007199254740992 - 0.5)%float = 9007199254740992%float.
Proof. repeat split; reflexivity. Qed.

Example parseFloat_examples :
  parseFloat (Some " 3.5 | silence_duration") = 3.5%float
  /\ parseFloat (Some "0.1") = 0.1%float
  /\ parseFloat (Some "-.5e1x") = (-5)%float
  /\ parseFloat (Some "9007199254740993") = 9007199254740992%float
  /\ parseFloat (Some "1e400") = infinity
  /\ parseFloat (Some "-Infinity") = neg_infinity
  /\ parseFloat (Some "N/A") = nan
  /\ parseFloat None = nan.
Proof. repeat split; vm_compute; reflexivity. Qed.

Example decimal_examples :
  map decimal [0; 3.5; 10; 0.08; 3.5 - 0.08; 1.4 - 0.5; 0.1 + 0.2; 1e21; 1e-7; -2.5]%float
  = ["0"; "3.5"; "10"; "0.08"; "3.42"; "0.8999999999999999"; "0.30000000000000004";
     "1e+21"; "1e-7"; "-2.5"]
  /\ map decimal [nan; infinity; neg_infinity; (-0)%float] = ["NaN"; "Infinity"; "-Infinity"; "0"].
Proof. split; vm_compute; reflexivity. Qed.

Example v1_graph :
  V1.buildFilterGraph decimal [Span.mk 0 3.5; Span.mk 4.5 10]
  = "[0:v]trim=0:3.5,setpts=PTS-STARTPTS,fade=t=out:st=3.42:d=0.08[v0];[0:a]atrim=0:3.5,asetpts=PTS-STARTPTS,afade=t=out:st=3.42:d=0.08[a0];[0:v]trim=4.5:10,setpts=PTS-STARTPTS,fade=t=in:st=0:d=0.08[v1];[0:a]atrim=4.5:10,asetpts=PTS-STARTPTS,afade=t=in:st=0:d=0.08[a1];[v0][a0][v1][a1]concat=n=2:v=1:a=1[outv][outa]".
Proof. vm_compute. reflexivity. Qed.

Example v1_graph_render :
  render decimal (V1.filter_graph [Span.mk 0 3.5; Span.mk 4.5 10])
  = V1.buildFilterGraph decimal [Span.mk 0 3.5; Span.mk 4.5 10].
Proof. vm_compute. reflexivity. Qed.

Example v2_graph :
  V2.buildConcatFilter decimal [Span.mk 0 3.5; Span.mk 4.5 10]
  = "[0:v]trim=start=0:end=3.5,setpts=PTS-STARTPTS[v0];[0:v]trim=start=4.5:end=10,setpts=PTS-STARTPTS[v1];[0:a]atrim=start=0:end=3.5,asetpts=PTS-STARTPTS[a0];[0:a]atrim=start=4.5:end=10,asetpts=PTS-STARTPTS[a1];[v0][v1]concat=n=2:v=1:a=0[v];[a0][a1]concat=n=2:v=0:a=1[a]".
Proof. vm_compute. reflexivity. Qed.

Example v2_graph_render :
  render decimal (V2.concat_graph [Span.mk 0 3.5; Span.mk 4.5 10])
  = V2.buildConcatFilter decimal [Span.mk 0 3.5; Span.mk 4.5 10].
Proof. vm_compute. reflexivity. Qed.

Example v1_duration :
  V1.getDuration (Rejected "  Duration: 00:01:02.50, start: 0.000000, bitrate: 128 kb/s")
  = Return (Some 62.5%float).
Proof. vm_compute. reflexivity. Qed.

Example v1_detect :
  V1.detect_lines ["[silencedetect @ 0x1] silence_start: 3";
                   "[silencedetect @ 0x1] silence_end: 5 | silence_duration: 2";
                   "[silencedetect @ 0x1] silence_start: 8"]
  = [Span.mk 3 5].
Proof. vm_compute. reflexivity. Qed.

Example v2_detect :
  V2.detect_lines ["[silencedetect @ 0x1] silence_start: 3";
                   "[silencedetect @ 0x1] silence_end: 5 | silence_duration: 2";
                   "[silencedetect @ 0x1] silence_start: 8"]
  = [Silence.mk 3 (Some 5%float); Silence.mk 8 None].
Proof. vm_compute. reflexivity. Qed.

Example v2_plan :
  V2.buildKeepSegments
    {| V2.silences := [Silence.mk 3 (Some 5%float)];
       V2.totalDuration := 10;
       V2.postSpeechBuffer := Some 0.5%float;
       V2.preSpeechBuffer := Some 0.5%float;
       V2.minKeep := Some 0.2%float |}
  = [Span.mk 0 3.5; Span.mk 4.5 10].
Proof. vm_compute. reflexivity. Qed.

(** Rounding at work in the planners.  A silence one second wide, the
    threshold of the detector of [server (2).js], whose cut [0.9] to
    [0.8999999999999999] is inverted; and a silence that passes the test
    [end - start >= MIN_SILENCE] of [server.js] with the same effect. *)
Example v2_rounding_overlap :
  V2.buildKeepSegments (plan [Silence.mk 0.4 (Some 1.4%float)] 10)
  = [Span.mk 0 0.9; Span.mk 0.8999999999999999 10].
Proof. vm_compute. reflexivity. Qed.

Example v1_rounding_overlap :
  V1.detect_lines ["[silencedetect @ 0x1] silence_start: 0.1";
                   "[silencedetect @ 0x1] silence_end: 0.7 | silence_duration: 0.6"]
  = [Span.mk 0.1 0.7]
  /\ V1.buildKeepSegments [Span.mk 0.1 0.7] 10
     = [Span.mk 0 0.4; Span.mk 0.39999999999999997 10].
Proof. split; vm_compute; reflexivity. Qed.

(** A file so long that half a second is below the precision of its
    duration: the planner returns the first buffer only. *)
Example v2_long_file :
  V2.buildKeepSegments (plan [Silence.mk 0 (Some 9007199254740992%float)] 9007199254740992)
  = [Span.mk 0 0.5]
  /\ V1.buildKeepSegments [Span.mk 0 9007199254740992] 9007199254740992
     = [Span.mk 0 0.3].
Proof. split; vm_compute; reflexivity. Qed.

(** ** Numbers *)

Lemma digits2_size m : digits2_pos m = Pos.size m.
Proof. induction m; simpl; congruence. Qed.

Lemma size_bounds m : (2 ^ (Z.pos (Pos.size m) - 1) <= Z.pos m < 2 ^ Z.pos (Pos.size m))%Z.
Proof.
  pose proof (Pos.size_gt m) as Hgt. pose proof (Pos.size_le m) as Hle.
  apply Pos2Z.pos_lt_pos in Hgt. apply Pos2Z.pos_le_pos in Hle.
  rewrite Pos2Z.inj_pow in Hgt, Hle. change (Z.pos m~0) with (2 * Z.pos m)%Z in Hle.
  split; [|exact Hgt].
  replace (Z.pos (Pos.size m)) with (Z.succ (Z.pos (Pos.size m) - 1)) in Hle by lia.
  rewrite Z.pow_succ_r in Hle by lia. lia.
Qed.

Lemma bounded_bounds m e :
  bounded prec emax m e = true ->
  (-1074 <= e <= 971 /\ 0 < Z.pos m < 2 ^ 53 /\ (-1074 < e -> 2 ^ 52 <= Z.pos m))%Z.
Proof.
  unfold bounded, canonical_mantissa, fexp, SpecFloat.emin, prec, emax.
  rewrite andb_true_iff, Z.eqb_eq, Z.leb_le, digits2_size.
  intros [Hc He]. pose proof (size_bounds m) as [Hlo Hhi].
  set (d := Z.pos (Pos.size m)) in *.
  assert (Hd : (d <= 53)%Z) by lia.
  split; [lia|]. split.
  - split; [lia|]. eapply Z.lt_le_trans; [exact Hhi|].
    apply Z.pow_le_mono_r; lia.
  - intros H. assert (d = 53%Z) as Hd' by lia. rewrite Hd' in Hlo. exact Hlo.
Qed.

Lemma valid_finite x s m e :
  Prim2SF x = S754_finite s m e ->
  (-1074 <= e <= 971 /\ 0 < Z.pos m < 2 ^ 53 /\ (-1074 < e -> 2 ^ 52 <= Z.pos m))%Z.
Proof.
  intros H. pose proof (Prim2SF_valid x) as V. rewrite H in V.
  apply bounded_bounds, V.
Qed.

Lemma finite_lt_beyond m e :
  (-1074 <= e <= 971)%Z -> (0 < Z.pos m < 2 ^ 53)%Z ->
  (0 < Z.pos m * 2 ^ (e + 1074) < beyond)%Z.
Proof.
  intros He Hm. unfold beyond.
  assert (Hp : (0 < 2 ^ (e + 1074))%Z) by (apply Z.pow_pos_nonneg; lia).
  assert (Hq : (2 ^ (e + 1074) <= 2 ^ 2045)%Z) by (apply Z.pow_le_mono_r; lia).
  replace 2098%Z with (53 + 2045)%Z by lia. rewrite (Z.pow_add_r 2 53 2045) by lia.
  set (P := (2 ^ (e + 1074))%Z) in *. set (A := (2 ^ 53)%Z) in *.
  set (B := (2 ^ 2045)%Z) in *.
  split; [lia|]. apply Z.le_lt_trans with (Z.pos m * B)%Z.
  - apply Z.mul_le_mono_nonneg_l; lia.
  - apply Z.mul_lt_mono_pos_r; lia.
Qed.

Lemma finite_exponent_lt m1 e1 m2 e2 :
  (-1074 <= e1)%Z -> (0 < Z.pos m1 < 2 ^ 53)%Z -> (2 ^ 52 <= Z.pos m2)%Z ->
  (e1 < e2)%Z ->
  (Z.pos m1 * 2 ^ (e1 + 1074) < Z.pos m2 * 2 ^ (e2 + 1074))%Z.
Proof.
  intros He1 Hm1 Hm2 Hlt.
  replace (e2 + 1074)%Z with ((e1 + 1074) + (e2 - e1))%Z by lia.
  rewrite (Z.pow_add_r 2 (e1 + 1074) (e2 - e1)) by lia.
  assert (Hp : (0 < 2 ^ (e1 + 1074))%Z) by (apply Z.pow_pos_nonneg; lia).
  assert (Hk : (2 ^ 1 <= 2 ^ (e2 - e1))%Z) by (apply Z.pow_le_mono_r; lia).
  change (2 ^ 1)%Z with 2%Z in Hk.
  change (2 ^ 53)%Z with (2 * 2 ^ 52)%Z in Hm1.
  set (P := (2 ^ (e1 + 1074))%Z) in *. set (K := (2 ^ (e2 - e1))%Z) in *.
  set (A := (2 ^ 52)%Z) in *.
  apply Z.lt_le_trans with (2 * A * P)%Z.
  - apply Z.mul_lt_mono_pos_r; lia.
  - replace (2 * A * P)%Z with (A * (P * 2))%Z by ring.
    assert (P * 2 <= P * K)%Z by (apply Z.mul_le_mono_nonneg_l; lia).
    apply Z.mul_le_mono_nonneg; lia.
Qed.

(** The order of two valid positive finite numbers is the order of their
    values. *)
Lemma finite_compare m1 e1 m2 e2 :
  bounded prec emax m1 e1 = true -> bounded prec emax m2 e2 = true ->
  match (e1 ?= e2)%Z with
  | Lt => Lt
  | Gt => Gt
  | Eq => Pos.compare_cont Eq m1 m2
  end
  = (Z.pos m1 * 2 ^ (e1 + 1074) ?= Z.pos m2 * 2 ^ (e2 + 1074))%Z.
Proof.
  intros V1 V2. apply bounded_bounds in V1 as (He1 & Hm1 & Hn1).
  apply bounded_bounds in V2 as (He2 & Hm2 & Hn2).
  destruct (Z.compare_spec e1 e2) as [->|Hlt|Hgt].
  - change (Pos.compare_cont Eq m1 m2) with (Z.pos m1 ?= Z.pos m2)%Z.
    assert (Hp : (0 < 2 ^ (e2 + 1074))%Z) by (apply Z.pow_pos_nonneg; lia).
    symmetry. destruct (Z.compare_spec (Z.pos m1) (Z.pos m2)) as [E|L|G].
    + rewrite E. apply Z.compare_refl.
    + apply Z.compare_lt_iff. nia.
    + apply Z.compare_gt_iff. nia.
  - symmetry. apply Z.compare_lt_iff.
    apply finite_exponent_lt; lia.
  - symmetry. apply Z.compare_gt_iff.
    apply finite_exponent_lt; lia.
Qed.

Lemma SFcompare_rank (x y : number) :
  num x -> num y ->
  SFcompare (Prim2SF x) (Prim2SF y) = Some (rank x ?= rank y)%Z.
Proof.
  unfold num, rank, units. intros Hx Hy.
  pose proof (Prim2SF_valid x) as Vx. pose proof (Prim2SF_valid y) as Vy.
  destruct (Prim2SF x) as [sx|sx| |sx mx ex]; [| |congruence|];
    destruct (Prim2SF y) as [sy|sy| |sy my ey]; try congruence;
    cbn [SFcompare valid_binary] in *.
  - reflexivity.
  - f_equal. destruct sy; reflexivity.
  - f_equal. apply bounded_bounds in Vy as (He & Hm & _).
    pose proof (finite_lt_beyond my ey He Hm).
    destruct sy; cbn [cond_Zopp]; symmetry;
      [apply Z.compare_gt_iff | apply Z.compare_lt_iff]; lia.
  - f_equal. destruct sx; reflexivity.
  - f_equal. destruct sx, sy; reflexivity.
  - f_equal. apply bounded_bounds in Vy as (He & Hm & _).
    pose proof (finite_lt_beyond my ey He Hm).
    destruct sx, sy; cbn [cond_Zopp]; symmetry;
      [apply Z.compare_lt_iff | apply Z.compare_lt_iff
       | apply Z.compare_gt_iff | apply Z.compare_gt_iff]; unfold beyond in *; lia.
  - f_equal. apply bounded_bounds in Vx as (He & Hm & _).
    pose proof (finite_lt_beyond mx ex He Hm).
    destruct sx; cbn [cond_Zopp]; symmetry;
      [apply Z.compare_lt_iff | apply Z.compare_gt_iff]; lia.
  - f_equal. apply bounded_bounds in Vx as (He & Hm & _).
    pose proof (finite_lt_beyond mx ex He Hm).
    destruct sx, sy; cbn [cond_Zopp]; symmetry;
      [apply Z.compare_gt_iff | apply Z.compare_lt_iff
       | apply Z.compare_gt_iff | apply Z.compare_lt_iff]; unfold beyond in *; lia.
  - f_equal.
    pose proof (bounded_bounds _ _ Vx) as (Hex & Hmx & _).
    pose proof (bounded_bounds _ _ Vy) as (Hey & Hmy & _).
    pose proof (finite_lt_beyond mx ex Hex Hmx).
    pose proof (finite_lt_beyond my ey Hey Hmy).
    destruct sx, sy; cbn [cond_Zopp].
    + rewrite Z.compare_opp. rewrite <- (finite_compare my ey mx ex Vy Vx).
      rewrite (Z.compare_antisym ey ex).
      destruct (ey ?= ex)%Z; cbn; try reflexivity.
      rewrite Pos.compare_cont_antisym. reflexivity.
    + symmetry. apply Z.compare_lt_iff. lia.
    + symmetry. apply Z.compare_gt_iff. lia.
    + apply finite_compare; assumption.
Qed.

Lemma SFcompare_nan_l x : SFcompare S754_nan x = None.
Proof. reflexivity. Qed.

Lemma SFcompare_nan_r x : SFcompare x S754_nan = None.
Proof. destruct x; reflexivity. Qed.

Lemma SFcompare_Some x y c :
  SFcompare (Prim2SF x) (Prim2SF y) = Some c ->
  num x /\ num y /\ c = (rank x ?= rank y)%Z.
Proof.
  intros H.
  assert (Hx : num x).
  { intros E. rewrite E in H. discriminate. }
  assert (Hy : num y).
  { intros E. rewrite E, SFcompare_nan_r in H. discriminate. }
  rewrite (SFcompare_rank x y Hx Hy) in H. injection H as <-. auto.
Qed.

Lemma leb_rank (x y : number) :
  (x <=? y)%float = true <-> num x /\ num y /\ (rank x <= rank y)%Z.
Proof.
  rewrite leb_spec. unfold SFleb. split.
  - destruct (SFcompare _ _) as [c|] eqn:E; [|discriminate].
    apply SFcompare_Some in E as (Hx & Hy & ->).
    destruct (Z.compare_spec (rank x) (rank y)); try discriminate; intros _;
      repeat split; auto; lia.
  - intros (Hx & Hy & H). rewrite (SFcompare_rank x y Hx Hy).
    destruct (Z.compare_spec (rank x) (rank y)); try reflexivity; lia.
Qed.

Lemma ltb_rank (x y : number) :
  (x <? y)%float = true <-> num x /\ num y /\ (rank x < rank y)%Z.
Proof.
  rewrite ltb_spec. unfold SFltb. split.
  - destruct (SFcompare _ _) as [c|] eqn:E; [|discriminate].
    apply SFcompare_Some in E as (Hx & Hy & ->).
    destruct (Z.compare_spec (rank x) (rank y)); try discriminate; intros _;
      repeat split; auto; lia.
  - intros (Hx & Hy & H). rewrite (SFcompare_rank x y Hx Hy).
    destruct (Z.compare_spec (rank x) (rank y)); try reflexivity; lia.
Qed.

Lemma ltb_false (x y : number) :
  num x -> num y -> (x <? y)%float = false -> (rank y <= rank x)%Z.
Proof.
  intros Hx Hy H. destruct (Z.le_gt_cases (rank y) (rank x)) as [|G]; [assumption|].
  assert (T : (x <? y)%float = true) by (apply ltb_rank; auto with zarith).
  congruence.
Qed.

Lemma leb_false (x y : number) :
  num x -> num y -> (x <=? y)%float = false -> (rank y < rank x)%Z.
Proof.
  intros Hx Hy H. destruct (Z.lt_ge_cases (rank y) (rank x)) as [|G]; [assumption|].
  assert (T : (x <=? y)%float = true) by (apply leb_rank; auto with zarith).
  congruence.
Qed.

Lemma is_nan_false (x : number) : is_nan x = false <-> num x.
Proof.
  unfold is_nan. rewrite FloatAxioms.eqb_spec. unfold SFeqb. split.
  - destruct (SFcompare _ _) as [c|] eqn:E; [|discriminate].
    intros _. apply SFcompare_Some in E. tauto.
  - intros H. rewrite (SFcompare_rank x x H H), Z.compare_refl. reflexivity.
Qed.

Lemma is_nan_true (x : number) : is_nan x = true <-> x = nan.
Proof.
  split.
  - intros H. apply Prim2SF_inj. change (Prim2SF nan) with S754_nan.
    destruct (Prim2SF x) eqn:E; try reflexivity;
      (assert (N : num x) by (unfold num; congruence));
      apply is_nan_false in N; congruence.
  - intros ->. reflexivity.
Qed.

Lemma num_zero : num 0%float.
Proof. unfold num. vm_compute. discriminate. Qed.

Lemma rank_zero : rank 0%float = 0%Z.
Proof. reflexivity. Qed.

Lemma rank_infinity : rank infinity = beyond.
Proof. reflexivity. Qed.

(** Between two finite numbers the rank is the exact value, in units. *)
Lemma rank_units (x : number) :
  (- beyond < rank x < beyond)%Z -> rank x = units x.
Proof.
  unfold rank. destruct (Prim2SF x) as [s|s| |s m e]; try reflexivity.
  destruct s; cbn [cond_Zopp]; lia.
Qed.

(** [Math.max] *)
Lemma max_rank (a b : number) :
  num a -> num b ->
  num (JS.max a b) /\ rank (JS.max a b) = Z.max (rank a) (rank b)
  /\ (JS.max a b = a \/ JS.max a b = b).
Proof.
  intros Ha Hb. unfold JS.max.
  rewrite (proj2 (is_nan_false a) Ha), (proj2 (is_nan_false b) Hb). cbn [orb].
  destruct (a <? b)%float eqn:E1.
  - apply ltb_rank in E1 as (_ & _ & H). split; [assumption|]. split; [lia | auto].
  - apply ltb_false in E1; auto.
    destruct (b <? a)%float eqn:E2.
    + apply ltb_rank in E2 as (_ & _ & H). split; [assumption|]. split; [lia | auto].
    + apply ltb_false in E2; auto.
      destruct (get_sign a); (split; [assumption|]); (split; [lia | auto]).
Qed.

Lemma max_nan (a b : number) : ~ num a \/ ~ num b -> JS.max a b = nan.
Proof.
  intros H. unfold JS.max.
  destruct (is_nan a) eqn:Ea; [reflexivity|].
  destruct (is_nan b) eqn:Eb; [reflexivity|].
  apply is_nan_false in Ea, Eb. tauto.
Qed.

(** ** Subtraction *)

Lemma shl_align_value mx ex ez :
  (ez <= ex)%Z -> (-1074 <= ez)%Z ->
  (Z.pos (fst (shl_align mx ex ez)) * 2 ^ (ez + 1074) = Z.pos mx * 2 ^ (ex + 1074))%Z.
Proof.
  intros Hle Hez. unfold shl_align.
  destruct (ez - ex)%Z as [|d|d] eqn:E; try lia.
  - assert (ez = ex) by lia. subst. reflexivity.
  - cbn [fst]. change (Pos.iter xO mx d) with (shift_pos d mx).
    rewrite shift_pos_correct, Z.pow_pos_fold.
    replace (ex + 1074)%Z with (Z.pos d + (ez + 1074))%Z by lia.
    rewrite (Z.pow_add_r 2 (Z.pos d) (ez + 1074)) by lia. ring.
Qed.

Lemma rank_positive (x : number) : (0 < rank x)%Z -> positive_float (Prim2SF x).
Proof.
  unfold rank, units. pose proof (Prim2SF_valid x) as V.
  destruct (Prim2SF x) as [s|s| |s m e]; cbn [cond_Zopp]; try lia.
  - destruct s; cbn; [unfold beyond|]; lia.
  - apply bounded_bounds in V as (He & Hm & _).
    pose proof (finite_lt_beyond m e He Hm). destruct s; cbn; lia.
Qed.

Lemma binary_round_aux_sign sx m e l :
  positive_float (binary_round_aux prec emax sx m e l) -> sx = false.
Proof.
  unfold binary_round_aux.
  destruct (shr_fexp _ _ m e l) as [mrs' e'].
  destruct (shr_fexp _ _ _ e' loc_Exact) as [mrs'' e''].
  destruct (shr_m mrs'') as [|p|p].
  - cbn. tauto.
  - destruct (_ <=? _)%Z; destruct sx; cbn; tauto.
  - cbn. tauto.
Qed.

Lemma binary_normalize_sign z e :
  positive_float (binary_normalize prec emax z e false) -> (0 < z)%Z.
Proof.
  destruct z as [|p|p]; cbn [binary_normalize]; [cbn; tauto | lia |].
  unfold binary_round. destruct (shl_align _ _ _) as [mz ez].
  intros H. apply binary_round_aux_sign in H. discriminate.
Qed.

(** A difference that is positive in the number arithmetic is the
    difference of a larger and a smaller number. *)
Lemma sub_positive (x y : number) :
  (0 < rank (x - y)%float)%Z -> num x /\ num y /\ (rank y < rank x)%Z.
Proof.
  intros H. apply rank_positive in H. rewrite sub_spec in H. revert H.
  unfold num, rank, units.
  pose proof (Prim2SF_valid x) as Vx. pose proof (Prim2SF_valid y) as Vy.
  destruct (Prim2SF x) as [sx|sx| |sx mx ex];
    destruct (Prim2SF y) as [sy|sy| |sy my ey];
    cbn [SF64sub SFsub positive_float valid_binary] in *; try tauto.
  9: {
    intros H. apply binary_normalize_sign in H.
    repeat split; try discriminate.
    pose proof (bounded_bounds _ _ Vx) as (Hex & _).
    pose proof (bounded_bounds _ _ Vy) as (Hey & _).
    pose proof (shl_align_value mx ex (Z.min ex ey)) as Ex.
    pose proof (shl_align_value my ey (Z.min ex ey)) as Ey.
    assert (Hp : (0 < 2 ^ (Z.min ex ey + 1074))%Z) by (apply Z.pow_pos_nonneg; lia).
    rewrite <- Ex, <- Ey by lia.
    set (P := (2 ^ (Z.min ex ey + 1074))%Z) in *.
    set (a := Z.pos (fst (shl_align mx ex (Z.min ex ey)))) in *.
    set (b := Z.pos (fst (shl_align my ey (Z.min ex ey)))) in *.
    assert (Ha : (0 < a)%Z) by (unfold a; lia).
    assert (Hb : (0 < b)%Z) by (unfold b; lia).
    destruct sx, sy; cbn [cond_Zopp] in *; nia. }
  all: try (apply bounded_bounds in Vx as (Hex & Hmx & _);
            pose proof (finite_lt_beyond mx ex Hex Hmx)).
  all: try (apply bounded_bounds in Vy as (Hey & Hmy & _);
            pose proof (finite_lt_beyond my ey Hey Hmy)).
  all: try destruct sx; try destruct sy; cbn; try tauto; intros _;
    repeat split; try discriminate; unfold beyond in *; lia.
Qed.

Lemma sub_self (x : number) : num (x - x)%float -> rank (x - x)%float = 0%Z.
Proof.
  unfold num, rank, units. rewrite sub_spec.
  destruct (Prim2SF x) as [s|s| |s m e]; cbn [SF64sub SFsub].
  - destruct s; reflexivity.
  - destruct s; cbn; congruence.
  - congruence.
  - rewrite Z.sub_diag. reflexivity.
Qed.

Lemma sub_zero_r (x : number) : (x - 0)%float = x.
Proof.
  apply Prim2SF_inj. rewrite sub_spec. change (Prim2SF 0) with (S754_zero false).
  destruct (Prim2SF x) as [s|s| |s m e]; cbn; try reflexivity.
  destruct s; reflexivity.
Qed.

Lemma lt_rank (x y : number) : (x < y)%float <-> num x /\ num y /\ (rank x < rank y)%Z.
Proof. apply ltb_rank. Qed.

Lemma le_rank (x y : number) : (x <= y)%float <-> num x /\ num y /\ (rank x <= rank y)%Z.
Proof. apply leb_rank. Qed.

(** [a - b >= m] with [m > 0]: then [b < a]. *)
Lemma geb_sub_positive (a b m : number) :
  (0 < m)%float -> (a - b >=? m)%float = true ->
  num a /\ num b /\ (rank b < rank a)%Z.
Proof.
  intros Hm H. apply lt_rank in Hm as (_ & _ & Hm). rewrite rank_zero in Hm.
  apply leb_rank in H as (_ & _ & H). apply sub_positive. lia.
Qed.

Lemma finite_rank (x : number) :
  finite x <-> num x /\ (- beyond < rank x < beyond)%Z.
Proof.
  unfold finite. rewrite !lt_rank.
  change (rank neg_infinity) with (- beyond)%Z. change (rank infinity) with beyond.
  intuition (try lia; try (unfold num; vm_compute; discriminate)).
Qed.

Lemma of_units_le (a b : Z) : (a <= b)%Z -> (of_units a <= of_units b)%Q.
Proof.
  intros H. unfold of_units, Qdiv. apply Qmult_le_compat_r.
  - rewrite <- Zle_Qle. exact H.
  - apply Qinv_le_0_compat. change 0%Q with (inject_Z 0). rewrite <- Zle_Qle.
    apply Z.pow_nonneg. lia.
Qed.

Lemma of_units_zero : (of_units 0 == 0)%Q.
Proof. unfold of_units, Qdiv. ring. Qed.

Lemma of_units_sub (a b : Z) : (of_units (a - b) == of_units a - of_units b)%Q.
Proof.
  unfold of_units, Qdiv, Z.sub. rewrite inject_Z_plus, inject_Z_opp. ring.
Qed.

(** ** The segment planner *)

Lemma laid_out_start : laid_out 0 [] (rank 0%float).
Proof. cbn [laid_out]. rewrite rank_zero. lia. Qed.

Lemma laid_out_bounds lo ks hi : laid_out lo ks hi -> (lo <= hi)%Z.
Proof.
  revert lo. induction ks as [|k r IH]; simpl; intros lo H; [exact H|].
  destruct H as (_ & _ & Hlo & Hab & Hr). apply IH in Hr. lia.
Qed.

Lemma laid_out_weaken lo ks hi hi' :
  laid_out lo ks hi -> (hi <= hi')%Z -> laid_out lo ks hi'.
Proof.
  revert lo. induction ks as [|k r IH]; simpl; intros lo H Hle; [lia|].
  destruct H as (Ha & Hb & Hlo & Hab & Hr). eauto 10.
Qed.

Lemma laid_out_push lo ks c (a b : number) :
  laid_out lo ks c -> num a -> num b -> (c <= rank a)%Z -> (rank a < rank b)%Z ->
  laid_out lo (ks ++ [Span.mk a b]) (rank b).
Proof.
  revert lo. induction ks as [|k r IH]; simpl; intros lo H Ha Hb Hca Hab.
  - repeat split; auto; lia.
  - destruct H as (Ha' & Hb' & Hlo & Hab' & Hr). repeat split; auto.
Qed.

Lemma laid_out_adjacent lo ks hi :
  laid_out lo ks hi -> ordered_by_start ks /\ non_overlapping ks.
Proof.
  unfold ordered_by_start, non_overlapping.
  revert lo. induction ks as [|k r IH]; simpl; intros lo H; [tauto|].
  destruct H as (Ha & Hb & Hlo & Hab & Hr).
  destruct (IH _ Hr) as [Ho Hn].
  destruct r as [|k' r']; [tauto|].
  destruct Hr as (Ha' & Hb' & Hlo' & _).
  split; (split; [|assumption]); [apply lt_rank | apply le_rank];
    repeat split; auto; lia.
Qed.

Lemma laid_out_within lo ks hi :
  laid_out lo ks hi ->
  Forall (fun k => num (Span.start k) /\ num (Span.end_ k)
                   /\ (lo <= rank (Span.start k))%Z
                   /\ (rank (Span.start k) < rank (Span.end_ k))%Z
                   /\ (rank (Span.end_ k) <= hi)%Z) ks.
Proof.
  revert lo. induction ks as [|k r IH]; intros lo H; [constructor|].
  destruct H as (Ha & Hb & Hlo & Hab & Hr).
  pose proof (laid_out_bounds _ _ _ Hr) as Hhi.
  constructor; [repeat split; auto|].
  eapply Forall_impl; [apply (IH _ Hr)|].
  intros k' (H1 & H2 & H3 & H4 & H5). repeat split; auto. lia.
Qed.

Lemma laid_out_finite lo ks hi :
  laid_out lo ks hi -> (- beyond < lo)%Z -> (hi < beyond)%Z -> Forall finite_span ks.
Proof.
  intros H Hlo Hhi. eapply Forall_impl; [apply (laid_out_within _ _ _ H)|].
  intros k (H1 & H2 & H3 & H4 & H5). split; apply finite_rank; split; auto; lia.
Qed.

Lemma laid_out_durations lo ks hi :
  laid_out lo ks hi -> (- beyond < lo)%Z -> (hi < beyond)%Z ->
  (durations ks <= of_units hi - of_units lo)%Q.
Proof.
  revert lo. induction ks as [|k r IH]; cbn [laid_out durations]; intros lo H Hlo Hhi.
  - pose proof (of_units_le _ _ H). lra.
  - destruct H as (Ha & Hb & Hla & Hab & Hr).
    pose proof (laid_out_bounds _ _ _ Hr) as Hbh.
    specialize (IH _ Hr ltac:(lia) Hhi).
    unfold exact. rewrite <- (rank_units (Span.start k)), <- (rank_units (Span.end_ k)) by lia.
    pose proof (of_units_le _ _ Hla) as Hq.
    set (qa := of_units (rank (Span.start k))) in *.
    set (qb := of_units (rank (Span.end_ k))) in *.
    set (ql := of_units lo) in *. set (qh := of_units hi) in *.
    set (d := durations r) in *. lra.
Qed.

(** Segments laid out between 0 and a finite [total] are well planned and
    lie inside the media. *)
Lemma laid_out_well_planned ks (total : number) :
  num total -> (rank total < beyond)%Z -> laid_out 0 ks (rank total) ->
  well_planned ks total /\ within_media total ks.
Proof.
  intros Hn Ht H. pose proof (laid_out_bounds _ _ _ H) as H0.
  assert (Hb : (0 < beyond)%Z) by reflexivity.
  destruct (laid_out_adjacent _ _ _ H) as [Ho Hno].
  split; [split; [assumption|]; split; [assumption|]; split|].
  - apply (laid_out_finite _ _ _ H); lia.
  - pose proof (laid_out_durations _ _ _ H ltac:(lia) Ht) as Hd.
    unfold exact. rewrite <- (rank_units total) by lia.
    rewrite of_units_zero in Hd. lra.
  - eapply Forall_impl; [apply (laid_out_within _ _ _ H)|].
    intros k (H1 & H2 & H3 & H4 & H5).
    split; [|split]; [apply le_rank | apply lt_rank | apply le_rank];
      repeat split; auto using num_zero.
Qed.

Section PlannerV2.

Variables t p r m : number.
Hypothesis Hm : (0 < m)%float.

Lemma v2_keep_step_laid_out ks c s :
  laid_out 0 ks (rank c) -> num c -> (rank c <= rank t)%Z -> fits t p r s ->
  let st := V2.keep_step t p r m (ks, c) s in
  laid_out 0 st.1 (rank st.2) /\ num st.2 /\ (rank st.2 <= rank t)%Z.
Proof.
  intros Hks Hc Hct [Hw He]. unfold V2.keep_step. cbn [fst snd].
  set (cutStart := (Silence.start s + p)%float) in *.
  set (cutEnd := (default t (Silence.end_ s) - r)%float) in *.
  apply le_rank in Hw as (Hns & Hne & Hw). apply le_rank in He as (_ & Hnt & He).
  destruct (max_rank c cutEnd Hc Hne) as (Hnm & Hmax & _).
  split; [|split; [assumption | lia]].
  destruct (cutStart - c >=? m)%float eqn:E.
  - destruct (geb_sub_positive _ _ _ Hm E) as (_ & _ & Hlt).
    apply laid_out_weaken with (rank cutStart); [|lia].
    apply laid_out_push with (rank c); auto; lia.
  - apply laid_out_weaken with (rank c); [assumption | lia].
Qed.

Lemma v2_keep_loop_laid_out ss ks c :
  laid_out 0 ks (rank c) -> num c -> (rank c <= rank t)%Z -> Forall (fits t p r) ss ->
  let st := fold_left (V2.keep_step t p r m) ss (ks, c) in
  laid_out 0 st.1 (rank st.2) /\ num st.2 /\ (rank st.2 <= rank t)%Z.
Proof.
  revert ks c. induction ss as [|s ss IH]; intros ks c Hks Hc Hct Hss.
  - cbn. auto.
  - inversion Hss as [|? ? Hs Hss']; subst.
    destruct (v2_keep_step_laid_out ks c s Hks Hc Hct Hs) as (H1 & H2 & H3).
    cbn [fold_left]. destruct (V2.keep_step t p r m (ks, c) s) as [ks1 c1].
    apply IH; assumption.
Qed.

End PlannerV2.

Lemma v2_plan_laid_out (a : V2.Args) :
  let post := default 0.5%float (V2.postSpeechBuffer a) in
  let pre := default 0.5%float (V2.preSpeechBuffer a) in
  let minKeep := default 0.2%float (V2.minKeep a) in
  (0 < minKeep)%float -> (0 <= V2.totalDuration a)%float ->
  Forall (fits (V2.totalDuration a) post pre) (V2.silences a) ->
  laid_out 0 (V2.buildKeepSegments a) (rank (V2.totalDuration a)).
Proof.
  intros post pre minKeep Hm Ht Hss. subst post pre minKeep.
  unfold V2.buildKeepSegments. apply le_rank in Ht as (_ & Hnt & Ht).
  rewrite rank_zero in Ht.
  match goal with |- context [fold_left ?f ?l ?s] => set (st := fold_left f l s) end.
  assert (H : laid_out 0 st.1 (rank st.2) /\ num st.2
              /\ (rank st.2 <= rank (V2.totalDuration a))%Z).
  { apply (v2_keep_loop_laid_out (V2.totalDuration a)
             (default 0.5%float (V2.postSpeechBuffer a))
             (default 0.5%float (V2.preSpeechBuffer a)) _ Hm
             (V2.silences a) [] 0%float); auto using num_zero, laid_out_start. }
  destruct H as (Hks & Hc & Hct).
  destruct st as [ks c]. cbn [fst snd] in *.
  destruct (_ >=? _)%float eqn:G.
  - destruct (geb_sub_positive _ _ _ Hm G) as (_ & _ & Hlt).
    apply laid_out_push with (rank c); auto; lia.
  - apply laid_out_weaken with (rank c); auto.
Qed.

Lemma v1_keep_step_laid_out (t : number) ks c s :
  laid_out 0 ks (rank c) -> num c -> (rank c <= rank t)%Z -> fits1 t s ->
  let st := V1.keep_step (ks, c) s in
  laid_out 0 st.1 (rank st.2) /\ num st.2 /\ (rank st.2 <= rank t)%Z.
Proof.
  intros Hks Hc Hct [Hw He]. unfold V1.keep_step.
  set (keepEnd := (Span.start s + V1.KEEP_BEFORE)%float) in *.
  set (nextStart := (Span.end_ s - V1.KEEP_AFTER)%float) in *.
  apply le_rank in Hw as (Hns & Hne & Hw). apply le_rank in He as (_ & Hnt & He).
  destruct (keepEnd >? c)%float eqn:E; cbn [fst snd]; [|auto].
  apply ltb_rank in E as (_ & _ & E).
  split; [|auto].
  apply laid_out_weaken with (rank keepEnd); [|lia].
  apply laid_out_push with (rank c); auto; lia.
Qed.

Lemma v1_plan_laid_out (silences : list Span.t) (t : number) :
  (0 <= t)%float -> Forall (fits1 t) silences ->
  laid_out 0 (V1.buildKeepSegments silences t) (rank t).
Proof.
  intros Ht Hss. unfold V1.buildKeepSegments.
  apply le_rank in Ht as (_ & Hnt & Ht). rewrite rank_zero in Ht.
  assert (H : forall ks c, laid_out 0 ks (rank c) -> num c -> (rank c <= rank t)%Z ->
            let st := fold_left V1.keep_step silences (ks, c) in
            laid_out 0 st.1 (rank st.2) /\ num st.2 /\ (rank st.2 <= rank t)%Z).
  { induction Hss as [|s ss Hs Hss IH]; intros ks c Hks Hc Hct; [cbn; auto|].
    destruct (v1_keep_step_laid_out t ks c s Hks Hc Hct Hs) as (H1 & H2 & H3).
    cbn [fold_left]. destruct (V1.keep_step (ks, c) s) as [ks1 c1]. apply IH; assumption. }
  match goal with |- context [fold_left ?f ?l ?s] => set (st := fold_left f l s) end.
  assert (H' : laid_out 0 st.1 (rank st.2) /\ num st.2 /\ (rank st.2 <= rank t)%Z).
  { apply (H [] 0%float); auto using num_zero, laid_out_start. }
  destruct H' as (Hks & Hc & Hct).
  destruct st as [ks c]. cbn [fst snd] in *.
  destruct (_ <? _)%float eqn:G.
  - apply ltb_rank in G as (_ & _ & G). apply laid_out_push with (rank c); auto; lia.
  - apply laid_out_weaken with (rank c); auto.
Qed.

(** C1, as stated, fails: a silence narrower than the two buffers makes
    [server (2).js] plan the segments [{0, 3.5}] and [{3, 10}], which
    overlap and last 10.5 seconds in a file of 10. *)
Lemma C1_narrow_silence_overlaps :
  V2.buildKeepSegments (plan [Silence.mk 3 (Some 3.5%float)] 10)
  = [Span.mk 0 3.5; Span.mk 3 10]
  /\ ~ well_planned (V2.buildKeepSegments (plan [Silence.mk 3 (Some 3.5%float)] 10)) 10.
Proof.
  split; [vm_compute; reflexivity|].
  intros (_ & [H _] & _). vm_compute in H. discriminate H.
Qed.

(** C1 (amended): when the cut that the planner computes for each silence
    is not inverted and ends inside the media ([start + postSpeechBuffer <=
    (end ?? totalDuration) - preSpeechBuffer <= totalDuration], in the
    arithmetic of the language), [minKeep] is positive and the total
    duration is finite and not negative, the segments planned by
    [server (2).js] are strictly ordered by start, do not overlap, and
    their lengths, added without rounding, make the total duration at most;
    the same holds for [server.js] with its buffers of 0.3. *)
Theorem C1_keep_segments_well_planned :
  (forall a : V2.Args,
      let post := default 0.5%float (V2.postSpeechBuffer a) in
      let pre := default 0.5%float (V2.preSpeechBuffer a) in
      let minKeep := default 0.2%float (V2.minKeep a) in
      (0 < minKeep)%float ->
      (0 <= V2.totalDuration a)%float -> (V2.totalDuration a < infinity)%float ->
      Forall (fits (V2.totalDuration a) post pre) (V2.silences a) ->
      well_planned (V2.buildKeepSegments a) (V2.totalDuration a))
  /\ (forall (silences : list Span.t) (duration : number),
      (0 <= duration)%float -> (duration < infinity)%float ->
      Forall (fits1 duration) silences ->
      well_planned (V1.buildKeepSegments silences duration) duration).
Proof.
  split.
  - intros a post pre minKeep Hm Ht Hfin Hss.
    apply lt_rank in Hfin as (Hn & _ & Hfin).
    apply laid_out_well_planned; auto. apply v2_plan_laid_out; assumption.
  - intros silences duration Ht Hfin Hss.
    apply lt_rank in Hfin as (Hn & _ & Hfin).
    apply laid_out_well_planned; auto. apply v1_plan_laid_out; assumption.
Qed.

Lemma C1_keep_segments_well_planned_witness :
  well_planned (V2.buildKeepSegments (plan [Silence.mk 3 (Some 5%float)] 10)) 10
  /\ well_planned (V1.buildKeepSegments [Span.mk 3 5] 10) 10.
Proof.
  split.
  - apply (proj1 C1_keep_segments_well_planned (plan [Silence.mk 3 (Some 5%float)] 10));
      try reflexivity.
    repeat constructor.
  - apply (proj2 C1_keep_segments_well_planned); try reflexivity.
    repeat constructor.
Defined.

(** C2: the example of the specification, on [server (2).js]. *)
Theorem C2_example_plan :
  V2.buildKeepSegments
    {| V2.silences := [Silence.mk 3 (Some 5%float)];
       V2.totalDuration := 10;
       V2.postSpeechBuffer := Some 0.5%float;
       V2.preSpeechBuffer := Some 0.5%float;
       V2.minKeep := Some 0.2%float |}
  = [Span.mk 0 3.5; Span.mk 4.5 10].
Proof. vm_compute. reflexivity. Qed.

(** C3, as stated, fails: without silences both planners keep the whole
    file, and around a silence that spans the file they keep the two
    buffers. *)
Lemma C3_whole_file_kept :
  V2.buildKeepSegments (plan [] 10) = [Span.mk 0 10]
  /\ V1.buildKeepSegments [] 10 = [Span.mk 0 10]
  /\ V2.buildKeepSegments (plan [Silence.mk 0 (Some 10%float)] 10)
     = [Span.mk 0 0.5; Span.mk 9.5 10]
  /\ V1.buildKeepSegments [Span.mk 0 10] 10 = [Span.mk 0 0.3; Span.mk 9.7 10].
Proof. repeat split; vm_compute; reflexivity. Qed.

Lemma not_geb_zero (m : number) : (0 < m)%float -> (0 >=? m)%float = false.
Proof.
  intros H. apply lt_rank in H as (_ & _ & H).
  destruct (0 >=? m)%float eqn:E; [|reflexivity].
  apply leb_rank in E as (_ & _ & E). lia.
Qed.

(** Nothing of positive length is left after [max(0, total)]. *)
Lemma no_tail_after_max (total m : number) :
  (0 < m)%float -> (total - JS.max 0 total >=? m)%float = false.
Proof.
  intros Hm. destruct (_ >=? _)%float eqn:E; [|reflexivity]. exfalso.
  destruct (geb_sub_positive _ _ _ Hm E) as (Ht & Hx & Hlt).
  destruct (max_rank 0%float total num_zero Ht) as (_ & Hmax & _). lia.
Qed.

(** C3 (amended): without silences the planner of [server (2).js] returns
    the single segment [{0, totalDuration}] when [totalDuration >= minKeep]
    and nothing otherwise, the planner of [server.js] returns it when
    [0 < duration]; around one silence that spans the file the planner of
    [server (2).js] returns nothing when both buffers are 0 and [minKeep]
    is positive; with the default buffers its result is never empty: it
    is the first buffer [{0, 0.5}], followed by [{c, totalDuration}] for
    [c = max(0, totalDuration - 0.5)] when [totalDuration - c >= 0.2]; the
    planner of [server.js] returns [{0, 0.3}], followed by
    [{duration - 0.3, duration}] when [duration - 0.3 < duration]. *)
Theorem C3_planner_boundaries :
  (forall total post pre minKeep,
      V2.buildKeepSegments
        {| V2.silences := []; V2.totalDuration := total;
           V2.postSpeechBuffer := post; V2.preSpeechBuffer := pre;
           V2.minKeep := minKeep |}
      = if (total >=? default 0.2 minKeep)%float then [Span.mk 0 total] else [])
  /\ (forall duration,
      V1.buildKeepSegments [] duration
      = if (0 <? duration)%float then [Span.mk 0 duration] else [])
  /\ (forall total m, (0 < m)%float ->
      V2.buildKeepSegments
        {| V2.silences := [Silence.mk 0 (Some total)];
           V2.totalDuration := total;
           V2.postSpeechBuffer := Some 0%float; V2.preSpeechBuffer := Some 0%float;
           V2.minKeep := Some m |}
      = [])
  /\ (forall t,
      V2.buildKeepSegments (plan [Silence.mk 0 (Some t)] t)
      = Span.mk 0 0.5
        :: (if (t - JS.max 0 (t - 0.5) >=? 0.2)%float
            then [Span.mk (JS.max 0 (t - 0.5)) t] else []))
  /\ (forall d,
      V1.buildKeepSegments [Span.mk 0 d] d
      = Span.mk 0 0.3
        :: (if (d - 0.3 <? d)%float then [Span.mk (d - 0.3) d] else [])).
Proof.
  split; [|split; [|split; [|split]]].
  - intros total post pre minKeep. unfold V2.buildKeepSegments. cbn.
    rewrite sub_zero_r. reflexivity.
  - reflexivity.
  - intros total m Hm. unfold V2.buildKeepSegments, V2.keep_step. cbn.
    rewrite sub_zero_r, (not_geb_zero m Hm), (no_tail_after_max total m Hm).
    reflexivity.
  - intros t. unfold V2.buildKeepSegments, V2.keep_step. cbn.
    destruct (_ <=? _)%float; reflexivity.
  - intros d. unfold V1.buildKeepSegments, V1.keep_step. cbn.
    destruct (_ <? _)%float; reflexivity.
Qed.

Lemma C3_planner_boundaries_witness :
  V2.buildKeepSegments
    {| V2.silences := [Silence.mk 0 (Some 10%float)];
       V2.totalDuration := 10;
       V2.postSpeechBuffer := Some 0%float; V2.preSpeechBuffer := Some 0%float;
       V2.minKeep := Some 0.2%float |}
  = [].
Proof.
  destruct C3_planner_boundaries as (_ & _ & Hzero & _).
  apply (Hzero 10%float 0.2%float). reflexivity.
Defined.

(** ** Strings *)

Lemma append_assoc (a b c : string) : (a +:+ b) +:+ c = a +:+ (b +:+ c).
Proof.
  induction a as [|x a IH]; [reflexivity|].
  change (String x ((a +:+ b) +:+ c) = String x (a +:+ (b +:+ c))).
  f_equal. exact IH.
Qed.

Lemma append_nil_r (a : string) : a +:+ "" = a.
Proof.
  induction a as [|x a IH]; [reflexivity|].
  change (String x (a +:+ "") = String x a). f_equal. exact IH.
Qed.

Lemma concat_empty_cons (x : string) (l : list string) :
  String.concat "" (x :: l) = x +:+ String.concat "" l.
Proof. destruct l; cbn; [now rewrite append_nil_r | reflexivity]. Qed.








(** ** Lines *)











(** ** The silence detectors *)

Lemma v1_detect_step_unmarked st line :
  marked line = false -> V1.detect_step st line = st.
Proof.
  unfold marked. intros H. apply orb_false_iff in H as [Hs He].
  destruct st. unfold V1.detect_step. now rewrite Hs, He.
Qed.

Lemma v2_detect_step_unmarked st line :
  marked line = false -> V2.detect_step st line = st.
Proof.
  unfold marked. intros H. apply orb_false_iff in H as [Hs He].
  destruct st. unfold V2.detect_step. now rewrite Hs, He.
Qed.

Lemma v1_detect_marked (lines : list string) st :
  fold_left V1.detect_step (List.filter marked lines) st
  = fold_left V1.detect_step lines st.
Proof.
  revert st. induction lines as [|l ls IH]; intros st; [reflexivity|].
  cbn [List.filter fold_left]. destruct (marked l) eqn:E.
  - cbn [fold_left]. apply IH.
  - rewrite (v1_detect_step_unmarked st l E). apply IH.
Qed.

Lemma v2_detect_marked (lines : list string) st :
  fold_left V2.detect_step (List.filter marked lines) st
  = fold_left V2.detect_step lines st.
Proof.
  revert st. induction lines as [|l ls IH]; intros st; [reflexivity|].
  cbn [List.filter fold_left]. destruct (marked l) eqn:E.
  - cbn [fold_left]. apply IH.
  - rewrite (v2_detect_step_unmarked st l E). apply IH.
Qed.









(** ** The filter graphs *)

Lemma concat_empty_app (l1 l2 : list string) :
  String.concat "" (l1 ++ l2) = String.concat "" l1 +:+ String.concat "" l2.
Proof.
  induction l1 as [|x l1 IH]; [reflexivity|].
  rewrite <- app_comm_cons, !concat_empty_cons, IH. symmetry. apply append_assoc.
Qed.

Lemma concat_sep_app (sep : string) (xs : list string) (y : string) (ys : list string) :
  String.concat sep (xs ++ y :: ys)
  = String.concat "" (map (fun x => x +:+ sep) xs) +:+ String.concat sep (y :: ys).
Proof.
  induction xs as [|x xs IH]; [reflexivity|].
  cbn [map]. rewrite concat_empty_cons, append_assoc, <- IH, append_assoc.
  destruct xs; reflexivity.
Qed.

Lemma concat_empty_seq {A} (f : nat -> string) (l : list A) :
  String.concat "" (imap (fun i _ => f i) l)
  = String.concat "" (map f (seq 0 (length l))).
Proof. now rewrite imap_seq_0. Qed.

Lemma v1_segment_rendered toString n i s :
  V1.segment_filters toString n i s
  = map (render_chain toString)
        [V1.segment_chain n i Video s; V1.segment_chain n i Audio s].
Proof.
  unfold V1.segment_filters, V1.segment_chain, V1.fades, render_chain.
  destruct (0 <? i)%nat, (i <? n - 1)%nat; cbn; rewrite ?append_assoc;
    reflexivity.
Qed.

Lemma pairs_rendered (l : list nat) :
  String.concat "" (map (fun i => "[v" +:+ pretty i +:+ "][a" +:+ pretty i +:+ "]") l)
  = String.concat ""
      (map render_pad (flat_map (fun i => [Piece Video i; Piece Audio i]) l)).
Proof.
  induction l as [|i l IH]; [reflexivity|].
  cbn [map flat_map app]. rewrite !concat_empty_cons, IH.
  cbn. rewrite ?append_assoc. reflexivity.
Qed.

Lemma v1_graph_rendered toString (segs : list Span.t) :
  V1.buildFilterGraph toString segs = render toString (V1.filter_graph segs).
Proof.
  unfold V1.buildFilterGraph, V1.filter_graph, render.
  rewrite map_app. f_equal. f_equal.
  - rewrite List.concat_map. f_equal.
    change (map (map (render_chain toString)))
      with (fmap (M:=list) (map (render_chain toString))).
    rewrite fmap_imap. apply imap_ext. intros i s _. apply v1_segment_rendered.
  - cbn [map]. f_equal. unfold render_chain. cbn [inputs filters outputs].
    rewrite concat_empty_seq, pairs_rendered. unfold pairs.
    cbn. rewrite ?append_assoc. reflexivity.
Qed.

Lemma v2_chains_rendered toString (segs : list Span.t) :
  String.concat "" (imap (fun i s =>
      "[0:v]trim=start=" +:+ toString (Span.start s) +:+ ":end="
      +:+ toString (Span.end_ s) +:+ ",setpts=PTS-STARTPTS[v" +:+ pretty i +:+ "];")
      segs)
  = String.concat "" (map (fun x => x +:+ ";")
      (map (render_chain toString) (imap (fun i s => V2.segment_chain i Video s) segs)))
  /\ String.concat "" (imap (fun i s =>
      "[0:a]atrim=start=" +:+ toString (Span.start s) +:+ ":end="
      +:+ toString (Span.end_ s) +:+ ",asetpts=PTS-STARTPTS[a" +:+ pretty i +:+ "];")
      segs)
  = String.concat "" (map (fun x => x +:+ ";")
      (map (render_chain toString) (imap (fun i s => V2.segment_chain i Audio s) segs))).
Proof.
  split; f_equal; rewrite map_map;
    change (map ?f (imap ?g ?l)) with (fmap (M:=list) f (imap g l));
    rewrite fmap_imap; apply imap_ext; intros i s _;
    unfold render_chain; cbn; rewrite ?append_assoc; reflexivity.
Qed.

Lemma v2_pads_rendered {A} (l : list A) :
  String.concat "" (imap (fun i _ => "[v" +:+ pretty i +:+ "]") l)
  = String.concat "" (map render_pad (map (Piece Video) (seq 0 (length l))))
  /\ String.concat "" (imap (fun i _ => "[a" +:+ pretty i +:+ "]") l)
  = String.concat "" (map render_pad (map (Piece Audio) (seq 0 (length l)))).
Proof. split; rewrite concat_empty_seq, map_map; reflexivity. Qed.

Lemma v2_graph_rendered toString (segs : list Span.t) :
  V2.buildConcatFilter toString segs = render toString (V2.concat_graph segs).
Proof.
  unfold V2.buildConcatFilter, V2.concat_graph, render.
  destruct (v2_chains_rendered toString segs) as [-> ->].
  destruct (v2_pads_rendered segs) as [-> ->].
  rewrite !map_app, app_assoc. cbn [map].
  rewrite concat_sep_app, map_app, concat_empty_app.
  unfold render_chain. cbn. rewrite ?append_assoc. reflexivity.
Qed.

Lemma flat_map_concat_imap {A B C} (h : B -> list C) (k : A -> list C)
    (g : nat -> A -> list B) (l : list A) :
  (forall i s, flat_map h (g i s) = k s) ->
  flat_map h (concat (imap g l)) = flat_map k l.
Proof.
  revert g. induction l as [|x l IH]; intros g Hg; [reflexivity|].
  rewrite imap_cons. cbn [concat flat_map]. rewrite flat_map_app, Hg. f_equal.
  apply IH. intros i s. apply Hg.
Qed.

Lemma flat_map_imap {A B C} (h : B -> list C) (k : A -> list C)
    (g : nat -> A -> B) (l : list A) :
  (forall i s, h (g i s) = k s) -> flat_map h (imap g l) = flat_map k l.
Proof.
  revert g. induction l as [|x l IH]; intros g Hg; [reflexivity|].
  rewrite imap_cons. cbn [flat_map]. rewrite Hg. f_equal.
  apply IH. intros i s. apply Hg.
Qed.

Lemma flat_map_single {A B} (f : A -> B) (l : list A) :
  flat_map (fun x => [f x]) l = map f l.
Proof. induction l as [|x l IH]; [reflexivity|]. cbn. now rewrite IH. Qed.

Lemma flat_map_none {A B} (l : list A) : flat_map (fun _ => @nil B) l = [].
Proof. induction l; auto. Qed.

Lemma Forall_concat_imap {A B} (Q : B -> Prop) (g : nat -> A -> list B) (l : list A) :
  (forall i s, l !! i = Some s -> Forall Q (g i s)) -> Forall Q (concat (imap g l)).
Proof.
  revert g. induction l as [|x l IH]; intros g Hg; [constructor|].
  rewrite imap_cons. cbn [concat]. apply Forall_app. split.
  - apply (Hg 0%nat). reflexivity.
  - apply IH. intros i s Hi. apply (Hg (S i)). exact Hi.
Qed.

Lemma Forall_imap {A B} (Q : B -> Prop) (g : nat -> A -> B) (l : list A) :
  (forall i s, l !! i = Some s -> Q (g i s)) -> Forall Q (imap g l).
Proof.
  revert g. induction l as [|x l IH]; intros g Hg; [constructor|].
  rewrite imap_cons. constructor.
  - apply (Hg 0%nat). reflexivity.
  - apply IH. intros i s Hi. apply (Hg (S i)). exact Hi.
Qed.

Lemma filter_none {A} (P : A -> bool) (l : list A) :
  Forall (fun x => P x = false) l -> List.filter P l = [].
Proof. induction 1 as [|x l Hx _ IH]; [reflexivity|]. cbn. now rewrite Hx. Qed.

Lemma v1_trims (st : stream) (segs : list Span.t) :
  trims st (V1.filter_graph segs) = map bounds segs.
Proof.
  unfold trims, V1.filter_graph. rewrite flat_map_app. cbn [flat_map].
  rewrite app_nil_r, <- flat_map_single.
  apply flat_map_concat_imap. intros i s.
  unfold V1.segment_chain, V1.fades.
  destruct st, (0 <? i)%nat, (i <? length segs - 1)%nat; reflexivity.
Qed.

Lemma v1_concat_ops (segs : list Span.t) :
  concat_ops (V1.filter_graph segs)
  = [Chain (pairs (length segs)) [Concat (length segs) 1 1]
           [Named "outv"; Named "outa"]].
Proof.
  unfold concat_ops, V1.filter_graph. rewrite List.filter_app.
  rewrite filter_none; [reflexivity|].
  apply Forall_concat_imap. intros i s _.
  unfold V1.segment_chain, V1.fades.
  destruct (0 <? i)%nat, (i <? length segs - 1)%nat; repeat constructor.
Qed.

Lemma v1_fades (segs : list Span.t) (c : chain) (st : stream) (i : nat) :
  c ∈ V1.filter_graph segs -> Piece st i ∈ outputs c ->
  has_fade_in c = (0 <? i)%nat /\ has_fade_out c = (i <? length segs - 1)%nat.
Proof.
  unfold V1.filter_graph. intros Hc Hp.
  apply elem_of_app in Hc as [Hc|Hc].
  - revert Hp. revert c Hc.
    apply (proj1 (Forall_forall (fun c => Piece st i ∈ outputs c ->
             has_fade_in c = (0 <? i)%nat
             /\ has_fade_out c = (i <? length segs - 1)%nat) _)).
    apply Forall_concat_imap. intros j s _.
    assert (H : forall st', forall p, p = V1.segment_chain (length segs) j st' s ->
              Piece st i ∈ outputs p ->
              has_fade_in p = (0 <? i)%nat
              /\ has_fade_out p = (i <? length segs - 1)%nat).
    { intros st' p -> Hp. cbn in Hp. apply list_elem_of_singleton in Hp.
      injection Hp as _ ->.
      unfold has_fade_in, has_fade_out, V1.segment_chain, V1.fades.
      cbn [filters].
      destruct (0 <? j)%nat, (j <? length segs - 1)%nat; split; reflexivity. }
    constructor; [|constructor; [|constructor]]; intros Hp; eapply H; eauto.
  - apply list_elem_of_singleton in Hc as ->. cbn in Hp.
    repeat (apply elem_of_cons in Hp as [Hp|Hp]; [discriminate|]).
    inversion Hp.
Qed.

Lemma v2_trims (st : stream) (segs : list Span.t) :
  trims st (V2.concat_graph segs) = map bounds segs.
Proof.
  unfold trims, V2.concat_graph. rewrite !flat_map_app. cbn [flat_map].
  rewrite !app_nil_r. destruct st.
  - rewrite (flat_map_imap _ (fun s => [bounds s])) by reflexivity.
    rewrite (flat_map_imap _ (fun _ => [])) by reflexivity.
    now rewrite flat_map_none, app_nil_r, flat_map_single.
  - rewrite (flat_map_imap _ (fun _ => [])) by reflexivity.
    rewrite (flat_map_imap _ (fun s => [bounds s])) by reflexivity.
    now rewrite flat_map_none, flat_map_single.
Qed.

Lemma v2_concat_ops (segs : list Span.t) :
  concat_ops (V2.concat_graph segs)
  = [Chain (map (Piece Video) (seq 0 (length segs))) [Concat (length segs) 1 0]
           [Named "v"];
     Chain (map (Piece Audio) (seq 0 (length segs))) [Concat (length segs) 0 1]
           [Named "a"]].
Proof.
  unfold concat_ops, V2.concat_graph. rewrite !List.filter_app.
  rewrite (filter_none _ (imap _ segs)) by (apply Forall_imap; reflexivity).
  rewrite (filter_none _ (imap _ segs)) by (apply Forall_imap; reflexivity).
  reflexivity.
Qed.

Lemma v2_no_fades (segs : list Span.t) (c : chain) :
  c ∈ V2.concat_graph segs -> has_fade_in c = false /\ has_fade_out c = false.
Proof.
  revert c.
  apply (proj1 (Forall_forall
                  (fun c => has_fade_in c = false /\ has_fade_out c = false) _)).
  unfold V2.concat_graph.
  repeat (apply Forall_app; split); try (apply Forall_imap; intros; split; reflexivity).
  repeat constructor.
Qed.

(** C5, as stated, fails on [server (2).js]: its graph has two concat
    operations, one for the video pieces and one for the audio pieces. *)
Lemma C5_two_concat_operations :
  V2.buildConcatFilter decimal [Span.mk 0 3.5]
  = "[0:v]trim=start=0:end=3.5,setpts=PTS-STARTPTS[v0];[0:a]atrim=start=0:end=3.5,asetpts=PTS-STARTPTS[a0];[v0]concat=n=1:v=1:a=0[v];[a0]concat=n=1:v=0:a=1[a]"
  /\ ~ one_concat_graph [Span.mk 0 3.5]
         (V2.concat_graph [Span.mk 0 3.5]).
Proof.
  split; [vm_compute; reflexivity|].
  intros (_ & _ & (c & H & _) & _). vm_compute in H. discriminate H.
Qed.

(** C5 (amended): for [n] segments the graph written by [buildFilterGraph]
    of [server.js] has [n] video and [n] audio trim operations in the order
    of the segments and one concat operation over the [n] pairs in that
    order; segment [i] fades in when [0 < i] and fades out when
    [i < n - 1], so that the first segment has no fade-in and the last no
    fade-out.  The graph written by [buildConcatFilter] of
    [server (2).js] has the same trim operations, two concat operations
    (the video pieces, then the audio pieces, each in order) and no fade. *)
Theorem C5_filter_graphs (toString : number -> string) (segs : list Span.t) :
  (V1.buildFilterGraph toString segs = render toString (V1.filter_graph segs)
   /\ one_concat_graph segs (V1.filter_graph segs)
   /\ (forall c st i, c ∈ V1.filter_graph segs -> Piece st i ∈ outputs c ->
       has_fade_in c = (0 <? i)%nat
       /\ has_fade_out c = (i <? length segs - 1)%nat))
  /\ (V2.buildConcatFilter toString segs = render toString (V2.concat_graph segs)
      /\ trims Video (V2.concat_graph segs) = map bounds segs
      /\ trims Audio (V2.concat_graph segs) = map bounds segs
      /\ concat_ops (V2.concat_graph segs)
         = [Chain (map (Piece Video) (seq 0 (length segs)))
                  [Concat (length segs) 1 0] [Named "v"];
            Chain (map (Piece Audio) (seq 0 (length segs)))
                  [Concat (length segs) 0 1] [Named "a"]]
      /\ (forall c, c ∈ V2.concat_graph segs ->
          has_fade_in c = false /\ has_fade_out c = false)).
Proof.
  split; [split; [|split]|].
  - apply v1_graph_rendered.
  - unfold one_concat_graph. rewrite !v1_trims, v1_concat_ops.
    split; [reflexivity|]. split; [reflexivity|]. split; [eauto|]. split.
    + intros c st Hc Hp. apply (v1_fades segs c st 0 Hc Hp).
    + intros c st Hc Hp.
      destruct (v1_fades segs c st _ Hc Hp) as [_ ->]. apply Nat.ltb_irrefl.
  - intros c st i. apply v1_fades.
  - split; [apply v2_graph_rendered|]. split; [apply v2_trims|].
    split; [apply v2_trims|]. split; [apply v2_concat_ops|].
    intros c Hc. apply (v2_no_fades segs c Hc).
Qed.

(** ** The duration probes *)

Example path_parse_ex :
  V1.path_parse "talk.final.mp4" = ("talk.final", ".mp4")
  /\ V1.path_parse "notes" = ("notes", "")
  /\ V1.path_parse ".hidden" = (".hidden", "").
Proof. repeat split; reflexivity. Qed.

Lemma strip_prefix_includes (p s : string) :
  includes p s = false -> strip_prefix p s = None.
Proof.
  unfold strip_prefix. destruct s; cbn [includes]; intros H;
    apply orb_false_iff in H as [-> _]; reflexivity.
Qed.

Lemma match_Duration_absent (e : string) :
  includes "Duration: " e = false -> V1.match_Duration e = None.
Proof.
  induction e as [|c e IH]; intros H.
  - reflexivity.
  - cbn [V1.match_Duration]. unfold V1.match_Duration_at.
    rewrite (strip_prefix_includes _ _ H). cbn [mbind option_bind].
    apply IH. cbn [includes] in H. apply orb_false_iff in H. tauto.
Qed.

Lemma span_digits_no_digit (s : string) :
  no_digit s = true -> span_digits s = ("", s).
Proof.
  destruct s as [|c r]; [reflexivity|]. cbn. intros H.
  apply andb_true_iff in H as [H _]. apply negb_true_iff in H. now rewrite H.
Qed.

Lemma no_digit_tail c r : no_digit (String c r) = true -> no_digit r = true.
Proof. cbn. intros H. apply andb_true_iff in H. tauto. Qed.

Lemma not_includes_tail (p : string) c r :
  includes p (String c r) = false -> includes p r = false.
Proof. cbn [includes]. intros H. apply orb_false_iff in H. tauto. Qed.

(** What holds of a text and of its tails holds of the text without its
    leading white space. *)
Lemma skip_spaces_tail (P : string -> Prop) :
  (forall c r, P (String c r) -> P r) -> forall s, P s -> P (skip_spaces s).
Proof.
  intros Htail s.
  assert (H : forall n s, (String.length s <= n)%nat -> P s -> P (skip_spaces s)).
  { clear s. induction n as [|n IH]; intros s Hn Hs.
    - destruct s; [exact Hs | cbn in Hn; lia].
    - destruct s as [|a r]; [exact Hs|]. cbn [skip_spaces]. cbn in Hn.
      destruct (is_space a); [apply IH; [lia | eauto]|].
      destruct r as [|b r2]; [exact Hs|]. cbn in Hn.
      destruct (is_space2 a b); [apply IH; [lia | eauto]|].
      destruct r2 as [|c r3]; [exact Hs|]. cbn in Hn.
      destruct (is_space3 a b c); [apply IH; [lia | eauto]|].
      exact Hs. }
  apply (H (String.length s)). lia.
Qed.

Lemma read_sign_tail (P : string -> Prop) (s : string) :
  (forall c r, P (String c r) -> P r) -> P s -> P (read_sign s).2.
Proof.
  intros Htail Hs. unfold read_sign. destruct s as [|c r]; [exact Hs|].
  destruct (Ascii.ascii_dec c "-") as [->|]; [cbn; eauto|].
  destruct (Ascii.ascii_dec c "+") as [->|]; [cbn; eauto|].
  destruct c as [[] [] [] [] [] [] [] []]; try exact Hs; congruence.
Qed.

(** [parseFloat] of a text without a digit: an infinity when the text
    starts with [Infinity] after white space and a sign, [NaN] otherwise. *)
Lemma parseFloat_no_digit (s : string) :
  no_digit s = true ->
  parseFloat (Some s)
  = let '(neg, r) := read_sign (skip_spaces s) in
    if String.prefix "Infinity" r
    then (if neg then neg_infinity else infinity)
    else nan.
Proof.
  intros H. unfold parseFloat.
  assert (H1 : no_digit (read_sign (skip_spaces s)).2 = true).
  { apply (read_sign_tail (fun s => no_digit s = true)); [apply no_digit_tail|].
    apply (skip_spaces_tail (fun s => no_digit s = true)); [apply no_digit_tail | exact H]. }
  destruct (read_sign (skip_spaces s)) as [neg s1]. cbn [snd] in H1.
  destruct (String.prefix "Infinity" s1); [reflexivity|].
  rewrite (span_digits_no_digit _ H1).
  destruct s1 as [|c r]; [reflexivity|].
  pose proof (no_digit_tail _ _ H1) as H2.
  destruct (Ascii.ascii_dec c ".") as [->|].
  - now rewrite (span_digits_no_digit _ H2).
  - destruct c as [[] [] [] [] [] [] [] []]; try reflexivity.
    now rewrite (span_digits_no_digit _ H2).
Qed.

Lemma parseFloat_no_number (s : string) :
  no_digit s = true -> includes "Infinity" s = false -> parseFloat (Some s) = nan.
Proof.
  intros H Hinf. rewrite (parseFloat_no_digit s H).
  assert (H1 : includes "Infinity" (read_sign (skip_spaces s)).2 = false).
  { apply (read_sign_tail (fun s => includes "Infinity" s = false));
      [apply not_includes_tail|].
    apply (skip_spaces_tail (fun s => includes "Infinity" s = false));
      [apply not_includes_tail | exact Hinf]. }
  destruct (read_sign (skip_spaces s)) as [neg r]. cbn [snd] in H1.
  destruct r as [|c r]; [reflexivity|].
  cbn [includes] in H1. apply orb_false_iff in H1 as [-> _]. reflexivity.
Qed.

(** C8, as stated, fails on [server (2).js]: when the probe prints
    nothing, its [getDuration] resolves with [NaN]. *)
Lemma C8_probe_returns_NaN : V2.getDuration "" = nan.
Proof. reflexivity. Qed.

(** C8 (amended): in [server.js], when the probe run is rejected and its
    text holds no duration marker, [getDuration] throws the parse error,
    and [processFile] ends with that error; when the text holds the marker
    it returns hours, minutes and seconds added up.  In
    [server (2).js], [getDuration] never throws: it returns [parseFloat]
    of the output, which is no finite number when the output holds no
    digit: [NaN], or an infinity when the output reads [Infinity]. *)
Theorem C8_duration_probe :
  (forall e, V1.match_Duration e = None ->
      V1.getDuration (Rejected e) = Throw "Duration parse failed"
      /\ forall toString name t, V1.probe t = Rejected e ->
           V1.processFile toString name t = Throw "Duration parse failed")
  /\ (forall e, includes "Duration: " e = false -> V1.match_Duration e = None)
  /\ (forall e h m s, V1.match_Duration e = Some (h, m, s) ->
      V1.getDuration (Rejected e)
      = Return (Some (V1.to_number h * 3600 + V1.to_number m * 60
                      + V1.to_number s)%float))
  /\ (forall out, no_digit out = true ->
      (includes "Infinity" out = false -> V2.getDuration out = nan)
      /\ (V2.getDuration out = nan \/ V2.getDuration out = infinity
          \/ V2.getDuration out = neg_infinity)).
Proof.
  split; [|split; [|split]].
  - intros e H. assert (G : V1.getDuration (Rejected e) = Throw "Duration parse failed").
    { unfold V1.getDuration. now rewrite H. }
    split; [exact G|]. intros toString name t Hp.
    unfold V1.processFile. destruct (V1.path_parse name). now rewrite Hp, G.
  - apply match_Duration_absent.
  - intros e h m s H. unfold V1.getDuration. now rewrite H.
  - intros out H. split; [apply parseFloat_no_number, H|].
    unfold V2.getDuration. rewrite (parseFloat_no_digit out H).
    destruct (read_sign (skip_spaces out)) as [neg r].
    destruct (String.prefix "Infinity" r); [destruct neg|]; auto.
Qed.

Lemma C8_duration_probe_witness :
  V1.getDuration (Rejected "clip.mp4: No such file or directory")
  = Throw "Duration parse failed"
  /\ V1.getDuration (Rejected "  Duration: 00:01:02.50, start: 0.000000")
     = Return (Some (V1.to_number "00" * 3600 + V1.to_number "01" * 60
                     + V1.to_number "02.50")%float)
  /\ V2.getDuration "N/A" = nan.
Proof.
  destruct C8_duration_probe as (Habsent & Hincl & Hfound & Hnan).
  split; [|split].
  - apply Habsent, Hincl. reflexivity.
  - apply (Hfound _ "00" "01" "02.50"). reflexivity.
  - apply Hnan; reflexivity.
Defined.

(** ** The job queue *)

Section Queue.

Import V1.

Lemma job_ok_iff (a : option nat) (q q' : Prop) (job : Job.t) :
  (q <-> q') -> job_ok a q job -> job_ok a q' job.
Proof.
  intros Hq. unfold job_ok.
  destruct a; [|destruct (Job.status job)]; tauto.
Qed.

Lemma expected_lt i cur k : (k < i)%nat -> expected i cur k = DONE.
Proof. unfold expected. intros H. apply Nat.ltb_lt in H. now rewrite H. Qed.

Lemma expected_eq i cur : expected i cur i = cur.
Proof. unfold expected. now rewrite Nat.ltb_irrefl, Nat.eqb_refl. Qed.

Lemma expected_gt i cur k : (i < k)%nat -> expected i cur k = QUEUED.
Proof.
  unfold expected. intros H.
  destruct (k <? i)%nat eqn:E1; [apply Nat.ltb_lt in E1; lia|].
  destruct (k =? i)%nat eqn:E2; [apply Nat.eqb_eq in E2; lia|]. reflexivity.
Qed.

Lemma expected_cases i cur k :
  expected i cur k = DONE \/ expected i cur k = cur \/ expected i cur k = QUEUED.
Proof. unfold expected. destruct (k <? i)%nat, (k =? i)%nat; auto. Qed.




Lemma job_ok_no_error a q job f :
  job_ok a q job -> f ∈ Job.files job -> FileTask.status f <> ERROR.
Proof.
  intros Hok Hf. apply list_elem_of_lookup in Hf as [k Hk].
  assert (H : exists i cur, cur <> ERROR /\ shape i cur (Job.files job)).
  { unfold job_ok in Hok. destruct a as [i|].
    - destruct Hok as (_ & _ & _ & Hs). exists i, PROCESSING. split; [discriminate|auto].
    - destruct (Job.status job); try contradiction.
      + exists 0%nat, QUEUED. split; [discriminate|auto].
      + destruct Hok as [_ Hs]. eexists _, DONE. split; [discriminate|eauto].
      + destruct Hok as (_ & i & _ & Hs). exists i, PROCESSING.
        split; [discriminate|auto]. }
  destruct H as (i & cur & Hcur & Hs). rewrite (Hs _ _ Hk).
  destruct (expected_cases i cur k) as [->| [->| ->]]; auto; discriminate.
Qed.

Lemma inv_queued st j :
  Inv st -> j ∈ queue st ->
  exists job, objects st !! j = Some job /\ Job.status job = QUEUED
              /\ awaiting st !! j = None /\ shape 0 QUEUED (Job.files job).
Proof.
  intros HI Hj. destruct (inv_queue st HI j Hj) as [job Hjob].
  pose proof (inv_jobs st HI j job Hjob) as Hok. unfold job_ok in Hok.
  exists job. destruct (awaiting st !! j); [tauto|].
  destruct (Job.status job); tauto.
Qed.

Lemma inv_awaited st j i :
  Inv st -> awaiting st !! j = Some i ->
  exists job, objects st !! j = Some job /\ Job.status job = PROCESSING
              /\ (j ∉ queue st) /\ (i < length (Job.files job))%nat
              /\ shape i PROCESSING (Job.files job).
Proof.
  intros HI Hj. destruct (inv_await st HI j i Hj) as [job Hjob].
  pose proof (inv_jobs st HI j job Hjob) as Hok. rewrite Hj in Hok.
  exists job. unfold job_ok in Hok. tauto.
Qed.

(** A change of the state that touches job [j] only. *)
Lemma inv_update (st st' : State) (j : nat) :
  Inv st ->
  is_Some (objects st !! j) ->
  (forall j', j' <> j ->
      objects st' !! j' = objects st !! j'
      /\ awaiting st' !! j' = awaiting st !! j'
      /\ (j' ∈ queue st' <-> j' ∈ queue st)) ->
  NoDup (queue st') ->
  (exists job', objects st' !! j = Some job'
                /\ job_ok (awaiting st' !! j) (j ∈ queue st') job') ->
  activeJobs st' = Z.of_nat (size (awaiting st')) ->
  (activeJobs st' ≤ MAX_CONCURRENT_JOBS)%Z ->
  next_uid st' = next_uid st ->
  jobs st' = jobs st ->
  Inv st'.
Proof.
  intros HI Hj Hother Hnd (job' & Hjob' & Hok') Hact Hlim Huid Hjobs.
  constructor; auto.
  - intros j' Hq. destruct (decide (j' = j)) as [->|Hne]; [eauto|].
    destruct (Hother j' Hne) as (-> & _ & Hiff).
    apply (inv_queue st HI), Hiff, Hq.
  - intros j' i Ha. destruct (decide (j' = j)) as [->|Hne]; [eauto|].
    destruct (Hother j' Hne) as (-> & Haw & _). rewrite Haw in Ha.
    apply (inv_await st HI _ _ Ha).
  - intros j' job Hjob. destruct (decide (j' = j)) as [->|Hne].
    + rewrite Hjob' in Hjob. injection Hjob as <-. exact Hok'.
    + destruct (Hother j' Hne) as (Hobj & -> & Hiff). rewrite Hobj in Hjob.
      eapply job_ok_iff; [symmetry; exact Hiff|]. apply (inv_jobs st HI _ _ Hjob).
  - intros j' Hs. rewrite Huid. destruct (decide (j' = j)) as [->|Hne].
    + apply (inv_fresh st HI _ Hj).
    + destruct (Hother j' Hne) as (Hobj & _). rewrite Hobj in Hs.
      apply (inv_fresh st HI _ Hs).
  - intros j' Hk. rewrite Huid. rewrite Hjobs in Hk. apply (inv_known st HI _ Hk).
Qed.

Lemma files_of_lookup st j job :
  objects st !! j = Some job -> files_of j st = Job.files job.
Proof. unfold files_of. now intros ->. Qed.

Lemma files_of_start_job st j q :
  files_of j (start_job j q st) = files_of j st.
Proof.
  unfold files_of, start_job. cbn. rewrite lookup_alter_eq.
  now destruct (objects st !! j).
Qed.

(** The admission of a job without files. *)
Lemma inv_admit_empty st j q :
  Inv st -> queue st = j :: q -> files_of j st = [] ->
  Inv (end_job j DONE (start_job j q st)).
Proof.
  intros HI Hq Hfiles.
  destruct (inv_queued st j HI) as (job & Hjob & Hst & Haw & Hsh);
    [rewrite Hq; left|].
  pose proof (inv_nodup st HI) as Hnd. rewrite Hq in Hnd.
  apply NoDup_cons in Hnd as [Hjq Hnd].
  rewrite (files_of_lookup _ _ _ Hjob) in Hfiles.
  apply (inv_update st _ j); cbn; eauto.
  - intros j' Hne. rewrite !lookup_alter_ne by auto. rewrite Hq, elem_of_cons.
    intuition congruence.
  - exists (Job.set_status DONE (Job.set_status PROCESSING job)).
    rewrite !lookup_alter_eq, Hjob. split; [reflexivity|].
    rewrite Haw. cbn. rewrite Hfiles. split; [auto|]. intros k f Hk. inversion Hk.
  - rewrite (inv_active st HI). lia.
  - pose proof (inv_limit st HI). lia.
Qed.

(** The admission of a job with files: the first file starts. *)
Lemma inv_admit_start st j q :
  Inv st -> queue st = j :: q -> (activeJobs st < MAX_CONCURRENT_JOBS)%Z ->
  files_of j st <> [] ->
  Inv (start_file j 0 (start_job j q st)).
Proof.
  intros HI Hq Hlt Hfiles.
  destruct (inv_queued st j HI) as (job & Hjob & Hst & Haw & Hsh);
    [rewrite Hq; left|].
  pose proof (inv_nodup st HI) as Hnd. rewrite Hq in Hnd.
  apply NoDup_cons in Hnd as [Hjq Hnd].
  rewrite (files_of_lookup _ _ _ Hjob) in Hfiles.
  apply (inv_update st _ j); cbn; eauto.
  - intros j' Hne. rewrite !lookup_alter_ne, lookup_insert_ne by auto.
    rewrite Hq, elem_of_cons. intuition congruence.
  - eexists. rewrite !lookup_alter_eq, Hjob. split; [reflexivity|].
    rewrite lookup_insert_eq. cbn. rewrite length_alter.
    repeat split; auto.
    + destruct (Job.files job); [contradiction|cbn; lia].
    + intros k f Hk. destruct (decide (k = 0%nat)) as [->|Hk0].
      * rewrite list_lookup_alter_eq in Hk.
        destruct (Job.files job !! 0%nat); [|discriminate].
        injection Hk as <-. reflexivity.
      * rewrite list_lookup_alter_ne in Hk by auto.
        rewrite (Hsh _ _ Hk). rewrite !expected_gt by lia. reflexivity.
  - rewrite map_size_insert_None by assumption. rewrite (inv_active st HI). lia.
  - lia.
Qed.

Lemma run_inv q st : queue st = q -> Inv st -> Inv (run q st).
Proof.
  revert st. induction q as [|j q IH]; intros st Hq HI; cbn [run];
    case_bool_decide as Hlim; auto.
  rewrite files_of_start_job.
  destruct (files_of j st) eqn:Hfiles.
  - apply IH; [reflexivity|]. apply inv_admit_empty; auto.
  - apply inv_admit_start; auto; [lia | congruence].
Qed.

Lemma runQueue_inv st : Inv st -> Inv (runQueue st).
Proof. apply run_inv. reflexivity. Qed.

Lemma size_delete_awaited (m : gmap nat nat) j i :
  m !! j = Some i -> Z.of_nat (size (delete j m)) = (Z.of_nat (size m) - 1)%Z.
Proof.
  intros H. rewrite map_size_delete_Some by eauto.
  assert (size m <> 0)%nat by (eapply map_size_ne_0_lookup_2; eauto). lia.
Qed.

(** The activation of job [j] ends in the [catch] block. *)
Lemma inv_fail st j i :
  Inv st -> awaiting st !! j = Some i ->
  Inv (end_job j ERROR (with_awaiting (delete j) st)).
Proof.
  intros HI Ha.
  destruct (inv_awaited st j i HI Ha) as (job & Hjob & Hst & Hq & Hi & Hsh).
  apply (inv_update st _ j); cbn; eauto.
  - intros j' Hne. rewrite lookup_alter_ne, lookup_delete_ne by auto. tauto.
  - apply (inv_nodup st HI).
  - eexists. rewrite lookup_alter_eq, Hjob. split; [reflexivity|].
    rewrite lookup_delete_eq. cbn. eauto.
  - rewrite (size_delete_awaited _ _ _ Ha), (inv_active st HI). reflexivity.
  - pose proof (inv_limit st HI). lia.
Qed.

Lemma lookup_file_done (files : list FileTask.t) (i : nat) o (k : nat) f :
  alter (FileTask.set_status DONE) i (alter (FileTask.set_outputName o) i files) !! k
  = Some f ->
  exists f0, files !! k = Some f0
             /\ FileTask.status f = if decide (k = i) then DONE else FileTask.status f0.
Proof.
  intros H. destruct (decide (k = i)) as [->|Hne].
  - rewrite !list_lookup_alter_eq in H.
    destruct (files !! i) as [f0|]; [|discriminate].
    injection H as <-. eauto.
  - rewrite !list_lookup_alter_ne in H by auto. eauto.
Qed.

Lemma files_of_file_done st j i o job :
  objects st !! j = Some job ->
  objects (file_done j i o st) !! j
  = Some (Job.alter_file i (FileTask.set_status DONE)
            (Job.alter_file i (FileTask.set_outputName o) job)).
Proof. intros H. unfold file_done. cbn. now rewrite !lookup_alter_eq, H. Qed.

(** The last file of job [j] is done: the activation ends in the [try]
    block. *)
Lemma inv_succeed_last st j i o :
  Inv st -> awaiting st !! j = Some i ->
  ~ (S i < length (files_of j (file_done j i o (with_awaiting (delete j) st))))%nat ->
  Inv (end_job j DONE (file_done j i o (with_awaiting (delete j) st))).
Proof.
  intros HI Ha Hlast.
  destruct (inv_awaited st j i HI Ha) as (job & Hjob & Hst & Hq & Hi & Hsh).
  rewrite (files_of_lookup _ _ _
             (files_of_file_done (with_awaiting (delete j) st) j i o job Hjob))
    in Hlast.
  cbn in Hlast. rewrite !length_alter in Hlast.
  apply (inv_update st _ j); cbn; eauto.
  - intros j' Hne. rewrite !lookup_alter_ne, lookup_delete_ne by auto. tauto.
  - apply (inv_nodup st HI).
  - eexists. rewrite !lookup_alter_eq, Hjob. split; [reflexivity|].
    rewrite lookup_delete_eq. cbn. rewrite !length_alter. split; [auto|].
    intros k f Hk. pose proof (lookup_lt_Some _ _ _ Hk) as Hlen.
    rewrite !length_alter in Hlen.
    apply lookup_file_done in Hk as (f0 & Hk0 & ->).
    rewrite expected_lt by lia. case_decide; [reflexivity|].
    rewrite (Hsh _ _ Hk0). apply expected_lt. lia.
  - rewrite (size_delete_awaited _ _ _ Ha), (inv_active st HI). reflexivity.
  - pose proof (inv_limit st HI). lia.
Qed.

(** A file of job [j] is done and the next one starts. *)
Lemma inv_succeed_next st j i o :
  Inv st -> awaiting st !! j = Some i ->
  (S i < length (files_of j (file_done j i o (with_awaiting (delete j) st))))%nat ->
  Inv (start_file j (S i) (file_done j i o (with_awaiting (delete j) st))).
Proof.
  intros HI Ha Hnext.
  destruct (inv_awaited st j i HI Ha) as (job & Hjob & Hst & Hq & Hi & Hsh).
  rewrite (files_of_lookup _ _ _
             (files_of_file_done (with_awaiting (delete j) st) j i o job Hjob))
    in Hnext.
  cbn in Hnext. rewrite !length_alter in Hnext.
  apply (inv_update st _ j); cbn; eauto.
  - intros j' Hne.
    rewrite !lookup_alter_ne, lookup_insert_ne, lookup_delete_ne by auto. tauto.
  - apply (inv_nodup st HI).
  - eexists. rewrite !lookup_alter_eq, Hjob. split; [reflexivity|].
    rewrite lookup_insert_eq. cbn. rewrite !length_alter.
    repeat split; auto.
    intros k f Hk. destruct (decide (k = S i)) as [->|Hne].
    + rewrite list_lookup_alter_eq in Hk.
      destruct (_ !! S i); [|discriminate]. injection Hk as <-.
      cbn. now rewrite expected_eq.
    + rewrite list_lookup_alter_ne in Hk by auto.
      apply lookup_file_done in Hk as (f0 & Hk0 & ->).
      case_decide as Hki.
      * subst k. symmetry. apply expected_lt. lia.
      * rewrite (Hsh _ _ Hk0).
        destruct (decide (k < i)%nat).
        -- rewrite !expected_lt by lia. reflexivity.
        -- rewrite !expected_gt by lia. reflexivity.
  - rewrite insert_delete_eq, map_size_insert_Some by eauto. apply (inv_active st HI).
  - apply (inv_limit st HI).
Qed.

Lemma settle_inv st j r : Inv st -> Inv (settle j r st).
Proof.
  intros HI. unfold settle. destruct (awaiting st !! j) as [i|] eqn:Ha; [|auto].
  destruct r as [o|e].
  - case_bool_decide as Hn.
    + apply inv_succeed_next; auto.
    + apply runQueue_inv, inv_succeed_last; auto.
  - apply runQueue_inv. eapply inv_fail; eauto.
Qed.

Lemma expire_inv st j : Inv st -> Inv (expire j st).
Proof.
  intros HI. unfold expire. case_bool_decide; [|auto].
  destruct HI. constructor; cbn; auto.
  intros j' Hin. apply inv_known0.
  apply elem_of_difference in Hin. tauto.
Qed.

(** The job that the middleware creates is new. *)
Lemma createJob_inv st :
  Inv st ->
  Inv (createJob st).2
  /\ objects st !! next_uid st = None
  /\ (next_uid st ∉ jobs st)
  /\ (next_uid st ∉ queue st)
  /\ awaiting st !! next_uid st = None.
Proof.
  intros HI.
  assert (Hnew : objects st !! next_uid st = None).
  { destruct (objects st !! next_uid st) eqn:E; [|reflexivity].
    pose proof (inv_fresh st HI (next_uid st)) as H. rewrite E in H.
    specialize (H (mk_is_Some _ _ eq_refl)). lia. }
  assert (Hq : next_uid st ∉ queue st).
  { intros H. apply (inv_queue st HI) in H. rewrite Hnew in H. now destruct H. }
  assert (Ha : awaiting st !! next_uid st = None).
  { destruct (awaiting st !! next_uid st) eqn:E; [|reflexivity].
    apply (inv_await st HI) in E. rewrite Hnew in E. now destruct E. }
  assert (Hk : next_uid st ∉ jobs st).
  { intros H. apply (inv_known st HI) in H. lia. }
  split; [|tauto]. constructor; cbn.
  - apply (inv_nodup st HI).
  - intros j Hj. rewrite lookup_insert_is_Some. right.
    split; [congruence|]. apply (inv_queue st HI _ Hj).
  - intros j i Hj. rewrite lookup_insert_is_Some. right.
    split; [congruence|]. apply (inv_await st HI _ _ Hj).
  - intros j job Hj. destruct (decide (j = next_uid st)) as [->|Hne].
    + rewrite lookup_insert_eq in Hj. injection Hj as <-. rewrite Ha. cbn.
      intros k f Hk'. inversion Hk'.
    + rewrite lookup_insert_ne in Hj by auto. apply (inv_jobs st HI _ _ Hj).
  - apply (inv_active st HI).
  - apply (inv_limit st HI).
  - intros j Hj. apply lookup_insert_is_Some in Hj as [<-|[_ Hj]]; [lia|].
    apply (inv_fresh st HI) in Hj. lia.
  - intros j Hj. apply elem_of_union in Hj as [Hj|Hj].
    + apply elem_of_singleton in Hj as ->. lia.
    + apply (inv_known st HI) in Hj. lia.
Qed.

(** The handler of [POST /upload] before it calls [runQueue]. *)
Lemma inv_enqueue st j tasks :
  Inv st -> is_Some (objects st !! j) -> j ∉ queue st ->
  awaiting st !! j = None ->
  (forall job, objects st !! j = Some job -> Job.status job = QUEUED) ->
  Forall (fun f => FileTask.status f = QUEUED) tasks ->
  Inv (with_queue (queue st ++ [j])
         (update_job j (fun job => Job.set_files (Job.files job ++ tasks) job) st)).
Proof.
  intros HI [job Hjob] Hq Ha Hst Htasks.
  pose proof (inv_jobs st HI j job Hjob) as Hok.
  rewrite Ha in Hok. unfold job_ok in Hok. rewrite (Hst _ Hjob) in Hok.
  apply (inv_update st _ j); cbn; eauto.
  - intros j' Hne. rewrite lookup_alter_ne by auto.
    rewrite elem_of_app, list_elem_of_singleton. intuition congruence.
  - apply NoDup_app. split; [apply (inv_nodup st HI)|]. split.
    + intros x Hx Hx'. apply list_elem_of_singleton in Hx'. congruence.
    + apply NoDup_singleton.
  - eexists. rewrite lookup_alter_eq, Hjob. split; [reflexivity|].
    rewrite Ha. cbn. rewrite (Hst _ Hjob).
    intros k f Hk. apply lookup_app_Some in Hk as [Hk|[_ Hk]].
    + apply (Hok _ _ Hk).
    + rewrite Forall_lookup in Htasks. rewrite (Htasks _ _ Hk).
      unfold expected.
      replace (k <? 0)%nat with false by (symmetry; apply Nat.ltb_ge; lia).
      now destruct (k =? 0)%nat.
  - apply (inv_active st HI).
  - apply (inv_limit st HI).
Qed.

Lemma handle_inv st req : Inv st -> Inv (handle req st).
Proof.
  intros HI. unfold handle.
  destruct (static_hit req); [auto|]. destruct (urlencoded_error req); [auto|].
  destruct (createJob_inv st HI) as (HI' & Hnew & _ & Hq & Ha).
  change (createJob st) with (next_uid st, (createJob st).2).
  set (st1 := (createJob st).2) in *. cbv iota beta.
  destruct (route req); auto.
  destruct (multer_ok files); [|auto].
  unfold upload. apply runQueue_inv.
  apply (inv_enqueue st1 (next_uid st)); auto.
  - subst st1. cbn. rewrite lookup_insert_eq. eauto.
  - subst st1. cbn. intros job. rewrite lookup_insert_eq. now intros [= <-].
  - apply Forall_forall. intros f Hf.
    apply list_elem_of_fmap in Hf as (u & -> & _). reflexivity.
Qed.

Lemma init_inv : Inv init.
Proof.
  constructor; cbn; try (intros; set_solver); try done.
  - apply NoDup_nil_2.
  - intros j [x Hx]. rewrite lookup_empty in Hx. discriminate.
Qed.

Lemma step_inv ev st : Inv st -> Inv (step ev st).
Proof.
  destruct ev; cbn; auto using handle_inv, settle_inv, expire_inv.
Qed.

Lemma reachable_inv st : reachable st -> Inv st.
Proof. induction 1; auto using init_inv, step_inv. Qed.

(** *** What [runQueue] leaves alone *)

Lemma run_frame q st j :
  j ∉ q ->
  objects (run q st) !! j = objects st !! j
  /\ awaiting (run q st) !! j = awaiting st !! j.
Proof.
  revert st. induction q as [|j0 q IH]; intros st Hj; cbn [run];
    case_bool_decide; auto.
  apply not_elem_of_cons in Hj as [Hne Hj].
  destruct (files_of j0 (start_job j0 q st)).
  - destruct (IH (end_job j0 DONE (start_job j0 q st)) Hj) as [-> ->]. cbn.
    now rewrite !lookup_alter_ne by auto.
  - cbn. now rewrite !lookup_alter_ne, lookup_insert_ne by auto.
Qed.

Lemma run_static q st :
  jobs (run q st) = jobs st /\ dirs (run q st) = dirs st
  /\ timers (run q st) = timers st /\ next_uid (run q st) = next_uid st.
Proof.
  revert st. induction q as [|j0 q IH]; intros st; cbn [run];
    case_bool_decide; auto.
  destruct (files_of j0 (start_job j0 q st)); [|auto].
  destruct (IH (end_job j0 DONE (start_job j0 q st))) as (-> & -> & -> & ->). auto.
Qed.

Lemma run_is_Some q st j :
  is_Some (objects (run q st) !! j) <-> is_Some (objects st !! j).
Proof.
  revert st. induction q as [|j0 q IH]; intros st; cbn [run];
    case_bool_decide; try tauto.
  destruct (files_of j0 (start_job j0 q st)).
  - rewrite IH. cbn. now rewrite !lookup_alter_is_Some.
  - cbn. now rewrite !lookup_alter_is_Some.
Qed.

Lemma run_queue q st : queue st = q -> queue (run q st) `suffix_of` q.
Proof.
  revert st. induction q as [|j0 q IH]; intros st Hq; cbn [run];
    case_bool_decide; try (rewrite Hq; reflexivity).
  destruct (files_of j0 (start_job j0 q st)).
  - apply suffix_cons_r, IH. reflexivity.
  - cbn. apply suffix_cons_r. reflexivity.
Qed.


Lemma run_not_queued q st j : queue st = q -> j ∉ q -> j ∉ queue (run q st).
Proof.
  intros Hq Hj Hin. apply Hj.
  destruct (run_queue q st Hq) as [pre ->]. apply elem_of_app. auto.
Qed.

Lemma idle_runQueue st st0 j :
  idle j st0 ->
  objects st !! j = objects st0 !! j -> queue st = queue st0 ->
  awaiting st !! j = awaiting st0 !! j ->
  objects (runQueue st) !! j = objects st0 !! j /\ idle j (runQueue st).
Proof.
  intros (Hs & Hq & Ha) Ho Hqq Haa. unfold runQueue, idle.
  rewrite <- Hqq in Hq.
  destruct (run_frame (queue st) st j Hq) as [Ho' Ha'].
  rewrite Ho', Ha', Ho, Haa. repeat split; auto.
  now apply run_not_queued.
Qed.

Lemma idle_step ev st j :
  Inv st -> idle j st ->
  objects (step ev st) !! j = objects st !! j /\ idle j (step ev st).
Proof.
  intros HI Hidle. pose proof Hidle as (Hs & Hq & Ha).
  destruct ev as [req|j' r|j']; cbn [step].
  - unfold handle.
    destruct (static_hit req); [auto|]. destruct (urlencoded_error req); [auto|].
    assert (Hne : next_uid st <> j).
    { intros <-. apply (inv_fresh st HI) in Hs. lia. }
    change (createJob st) with (next_uid st, (createJob st).2).
    set (st1 := (createJob st).2). cbv iota beta.
    assert (H1 : objects st1 !! j = objects st !! j)
      by (subst st1; cbn; now rewrite lookup_insert_ne).
    assert (Hidle1 : idle j st1)
      by (subst st1; unfold idle; cbn; now rewrite lookup_insert_ne).
    destruct (route req); try (split; assumption).
    destruct (multer_ok files); [|split; assumption].
    unfold upload.
    match goal with |- context [runQueue ?s] => set (st2 := s) end.
    assert (Hidle2 : idle j st2).
    { subst st2 st1. unfold idle. cbn. rewrite lookup_alter_ne, lookup_insert_ne by auto.
      repeat split; auto. rewrite elem_of_app, list_elem_of_singleton.
      intuition congruence. }
    destruct (idle_runQueue st2 st2 j Hidle2 eq_refl eq_refl eq_refl) as [-> ?].
    split; [|assumption]. subst st2 st1. cbn.
    now rewrite lookup_alter_ne, lookup_insert_ne by auto.
  - unfold settle. destruct (awaiting st !! j') as [i|] eqn:Ha'; [|auto].
    assert (Hne : j' <> j) by congruence.
    destruct r as [o|e]; [case_bool_decide|]; unfold finish.
    + unfold idle. cbn. rewrite !lookup_alter_ne, lookup_insert_ne, lookup_delete_ne by auto.
      auto.
    + apply idle_runQueue; auto; cbn;
        now rewrite ?lookup_alter_ne, ?lookup_delete_ne by auto.
    + apply idle_runQueue; auto; cbn;
        now rewrite ?lookup_alter_ne, ?lookup_delete_ne by auto.
  - unfold expire. case_bool_decide; auto.
Qed.

Lemma follows_inv st st' : Inv st -> follows st st' -> Inv st'.
Proof. induction 2; auto using step_inv. Qed.

Lemma idle_follows st st' j :
  Inv st -> idle j st -> follows st st' ->
  objects st' !! j = objects st !! j /\ idle j st'.
Proof.
  intros HI Hidle. induction 1 as [|ev st' Hf [IHo IHi]]; [auto|].
  destruct (idle_step ev st' j (follows_inv _ _ HI Hf) IHi) as [-> ?]. auto.
Qed.

(** The state after [processFile] of job [j] has thrown. *)
Lemma settle_throw st j i e :
  Inv st -> awaiting st !! j = Some i ->
  exists job,
    objects st !! j = Some job
    /\ settle j (Throw e) st = runQueue (end_job j ERROR (with_awaiting (delete j) st))
    /\ objects (settle j (Throw e) st) !! j = Some (Job.set_status ERROR job)
    /\ idle j (settle j (Throw e) st)
    /\ Job.files job !! i <> None
    /\ shape i PROCESSING (Job.files job).
Proof.
  intros HI Ha.
  destruct (inv_awaited st j i HI Ha) as (job & Hjob & Hst & Hq & Hi & Hsh).
  exists job. unfold settle. rewrite Ha. unfold finish.
  set (st1 := end_job j ERROR (with_awaiting (delete j) st)).
  assert (Ho1 : objects st1 !! j = Some (Job.set_status ERROR job))
    by (subst st1; cbn; now rewrite lookup_alter_eq, Hjob).
  assert (Hidle1 : idle j st1).
  { unfold idle. rewrite Ho1. subst st1. cbn. rewrite lookup_delete_eq. eauto. }
  destruct (idle_runQueue st1 st1 j Hidle1 eq_refl eq_refl eq_refl) as [Ho Hidle].
  repeat split; auto; try congruence; try apply Hidle.
  intros Hnone. apply lookup_ge_None in Hnone. lia.
Qed.

Lemma processing_awaiting st :
  Inv st -> dom (processing st) = dom (awaiting st).
Proof.
  intros HI. apply set_eq. intros j. rewrite !elem_of_dom. unfold processing.
  split.
  - intros [job Hj]. apply map_lookup_filter_Some in Hj as [Hj Hp]. cbn in Hp.
    pose proof (inv_jobs st HI j job Hj) as Hok. unfold job_ok in Hok.
    destruct (awaiting st !! j); [eauto|]. rewrite Hp in Hok. contradiction.
  - intros [i Hi].
    destruct (inv_awaited st j i HI Hi) as (job & Hjob & Hst & _).
    exists job. apply map_lookup_filter_Some. auto.
Qed.

Lemma processing_size st :
  Inv st -> Z.of_nat (size (processing st)) = activeJobs st.
Proof.
  intros HI. rewrite (inv_active st HI).
  rewrite <- (size_dom (D:=gset nat) (processing st)).
  rewrite <- (size_dom (D:=gset nat) (awaiting st)).
  now rewrite processing_awaiting.
Qed.

(** C6: in every reachable state at most [MAX_CONCURRENT_JOBS] jobs have
    status [PROCESSING] (their number is [activeJobs]), and [runQueue]
    changes nothing when the limit is reached or the queue is empty. *)
Theorem C6_concurrency_limit (st : State) :
  reachable st ->
  (Z.of_nat (size (processing st)) ≤ MAX_CONCURRENT_JOBS)%Z
  /\ Z.of_nat (size (processing st)) = activeJobs st
  /\ ((MAX_CONCURRENT_JOBS ≤ activeJobs st)%Z -> runQueue st = st)
  /\ (queue st = [] -> runQueue st = st).
Proof.
  intros Hr. apply reachable_inv in Hr.
  pose proof (processing_size st Hr) as Hsize.
  pose proof (inv_limit st Hr) as Hlim.
  split; [lia|]. split; [exact Hsize|]. split.
  - intros Hfull. unfold runQueue.
    destruct (queue st); cbn [run]; case_bool_decide; auto; lia.
  - intros Hempty. unfold runQueue. rewrite Hempty. cbn [run].
    case_bool_decide; reflexivity.
Qed.

End Queue.

Lemma three_uploads_reachable : V1.reachable three_uploads.
Proof. repeat constructor. Qed.

Example three_uploads_state :
  V1.queue three_uploads = [2%nat]
  /\ V1.activeJobs three_uploads = 2%Z
  /\ map_to_list (V1.awaiting three_uploads) = [(1%nat, 0%nat); (0%nat, 0%nat)].
Proof. repeat split; vm_compute; reflexivity. Qed.

Lemma C6_concurrency_limit_witness :
  (Z.of_nat (size (V1.processing three_uploads)) ≤ V1.MAX_CONCURRENT_JOBS)%Z
  /\ Z.of_nat (size (V1.processing three_uploads)) = V1.activeJobs three_uploads
  /\ ((V1.MAX_CONCURRENT_JOBS ≤ V1.activeJobs three_uploads)%Z ->
      V1.runQueue three_uploads = three_uploads)
  /\ (V1.queue three_uploads = [] -> V1.runQueue three_uploads = three_uploads).
Proof.
  apply (C6_concurrency_limit three_uploads).
  unfold three_uploads. repeat constructor.
Defined.

Section Failures.

Import V1.


(** C9: in every reachable state no file has status [ERROR]; after
    [processFile] of job [j] has thrown on file [i], the job has status
    [ERROR] and file [i] has status [PROCESSING], in every state that
    follows. *)
Theorem C9_no_file_error (st : State) :
  reachable st ->
  (forall j job f, objects st !! j = Some job -> f ∈ Job.files job ->
      FileTask.status f <> ERROR)
  /\ (forall j i e st', awaiting st !! j = Some i ->
      follows (step (Settled j (Throw e)) st) st' ->
      exists job f,
        objects st' !! j = Some job /\ Job.status job = ERROR
        /\ Job.files job !! i = Some f /\ FileTask.status f = PROCESSING).
Proof.
  intros Hr. apply reachable_inv in Hr. split.
  - intros j job f Hjob. eapply job_ok_no_error, (inv_jobs st Hr); eauto.
  - intros j i e st' Ha Hf. cbn [step] in Hf.
    destruct (settle_throw st j i e Hr Ha) as (job & Hjob & _ & Ho & Hidle & Hi & Hsh).
    destruct (idle_follows _ _ j (settle_inv st j (Throw e) Hr) Hidle Hf) as [Ho' _].
    destruct (Job.files job !! i) as [f|] eqn:Hfi; [|contradiction].
    exists (Job.set_status ERROR job), f. rewrite Ho', Ho.
    repeat split; auto. rewrite (Hsh _ _ Hfi). apply expected_eq.
Qed.

End Failures.

Example failure_scenario :
  let st := V1.step (V1.Settled 0 (Throw "boom")) three_uploads in
  V1.Job.status <$> V1.objects st !! 0%nat = Some V1.ERROR
  /\ (map V1.FileTask.status ∘ V1.Job.files) <$> V1.objects st !! 0%nat
     = Some [V1.PROCESSING]
  /\ V1.queue st = [] /\ V1.activeJobs st = 2%Z
  /\ V1.Job.status <$> V1.objects st !! 2%nat = Some V1.PROCESSING.
Proof. repeat split; vm_compute; reflexivity. Qed.


Lemma C9_no_file_error_witness :
  exists job f,
    V1.objects (V1.step (V1.Settled 0 (Throw "boom")) three_uploads) !! 0%nat
    = Some job
    /\ V1.Job.status job = V1.ERROR
    /\ V1.Job.files job !! 0%nat = Some f
    /\ V1.FileTask.status f = V1.PROCESSING.
Proof.
  apply (proj2 (C9_no_file_error three_uploads three_uploads_reachable)
           0%nat 0%nat "boom" _ eq_refl).
  constructor.
Defined.

Section Requests.

Import V1.

Lemma ancestors_self (p : list string) : p <> [] -> p ∈ ancestors p.
Proof.
  induction p as [|c r IH]; [contradiction|]. intros _. cbn [ancestors].
  destruct r as [|c' r'].
  - left.
  - right. apply (list_elem_of_fmap_2 (cons c)). apply IH. discriminate.
Qed.

Lemma ensure_self (p : list string) (ds : gset (list string)) :
  p <> [] -> p ∈ ensure p ds.
Proof.
  intros Hp. unfold ensure. apply elem_of_union. right.
  apply elem_of_list_to_set, ancestors_self, Hp.
Qed.

Lemma ensure_mono (p q : list string) (ds : gset (list string)) :
  q ∈ ds -> q ∈ ensure p ds.
Proof. intros H. unfold ensure. apply elem_of_union. auto. Qed.

(** The state after the middleware, and after the whole stack, for a
    request that reaches the middleware. *)
Lemma handle_created st req :
  static_hit req = false -> urlencoded_error req = false ->
  let st1 := (createJob st).2 in
  jobs (handle req st) = jobs st1 /\ dirs (handle req st) = dirs st1
  /\ timers (handle req st) = timers st1
  /\ next_uid (handle req st) = next_uid st1
  /\ (is_Some (objects (handle req st) !! next_uid st))
  /\ match route req with
     | PostUpload _ => True
     | _ => handle req st = st1
     end.
Proof.
  intros Hs Hu st1. unfold handle. rewrite Hs, Hu.
  change (createJob st) with (next_uid st, st1). cbv iota beta.
  assert (H1 : is_Some (objects st1 !! next_uid st))
    by (subst st1; cbn; rewrite lookup_insert_eq; eauto).
  destruct (route req); auto 10.
  destruct (multer_ok files); [|auto 10].
  unfold upload, runQueue.
  match goal with |- context [run ?q ?s] =>
    destruct (run_static q s) as (-> & -> & -> & ->);
    rewrite (run_is_Some q s)
  end.
  cbn. rewrite lookup_alter_is_Some. auto 10.
Qed.

(** C10, as stated, fails for a request that [express.static] answers:
    the stack stops before the middleware and no job is created. *)
Lemma C10_static_request_creates_nothing :
  step (Http page_request) init = init /\ jobs (step (Http page_request) init) = ∅.
Proof. split; reflexivity. Qed.

(** C10 (amended): every request that reaches the job-creation middleware
    (one that [express.static] has not answered and whose body the parser
    has not refused), status and download requests included, adds a new job
    to the [jobs] map, makes sure of its upload and output directories and
    sets its timer; a status or a download request changes the state in
    exactly this way. *)
Theorem C10_request_creates_job (st : State) (req : Request) :
  reachable st ->
  static_hit req = false -> urlencoded_error req = false ->
  let st' := step (Http req) st in
  let jobId := next_uid st in
  objects st !! jobId = None
  /\ (jobId ∉ jobs st)
  /\ jobs st' = {[jobId]} ∪ jobs st
  /\ is_Some (objects st' !! jobId)
  /\ (BASE_DIR ++ [pretty jobId]) ++ ["uploads"] ∈ dirs st'
  /\ (BASE_DIR ++ [pretty jobId]) ++ ["outputs"] ∈ dirs st'
  /\ timers st' = {[jobId]} ∪ timers st
  /\ match route req with
     | GetStatus _ | GetDownload _ _ =>
         st' = (createJob st).2 /\ st' <> st
         /\ get_job jobId st'
            = Some (Job.mk jobId QUEUED []
                      ((BASE_DIR ++ [pretty jobId]) ++ ["uploads"])
                      ((BASE_DIR ++ [pretty jobId]) ++ ["outputs"]))
     | _ => True
     end.
Proof.
  intros Hr Hs Hu st' jobId. apply reachable_inv in Hr.
  destruct (createJob_inv st Hr) as (_ & Hnew & Hk & _).
  destruct (handle_created st req Hs Hu) as (Hj & Hd & Ht & _ & Ho & Hroute).
  subst st'. cbn [step]. rewrite Hj, Hd, Ht.
  split; [exact Hnew|]. split; [exact Hk|]. split; [reflexivity|].
  split; [exact Ho|]. split; [|split; [|split; [reflexivity|]]].
  - cbn. apply ensure_mono, ensure_self. discriminate.
  - cbn. apply ensure_self. discriminate.
  - assert (Hdiff : (createJob st).2 <> st).
    { intros E. apply Hk. rewrite <- E at 2. cbn.
      apply elem_of_union_l, elem_of_singleton. reflexivity. }
    assert (Hget : get_job jobId (createJob st).2
                   = Some (Job.mk jobId QUEUED []
                             ((BASE_DIR ++ [pretty jobId]) ++ ["uploads"])
                             ((BASE_DIR ++ [pretty jobId]) ++ ["outputs"]))).
    { unfold get_job. cbn.
      rewrite bool_decide_eq_true_2
        by (apply elem_of_union_l, elem_of_singleton; reflexivity).
      apply lookup_insert_eq. }
    destruct (route req); auto; rewrite Hroute; auto.
Qed.

End Requests.

Lemma C10_request_creates_job_witness :
  V1.jobs (V1.step (V1.Http (status_request 0)) three_uploads)
  = {[3%nat]} ∪ V1.jobs three_uploads
  /\ V1.timers (V1.step (V1.Http (status_request 0)) three_uploads)
     = {[3%nat]} ∪ V1.timers three_uploads.
Proof.
  destruct (C10_request_creates_job three_uploads (status_request 0)
              three_uploads_reachable eq_refl eq_refl)
    as (_ & _ & Hjobs & _ & _ & _ & Htimers & _).
  split; [exact Hjobs | exact Htimers].
Defined.

(** * Further properties of the code *)

(** ** The planners *)

(** X1: under the hypotheses of C1 every planned segment satisfies
    [0 <= start < end <= totalDuration], for both planners. *)
Theorem X1_segments_within_media :
  (forall a : V2.Args,
      let post := default 0.5%float (V2.postSpeechBuffer a) in
      let pre := default 0.5%float (V2.preSpeechBuffer a) in
      let minKeep := default 0.2%float (V2.minKeep a) in
      (0 < minKeep)%float ->
      (0 <= V2.totalDuration a)%float -> (V2.totalDuration a < infinity)%float ->
      Forall (fits (V2.totalDuration a) post pre) (V2.silences a) ->
      within_media (V2.totalDuration a) (V2.buildKeepSegments a))
  /\ (forall (silences : list Span.t) (duration : number),
      (0 <= duration)%float -> (duration < infinity)%float ->
      Forall (fits1 duration) silences ->
      within_media duration (V1.buildKeepSegments silences duration)).
Proof.
  split.
  - intros a post pre minKeep Hm Ht Hfin Hss.
    apply lt_rank in Hfin as (Hn & _ & Hfin).
    apply laid_out_well_planned; auto. apply v2_plan_laid_out; assumption.
  - intros silences duration Ht Hfin Hss.
    apply lt_rank in Hfin as (Hn & _ & Hfin).
    apply laid_out_well_planned; auto. apply v1_plan_laid_out; assumption.
Qed.

Lemma X1_segments_within_media_witness :
  within_media 10 (V2.buildKeepSegments (plan [Silence.mk 3 (Some 5%float)] 10))
  /\ within_media 10 (V1.buildKeepSegments [Span.mk 3 5] 10).
Proof.
  split.
  - apply (proj1 X1_segments_within_media (plan [Silence.mk 3 (Some 5%float)] 10));
      try reflexivity.
    repeat constructor.
  - apply (proj2 X1_segments_within_media); try reflexivity.
    repeat constructor.
Defined.

Lemma v2_keep_loop_length t p r m ss ks c :
  (length (fold_left (V2.keep_step t p r m) ss (ks, c)).1
   <= length ks + length ss)%nat.
Proof.
  revert ks c. induction ss as [|s ss IH]; intros ks c; cbn [fold_left length].
  - cbn. lia.
  - unfold V2.keep_step at 2.
    destruct (_ >=? _)%float; (etransitivity; [apply IH|]);
      rewrite ?length_app; cbn; lia.
Qed.

Lemma v1_keep_loop_length ss ks c :
  (length (fold_left V1.keep_step ss (ks, c)).1 <= length ks + length ss)%nat.
Proof.
  revert ks c. induction ss as [|s ss IH]; intros ks c; cbn [fold_left length].
  - cbn. lia.
  - unfold V1.keep_step at 2.
    destruct (_ >? _)%float; (etransitivity; [apply IH|]);
      rewrite ?length_app; cbn; lia.
Qed.

(** X2: whatever the silences and the numbers are, a planner returns at
    most one segment per silence and one more. *)
Theorem X2_segment_count :
  (forall a : V2.Args,
      (length (V2.buildKeepSegments a) <= length (V2.silences a) + 1)%nat)
  /\ (forall silences duration,
      (length (V1.buildKeepSegments silences duration) <= length silences + 1)%nat).
Proof.
  split.
  - intros a. unfold V2.buildKeepSegments.
    match goal with |- context [fold_left ?f ?l ?s] => set (st := fold_left f l s) end.
    assert (H : (length st.1 <= length (@nil Span.t) + length (V2.silences a))%nat)
      by apply v2_keep_loop_length.
    destruct st as [keep cursor]. cbn [fst length] in H.
    destruct (_ >=? _)%float; rewrite ?length_app; cbn [length]; lia.
  - intros silences duration. unfold V1.buildKeepSegments.
    match goal with |- context [fold_left ?f ?l ?s] => set (st := fold_left f l s) end.
    assert (H : (length st.1 <= length (@nil Span.t) + length silences)%nat)
      by apply v1_keep_loop_length.
    destruct st as [keeps cursor]. cbn [fst length] in H.
    destruct (_ <? _)%float; rewrite ?length_app; cbn [length]; lia.
Qed.

Lemma max_num_inv (a b : number) : num (JS.max a b) -> num a /\ num b.
Proof.
  unfold JS.max. destruct (is_nan a) eqn:Ea, (is_nan b) eqn:Eb; cbn [orb];
    try (intros H; exfalso; apply H; reflexivity).
  intros _. apply is_nan_false in Ea, Eb. auto.
Qed.

Lemma adjacent_snoc {A} (R : A -> A -> Prop) (l : list A) (y : A) :
  adjacent R l -> (forall x, last l = Some x -> R x y) -> adjacent R (l ++ [y]).
Proof.
  induction l as [|a l IH]; intros H Hlast; [exact I|].
  destruct l as [|b l].
  - cbn. split; [|exact I]. apply Hlast. reflexivity.
  - destruct H as [Hab H]. change (R a b /\ adjacent R ((b :: l) ++ [y])).
    split; [exact Hab|]. apply IH; [exact H|].
    intros x Hx. apply Hlast. exact Hx.
Qed.

Lemma v2_keeps_ok_step t p r m ks c s :
  (0 < m)%float -> v2_keeps_ok ks c ->
  let st := V2.keep_step t p r m (ks, c) s in v2_keeps_ok st.1 st.2.
Proof.
  intros Hm (Hne & Hadj & Hcur). unfold V2.keep_step. cbn [fst snd].
  set (cutStart := (Silence.start s + p)%float).
  set (cutEnd := (default t (Silence.end_ s) - r)%float).
  assert (Hmax : num (JS.max c cutEnd) ->
                 num c /\ (rank c <= rank (JS.max c cutEnd))%Z).
  { intros H. destruct (max_num_inv _ _ H) as [Hc He].
    destruct (max_rank c cutEnd Hc He) as (_ & E & _). split; [assumption | lia]. }
  destruct (cutStart - c >=? m)%float eqn:E.
  - destruct (geb_sub_positive _ _ _ Hm E) as (Hns & Hc & Hlt).
    specialize (Hcur Hc). split; [|split].
    + apply Forall_app. split; [exact Hne|]. constructor; [|constructor].
      apply lt_rank. auto.
    + apply adjacent_snoc; [exact Hadj|]. intros x Hx. cbn [Span.start].
      apply last_Some in Hx as (l' & ->).
      apply Forall_app in Hcur as [_ Hx]. inversion Hx as [|? ? [Hnx Hle] _]; subst.
      apply le_rank. auto.
    + intros H. destruct (Hmax H) as [_ Hle].
      apply Forall_app. split.
      * eapply Forall_impl; [exact Hcur|]. intros k [Hk1 Hk2]. split; [assumption | lia].
      * constructor; [|constructor]. cbn [Span.start]. auto.
  - split; [exact Hne|]. split; [exact Hadj|].
    intros H. destruct (Hmax H) as [Hc Hle].
    eapply Forall_impl; [exact (Hcur Hc)|]. intros k [Hk1 Hk2]. split; [assumption | lia].
Qed.

Lemma v2_keeps_ok_loop t p r m ss ks c :
  (0 < m)%float -> v2_keeps_ok ks c ->
  let st := fold_left (V2.keep_step t p r m) ss (ks, c) in v2_keeps_ok st.1 st.2.
Proof.
  intros Hm. revert ks c. induction ss as [|s ss IH]; intros ks c H; [exact H|].
  cbn [fold_left]. pose proof (v2_keeps_ok_step t p r m ks c s Hm H) as H1.
  destruct (V2.keep_step t p r m (ks, c) s) as [ks1 c1]. apply IH, H1.
Qed.

Lemma v1_keeps_nonempty ss ks c :
  Forall (fun k => (Span.start k < Span.end_ k)%float) ks ->
  Forall (fun k => (Span.start k < Span.end_ k)%float)
         (fold_left V1.keep_step ss (ks, c)).1.
Proof.
  revert ks c. induction ss as [|s ss IH]; intros ks c H; [exact H|].
  cbn [fold_left]. unfold V1.keep_step at 2.
  destruct (_ >? _)%float eqn:E; apply IH; [|exact H].
  apply Forall_app. split; [exact H|]. constructor; [exact E | constructor].
Qed.

(** X3: whatever the silences are, also when they overlap, are out of
    order or hold [NaN], no planner returns an empty or an inverted
    segment (for [server (2).js], when [minKeep] is positive), and the
    segments of [server (2).js] come with starts that never decrease. *)
Theorem X3_segments_never_empty :
  (forall a : V2.Args,
      (0 < default 0.2%float (V2.minKeep a))%float ->
      Forall (fun k => (Span.start k < Span.end_ k)%float) (V2.buildKeepSegments a)
      /\ adjacent (fun x y => (Span.start x <= Span.start y)%float)
                  (V2.buildKeepSegments a))
  /\ (forall silences duration,
      Forall (fun k => (Span.start k < Span.end_ k)%float)
             (V1.buildKeepSegments silences duration)).
Proof.
  split.
  - intros a Hm. unfold V2.buildKeepSegments.
    match goal with |- context [fold_left ?f ?l ?s] => set (st := fold_left f l s) end.
    assert (H : v2_keeps_ok st.1 st.2).
    { apply v2_keeps_ok_loop; [exact Hm|].
      split; [constructor|]. split; [exact I|]. intros _. constructor. }
    destruct st as [ks c]. destruct H as (Hne & Hadj & Hcur). cbn [fst snd] in *.
    destruct (_ >=? _)%float eqn:E; [|auto].
    destruct (geb_sub_positive _ _ _ Hm E) as (Hnt & Hc & Hlt). split.
    + apply Forall_app. split; [exact Hne|]. constructor; [|constructor].
      apply lt_rank. auto.
    + apply adjacent_snoc; [exact Hadj|]. intros x Hx. cbn [Span.start].
      apply last_Some in Hx as (l' & ->).
      apply Forall_app in Hcur as [_ Hx]; [|exact Hc].
      inversion Hx as [|? ? [Hnx Hle] _]; subst. apply le_rank. auto.
  - intros silences duration. unfold V1.buildKeepSegments.
    match goal with |- context [fold_left ?f ?l ?s] => set (st := fold_left f l s) end.
    assert (H : Forall (fun k => (Span.start k < Span.end_ k)%float) st.1)
      by apply (v1_keeps_nonempty silences [] 0%float (Forall_nil_2 _)).
    destruct st as [ks c]. cbn [fst] in H.
    destruct (_ <? _)%float eqn:E; [|exact H].
    apply Forall_app. split; [exact H|]. constructor; [exact E | constructor].
Qed.

Lemma X3_segments_never_empty_witness :
  Forall (fun k => (Span.start k < Span.end_ k)%float)
         (V2.buildKeepSegments (plan [Silence.mk 3 (Some 3.5%float); Silence.mk 1 None] 10))
  /\ adjacent (fun x y => (Span.start x <= Span.start y)%float)
              (V2.buildKeepSegments (plan [Silence.mk 3 (Some 3.5%float); Silence.mk 1 None] 10)).
Proof.
  apply (proj1 X3_segments_never_empty). reflexivity.
Defined.

(** ** The detectors *)

Lemma v1_detect_step_long st line :
  Forall (fun s => (V1.MIN_SILENCE <= Span.end_ s - Span.start s)%float
                   /\ (Span.start s < Span.end_ s)%float) st.1 ->
  Forall (fun s => (V1.MIN_SILENCE <= Span.end_ s - Span.start s)%float
                   /\ (Span.start s < Span.end_ s)%float)
         (V1.detect_step st line).1.
Proof.
  destruct st as [sil start]. cbn [fst]. intros H. unfold V1.detect_step.
  destruct (includes "silence_end" line); [|exact H].
  match goal with |- context [match ?o with Some _ => _ | None => _ end] =>
    destruct o as [a|]; [|exact H] end.
  destruct (_ >=? _)%float eqn:E; cbn [fst]; [|exact H].
  apply Forall_app. split; [exact H|]. constructor; [|constructor].
  cbn [Span.start Span.end_]. split; [exact E|].
  assert (Hm : (0 < V1.MIN_SILENCE)%float) by reflexivity.
  destruct (geb_sub_positive _ _ _ Hm E) as (He & Ha & Hlt). apply lt_rank. auto.
Qed.

(** X4: every silence that [detectSilences] of [server.js] returns has
    numbers for bounds, its start before its end, and lasts [MIN_SILENCE]
    at least, as the code computes the difference; shorter pairs of
    markers, and pairs whose numbers cannot be read, are dropped. *)
Theorem X4_detected_silences_long (log : string) (silences : list Span.t) :
  V1.detectSilences (Resolved log) = Return silences ->
  Forall (fun s => (V1.MIN_SILENCE <= Span.end_ s - Span.start s)%float
                   /\ (Span.start s < Span.end_ s)%float) silences.
Proof.
  unfold V1.detectSilences, V1.detect_lines. intros [= <-].
  generalize (split LF log). intros lines.
  assert (H : forall st,
            Forall (fun s => (V1.MIN_SILENCE <= Span.end_ s - Span.start s)%float
                             /\ (Span.start s < Span.end_ s)%float) st.1 ->
            Forall (fun s => (V1.MIN_SILENCE <= Span.end_ s - Span.start s)%float
                             /\ (Span.start s < Span.end_ s)%float)
                   (fold_left V1.detect_step lines st).1).
  { induction lines as [|l ls IH]; intros st Hst; [exact Hst|].
    cbn [fold_left]. apply IH, v1_detect_step_long, Hst. }
  apply H. constructor.
Qed.

Lemma X4_detected_silences_long_witness :
  Forall (fun s => (V1.MIN_SILENCE <= Span.end_ s - Span.start s)%float
                   /\ (Span.start s < Span.end_ s)%float)
         [Span.mk 3 5].
Proof.
  apply (X4_detected_silences_long
           ("[silencedetect @ 0x1] silence_start: 3" +:+ LF
            +:+ "[silencedetect @ 0x1] silence_end: 5 | silence_duration: 2" +:+ LF
            +:+ "[silencedetect @ 0x1] silence_start: 7" +:+ LF
            +:+ "[silencedetect @ 0x1] silence_end: 7.5 | silence_duration: 0.5")).
  vm_compute. reflexivity.
Defined.

Lemma v2_detect_step_closed st line :
  Forall (fun s => is_Some (Silence.end_ s)) st.1 ->
  Forall (fun s => is_Some (Silence.end_ s)) (V2.detect_step st line).1.
Proof.
  destruct st as [sil cur]. cbn [fst]. intros H. unfold V2.detect_step.
  destruct (includes "silence_end" line); [|exact H].
  match goal with |- context [match ?o with Some _ => _ | None => _ end] =>
    destruct o as [a|]; [|exact H] end.
  cbn [fst]. apply Forall_app. split; [exact H|]. repeat constructor. cbn. eauto.
Qed.

Lemma v2_detect_loop_closed lines st :
  Forall (fun s => is_Some (Silence.end_ s)) st.1 ->
  Forall (fun s => is_Some (Silence.end_ s)) (fold_left V2.detect_step lines st).1.
Proof.
  revert st. induction lines as [|l ls IH]; intros st Hst; [exact Hst|].
  cbn [fold_left]. apply IH, v2_detect_step_closed, Hst.
Qed.

(** X5: in the result of [detectSilence] of [server (2).js] only the last
    silence can have [end: null]; a silence followed by another one is
    closed. *)
Theorem X5_only_last_silence_open (chunks : list string) (before after : list Silence.t)
    (s : Silence.t) :
  V2.detectSilence chunks = before ++ s :: after ->
  after <> [] -> is_Some (Silence.end_ s).
Proof.
  unfold V2.detectSilence, V2.detect_lines. intros E Hafter.
  pose proof (v2_detect_loop_closed (split LF (V2.trace chunks)) ([], None)
                (Forall_nil_2 _)) as Hclosed.
  destruct (fold_left V2.detect_step (split LF (V2.trace chunks)) ([], None))
    as [sil cur]. cbn [fst] in Hclosed.
  assert (Hin : s ∈ sil).
  { destruct cur as [start|].
    - destruct (exists_last Hafter) as (after' & x & ->).
      rewrite app_comm_cons, app_assoc in E. apply app_inj_tail in E as [-> _].
      rewrite elem_of_app, elem_of_cons. auto.
    - subst sil. rewrite elem_of_app, elem_of_cons. auto. }
  rewrite Forall_forall in Hclosed. auto.
Qed.

Lemma X5_only_last_silence_open_witness :
  is_Some (Silence.end_ (Silence.mk 3 (Some 5%float))).
Proof.
  apply (X5_only_last_silence_open
           ["[silencedetect @ 0x1] silence_start: 3" +:+ LF;
            "[silencedetect @ 0x1] silence_end: 5 | silence_duration: 2" +:+ LF
            +:+ "[silencedetect @ 0x1] silence_start: 8" +:+ LF]
           [] [Silence.mk 8 None]).
  - reflexivity.
  - discriminate.
Defined.

(** X6: the lines of the trace that hold no silence marker (progress
    lines, banners, empty lines) do not change what either detector
    returns. *)
Theorem X6_unmarked_lines_ignored (lines : list string) :
  V1.detect_lines (List.filter marked lines) = V1.detect_lines lines
  /\ V2.detect_lines (List.filter marked lines) = V2.detect_lines lines.
Proof.
  unfold V1.detect_lines, V2.detect_lines.
  now rewrite v1_detect_marked, v2_detect_marked.
Qed.

(** ** The graphs and the encoding runs *)

Lemma flat_map_map {A B C} (k : B -> list C) (f : A -> B) (l : list A) :
  flat_map k (map f l) = flat_map (fun x => k (f x)) l.
Proof. induction l as [|x l IH]; [reflexivity|]. cbn. now rewrite IH. Qed.

Lemma flat_map_concat_imap_seq {A B C} (h : B -> list C) (k : nat -> list C)
    (g : nat -> A -> list B) (l : list A) :
  (forall i s, flat_map h (g i s) = k i) ->
  flat_map h (concat (imap g l)) = flat_map k (seq 0 (length l)).
Proof.
  revert g k. induction l as [|x l IH]; intros g k Hg; [reflexivity|].
  rewrite imap_cons. cbn [concat length seq flat_map].
  rewrite flat_map_app, Hg. f_equal.
  rewrite <- seq_shift, flat_map_map.
  apply IH. intros i s. apply Hg.
Qed.

Lemma flat_map_imap_seq {A B C} (h : B -> list C) (k : nat -> list C)
    (g : nat -> A -> B) (l : list A) :
  (forall i s, h (g i s) = k i) ->
  flat_map h (imap g l) = flat_map k (seq 0 (length l)).
Proof.
  revert g k. induction l as [|x l IH]; intros g k Hg; [reflexivity|].
  rewrite imap_cons. cbn [length seq flat_map]. rewrite Hg. f_equal.
  rewrite <- seq_shift, flat_map_map.
  apply IH. intros i s. apply Hg.
Qed.

Lemma pairs_NoDup (n : nat) : NoDup (pairs n).
Proof.
  unfold pairs. generalize 0%nat as s.
  induction n as [|n IH]; intros s; [constructor|].
  cbn [seq flat_map app].
  assert (Hge : forall p, p ∈ flat_map (λ i, [Piece Video i; Piece Audio i]) (seq (S s) n) ->
                          exists st i, p = Piece st i /\ (S s <= i)%nat).
  { intros p Hp. apply list_elem_of_In, in_flat_map in Hp as (i & Hi & Hp).
    apply in_seq in Hi. cbn in Hp.
    destruct Hp as [<-|[<-|[]]]; eexists _, i; split; eauto; lia. }
  constructor; [|constructor; [|apply IH]].
  - intros H. apply elem_of_cons in H as [H|H]; [discriminate|].
    apply Hge in H as (st & i & [= _ ->] & Hi). lia.
  - intros H. apply Hge in H as (st & i & [= _ ->] & Hi). lia.
Qed.

Lemma pieces_NoDup (st : stream) (n : nat) : NoDup (map (Piece st) (seq 0 n)).
Proof.
  assert (Hinj : Inj (=) (=) (Piece st)) by (intros i j [= ->]; reflexivity).
  apply (NoDup_fmap_2 (Piece st)), NoDup_seq.
Qed.

(** X7: the graph of [server.js] is closed.  Each piece pad [[vi]] or
    [[ai]] is written by one chain and read once, by the concat operation;
    the only other pads written are [[outv]] and [[outa]], which no chain
    reads and which are the ones the encoding run maps. *)
Theorem X7_v1_graph_closed (segs : list Span.t) (inputPath graph outputPath : string) :
  produced (V1.filter_graph segs)
  = pairs (length segs) ++ [Named "outv"; Named "outa"]
  /\ consumed (V1.filter_graph segs)
     = flat_map (fun _ => [Source Video; Source Audio]) (seq 0 (length segs))
       ++ pairs (length segs)
  /\ NoDup (pairs (length segs) ++ [Named "outv"; Named "outa"])
  /\ mapped (v1_encode_args inputPath graph outputPath)
     = map render_pad [Named "outv"; Named "outa"].
Proof.
  unfold produced, consumed, V1.filter_graph. rewrite !flat_map_app.
  cbn [flat_map outputs inputs]. rewrite !app_nil_r.
  split; [|split; [|split]].
  - f_equal. apply flat_map_concat_imap_seq. reflexivity.
  - f_equal. apply flat_map_concat_imap_seq. reflexivity.
  - apply NoDup_app. split; [apply pairs_NoDup|]. split.
    + intros p Hp Hn. unfold pairs in Hp.
      apply list_elem_of_In, in_flat_map in Hp as (i & _ & Hp). cbn in Hp.
      destruct Hp as [<-|[<-|[]]];
        repeat (apply elem_of_cons in Hn as [Hn|Hn]; [discriminate|]);
        inversion Hn.
    + constructor; [|apply NoDup_singleton].
      intros H. apply list_elem_of_singleton in H. discriminate.
  - cbn. now destruct (String.eqb outputPath "-y").
Qed.

(** X8: the graph of [server (2).js] is closed in the same way: the video
    pieces and the audio pieces are each written once and read once, by
    their concat operation; [[v]] and [[a]] are written, read by no chain
    and mapped by the run that cuts.  When no silence was found the run
    has no graph and maps nothing. *)
Theorem X8_v2_graph_closed (toString : number -> string)
    (segs : list Span.t) (input output : string) :
  produced (V2.concat_graph segs)
  = map (Piece Video) (seq 0 (length segs))
    ++ map (Piece Audio) (seq 0 (length segs)) ++ [Named "v"; Named "a"]
  /\ consumed (V2.concat_graph segs)
     = map (fun _ => Source Video) (seq 0 (length segs))
       ++ map (fun _ => Source Audio) (seq 0 (length segs))
       ++ map (Piece Video) (seq 0 (length segs))
       ++ map (Piece Audio) (seq 0 (length segs))
  /\ NoDup (map (Piece Video) (seq 0 (length segs))
            ++ map (Piece Audio) (seq 0 (length segs)) ++ [Named "v"; Named "a"])
  /\ (forall duration,
      mapped (processSingleFile toString [] duration input output) = [])
  /\ (forall silences duration, silences <> [] ->
      processSingleFile toString silences duration input output
      = v2_cut_args input
          (render toString
             (V2.concat_graph (V2.buildKeepSegments (plan silences duration))))
          output
      /\ mapped (processSingleFile toString silences duration input output)
         = map render_pad [Named "v"; Named "a"]).
Proof.
  unfold produced, consumed, V2.concat_graph. rewrite !flat_map_app.
  cbn [flat_map outputs inputs]. rewrite !app_nil_r.
  split; [|split; [|split; [|split]]].
  - rewrite !(flat_map_imap_seq _ (fun i => [Piece _ i])) by reflexivity.
    now rewrite !flat_map_single.
  - rewrite (flat_map_imap_seq _ (fun i => [Source Video])) by reflexivity.
    rewrite (flat_map_imap_seq _ (fun i => [Source Audio])) by reflexivity.
    rewrite !flat_map_single. reflexivity.
  - apply NoDup_app. split; [apply pieces_NoDup|]. split.
    + intros p Hp Hn. apply list_elem_of_fmap in Hp as (i & -> & _).
      apply elem_of_app in Hn as [Hn|Hn].
      * apply list_elem_of_fmap in Hn as (j & [=] & _).
      * repeat (apply elem_of_cons in Hn as [Hn|Hn]; [discriminate|]).
        inversion Hn.
    + apply NoDup_app. split; [apply pieces_NoDup|]. split.
      * intros p Hp Hn. apply list_elem_of_fmap in Hp as (i & -> & _).
        repeat (apply elem_of_cons in Hn as [Hn|Hn]; [discriminate|]).
        inversion Hn.
      * constructor; [|apply NoDup_singleton].
        intros H. apply list_elem_of_singleton in H. discriminate.
  - intros duration. cbn. now destruct (String.eqb output "-y").
  - intros silences duration Hne. destruct silences as [|s ss]; [contradiction|].
    unfold processSingleFile. rewrite v2_graph_rendered. split; [reflexivity|].
    cbn. now destruct (String.eqb output "-y").
Qed.

Lemma X8_v2_graph_closed_witness :
  processSingleFile decimal [Silence.mk 3 (Some 5%float)] 10 "in.mp4" "out.mp4"
  = v2_cut_args "in.mp4"
      (render decimal
         (V2.concat_graph (V2.buildKeepSegments (plan [Silence.mk 3 (Some 5%float)] 10))))
      "out.mp4"
  /\ mapped (processSingleFile decimal [Silence.mk 3 (Some 5%float)] 10 "in.mp4" "out.mp4")
     = map render_pad [Named "v"; Named "a"].
Proof.
  destruct (X8_v2_graph_closed decimal [] "in.mp4" "out.mp4") as (_ & _ & _ & _ & H).
  apply H. discriminate.
Defined.

(** X9: in the graph of [server.js] a fade-out lasts [FADE] and never
    starts at a negative time: its start is [max(0, end - start - FADE)]
    of a segment, so that it is 0 for a segment shorter than [FADE]. *)
Theorem X9_fade_out_start (segs : list Span.t) (c : chain) (st : stream)
    (s d : number) :
  c ∈ V1.filter_graph segs -> FadeOut st s d ∈ filters c ->
  d = V1.FADE
  /\ ~ (s < 0)%float
  /\ exists seg, seg ∈ segs
       /\ s = JS.max 0 (Span.end_ seg - Span.start seg - V1.FADE)%float.
Proof.
  unfold V1.filter_graph. intros Hc Hf.
  apply elem_of_app in Hc as [Hc|Hc].
  - apply list_elem_of_In, in_concat in Hc as (l & Hl & Hc).
    apply list_elem_of_In, elem_of_lookup_imap in Hl as (i & seg & -> & Hseg).
    assert (Hseg' : seg ∈ segs) by (eapply list_elem_of_lookup_2; eauto).
    assert (H : forall st', FadeOut st s d ∈ V1.fades (length segs) i st' seg ->
              d = V1.FADE
              /\ s = JS.max 0 (Span.end_ seg - Span.start seg - V1.FADE)%float).
    { intros st' H. unfold V1.fades in H.
      destruct (0 <? i)%nat, (i <? length segs - 1)%nat; cbn in H;
        repeat (apply elem_of_cons in H as [H|H]; [try discriminate|]);
        try (inversion H; fail); injection H as -> -> ->; auto. }
    assert (G : d = V1.FADE
                /\ s = JS.max 0 (Span.end_ seg - Span.start seg - V1.FADE)%float).
    { cbn in Hc. destruct Hc as [<-|[<-|[]]]; cbn [filters V1.segment_chain] in Hf;
        repeat (apply elem_of_cons in Hf as [Hf|Hf]; [discriminate|]);
        eapply H; eauto. }
    destruct G as [-> ->]. split; [reflexivity|]. split; [|eauto].
    intros Hlt. apply lt_rank in Hlt as (Hn & _ & Hlt). rewrite rank_zero in Hlt.
    apply max_num_inv in Hn as [H0 Hy].
    destruct (max_rank _ _ H0 Hy) as (_ & E & _). rewrite rank_zero in E. lia.
  - apply list_elem_of_singleton in Hc as ->. cbn in Hf.
    apply list_elem_of_singleton in Hf. discriminate.
Qed.

Lemma X9_fade_out_start_witness :
  V1.FADE = V1.FADE
  /\ ~ (JS.max 0 (0.05 - 0 - V1.FADE) < 0)%float
  /\ exists seg, seg ∈ [Span.mk 0 0.05; Span.mk 1 2]
       /\ JS.max 0 (0.05 - 0 - V1.FADE)%float
          = JS.max 0 (Span.end_ seg - Span.start seg - V1.FADE)%float.
Proof.
  apply (X9_fade_out_start
           [Span.mk 0 0.05; Span.mk 1 2]
           (V1.segment_chain 2 0 Video (Span.mk 0 0.05)) Video).
  - apply list_elem_of_In. cbn. auto.
  - apply list_elem_of_In. cbn. auto.
Defined.

(** ** The queue at work *)

Section Bookkeeping.

Import V1.

Lemma run_busy q st :
  queue st = q -> (activeJobs st ≤ MAX_CONCURRENT_JOBS)%Z ->
  (length q <= 1)%nat \/ (MAX_CONCURRENT_JOBS - 1 ≤ activeJobs st)%Z ->
  busy (run q st).
Proof.
  revert st. induction q as [|j q IH]; intros st Hq Hle Hor; cbn [run];
    case_bool_decide as Hmax; try (right; lia); [left; exact Hq|].
  destruct (files_of j (start_job j q st)).
  - apply IH; cbn; [reflexivity | lia |].
    destruct Hor as [Hl|Ha]; [left; cbn in Hl; lia | right; lia].
  - destruct Hor as [Hl|Ha].
    + left. cbn. destruct q; [reflexivity | cbn in Hl; lia].
    + right. cbn. lia.
Qed.

Lemma settle_busy st j r : Inv st -> busy st -> busy (settle j r st).
Proof.
  intros HI Hb. pose proof (inv_limit st HI) as Hle. unfold settle.
  destruct (awaiting st !! j) as [i|]; [|exact Hb].
  assert (Hfin : forall s st1,
            queue st1 = queue st -> activeJobs st1 = activeJobs st ->
            busy (finish j s st1)).
  { intros s st1 Hq Ha. unfold finish, runQueue.
    apply run_busy; cbn; [reflexivity | lia |].
    destruct Hb as [Hb|Hb]; [left; rewrite Hq, Hb; cbn; lia | right; lia]. }
  destruct r as [o|e]; [|apply Hfin; reflexivity].
  case_bool_decide; [exact Hb | apply Hfin; reflexivity].
Qed.

Lemma handle_busy st req : Inv st -> busy st -> busy (handle req st).
Proof.
  intros HI Hb. pose proof (inv_limit st HI) as Hle. unfold handle.
  destruct (static_hit req); [exact Hb|].
  destruct (urlencoded_error req); [exact Hb|].
  change (createJob st) with (next_uid st, (createJob st).2).
  destruct (route req) as [files| | |]; try exact Hb.
  destruct (multer_ok files); [|exact Hb].
  unfold upload, runQueue. apply run_busy; cbn; [reflexivity | lia |].
  destruct Hb as [Hb|Hb]; [left; rewrite Hb; cbn; lia | right; lia].
Qed.

Lemma step_busy ev st : Inv st -> busy st -> busy (step ev st).
Proof.
  intros HI Hb. destruct ev as [req|j r|j]; cbn [step].
  - apply handle_busy; assumption.
  - apply settle_busy; assumption.
  - unfold expire. case_bool_decide; exact Hb.
Qed.

Lemma reachable_busy st : reachable st -> busy st.
Proof.
  induction 1 as [|ev st Hr IH]; [left; reflexivity|].
  apply step_busy; [apply reachable_inv, Hr | exact IH].
Qed.

(** X10: the queue is worked off without delay.  In every reachable state
    a job waits in the queue only while [MAX_CONCURRENT_JOBS] jobs are
    being processed: whenever fewer are, the queue is empty. *)
Theorem X10_no_idle_slot (st : State) :
  reachable st -> queue st <> [] ->
  activeJobs st = MAX_CONCURRENT_JOBS
  /\ Z.of_nat (size (processing st)) = MAX_CONCURRENT_JOBS.
Proof.
  intros Hr Hq. destruct (reachable_busy st Hr) as [H|H]; [contradiction|].
  split; [exact H|]. rewrite processing_size; [exact H | apply reachable_inv, Hr].
Qed.

(** X11: jobs enter the queue at its tail and leave it at its head, in
    the order of their uploads: after any event the queue is what is left
    of the old queue, followed by the job of the request if it was queued. *)
Theorem X11_queue_fifo (ev : Event) (st : State) :
  exists new,
    (new = [] \/ new = [next_uid st])
    /\ queue (step ev st) `suffix_of` queue st ++ new.
Proof.
  destruct ev as [req|j r|j]; cbn [step].
  - unfold handle.
    destruct (static_hit req); [exists []; rewrite app_nil_r; auto|].
    destruct (urlencoded_error req); [exists []; rewrite app_nil_r; auto|].
    change (createJob st) with (next_uid st, (createJob st).2).
    destruct (route req) as [files| | |];
      try solve [exists []; rewrite app_nil_r; cbn; auto].
    destruct (multer_ok files); [|exists []; rewrite app_nil_r; cbn; auto].
    exists [next_uid st]. split; [auto|].
    unfold upload, runQueue. exact (run_queue _ _ eq_refl).
  - exists []. rewrite app_nil_r. split; [auto|]. unfold settle.
    destruct (awaiting st !! j) as [i|]; [|reflexivity].
    assert (Hfin : forall s st1, queue st1 = queue st ->
              queue (finish j s st1) `suffix_of` queue st).
    { intros s st1 Hq. unfold finish, runQueue. rewrite <- Hq.
      exact (run_queue _ _ eq_refl). }
    destruct r as [o|e]; [|apply Hfin; reflexivity].
    case_bool_decide; [reflexivity | apply Hfin; reflexivity].
  - exists []. rewrite app_nil_r. split; [auto|].
    unfold expire. case_bool_decide; reflexivity.
Qed.


(** *** Jobs that are over, and jobs that never start *)

Lemma inv_idle st j job :
  Inv st -> objects st !! j = Some job ->
  Job.status job = DONE \/ Job.status job = ERROR -> idle j st.
Proof.
  intros HI Hjob Hs. pose proof (inv_jobs st HI j job Hjob) as Hok.
  split; [eauto|]. unfold job_ok in Hok.
  destruct (awaiting st !! j) as [i|].
  - destruct Hok as (Hp & _). destruct Hs as [Hs|Hs]; congruence.
  - destruct Hs as [Hs|Hs]; rewrite Hs in Hok; tauto.
Qed.

(** X12: a job that is [DONE] or in [ERROR] is over: in every later state
    its object is the same (status, files and their statuses), and it is
    neither queued nor processed again. *)
Theorem X12_finished_job_frozen (st st' : State) (j : nat) (job : Job.t) :
  reachable st -> objects st !! j = Some job ->
  Job.status job = DONE \/ Job.status job = ERROR ->
  follows st st' ->
  objects st' !! j = Some job /\ (j ∉ queue st') /\ awaiting st' !! j = None.
Proof.
  intros Hr Hjob Hs Hf. pose proof (reachable_inv st Hr) as HI.
  destruct (idle_follows st st' j HI (inv_idle st j job HI Hjob Hs) Hf)
    as (Ho & _ & Hq & Ha).
  rewrite Ho. auto.
Qed.

(** The requests that reach the middleware but queue nothing: every route
    but the upload, and an upload that multer refuses. *)
Lemma handle_lookup st req :
  static_hit req = false -> urlencoded_error req = false ->
  match route req with
  | PostUpload files => multer_ok files = false
  | _ => True
  end ->
  handle req st = (createJob st).2.
Proof.
  intros Hs Hu Hr. unfold handle. rewrite Hs, Hu.
  change (createJob st) with (next_uid st, (createJob st).2).
  destruct (route req); [rewrite Hr|..]; reflexivity.
Qed.

(** X13: the job that the middleware creates for a request that is not an
    accepted upload (a status or download request, an unknown route, an
    upload beyond the limits of multer) never runs: in every later state
    it is [QUEUED] with no files, outside the queue, and its status page,
    until the job expires, is the reloading page "Processing…" without
    files. *)
Theorem X13_lookup_job_never_runs (st st' : State) (req : Request) :
  reachable st ->
  static_hit req = false -> urlencoded_error req = false ->
  match route req with
  | PostUpload files => multer_ok files = false
  | _ => True
  end ->
  follows (step (Http req) st) st' ->
  objects st' !! next_uid st
  = Some (Job.mk (next_uid st) QUEUED []
            ((BASE_DIR ++ [pretty (next_uid st)]) ++ ["uploads"])
            ((BASE_DIR ++ [pretty (next_uid st)]) ++ ["outputs"]))
  /\ (next_uid st ∉ queue st') /\ awaiting st' !! next_uid st = None
  /\ (status_page (next_uid st) st' = None
      \/ status_page (next_uid st) st'
         = Some {| reloads := true; heading := "Processing…"; items := [];
                   upload_more := false |}).
Proof.
  intros Hr Hs Hu Hroute Hf. pose proof (reachable_inv st Hr) as HI.
  cbn [step] in Hf. rewrite (handle_lookup st req Hs Hu Hroute) in Hf.
  destruct (createJob_inv st HI) as (HI1 & _ & _ & Hq & Ha).
  assert (Hidle : idle (next_uid st) (createJob st).2).
  { split; [|split]; [|exact Hq|exact Ha]. cbn. rewrite lookup_insert_eq. eauto. }
  destruct (idle_follows _ st' _ HI1 Hidle Hf) as (Ho & _ & Hq' & Ha').
  assert (Hjob : objects st' !! next_uid st
                 = Some (Job.mk (next_uid st) QUEUED []
                           ((BASE_DIR ++ [pretty (next_uid st)]) ++ ["uploads"])
                           ((BASE_DIR ++ [pretty (next_uid st)]) ++ ["outputs"]))).
  { rewrite Ho. cbn. now rewrite lookup_insert_eq. }
  split; [exact Hjob|]. split; [exact Hq'|]. split; [exact Ha'|].
  unfold status_page, get_job. case_bool_decide; [|auto].
  rewrite Hjob. right. reflexivity.
Qed.

(** *** The map of the jobs and the deletion timers *)

Lemma settle_static st j r :
  jobs (settle j r st) = jobs st /\ timers (settle j r st) = timers st
  /\ next_uid (settle j r st) = next_uid st /\ dirs (settle j r st) = dirs st.
Proof.
  unfold settle. destruct (awaiting st !! j) as [i|]; [|auto].
  assert (Hfin : forall s st1,
            jobs (finish j s st1) = jobs st1 /\ timers (finish j s st1) = timers st1
            /\ next_uid (finish j s st1) = next_uid st1
            /\ dirs (finish j s st1) = dirs st1).
  { intros s st1. unfold finish, runQueue.
    destruct (run_static (queue (end_job j s st1)) (end_job j s st1))
      as (H1 & H2 & H3 & H4).
    rewrite H1, H2, H3, H4. auto. }
  destruct r as [o|e]; [|exact (Hfin ERROR (with_awaiting (delete j) st))].
  case_bool_decide;
    [cbn; auto | exact (Hfin DONE (file_done j i o (with_awaiting (delete j) st)))].
Qed.

Lemma handle_static st req :
  handle req st = st
  \/ (jobs (handle req st) = {[next_uid st]} ∪ jobs st
      /\ timers (handle req st) = {[next_uid st]} ∪ timers st
      /\ next_uid (handle req st) = S (next_uid st)).
Proof.
  unfold handle. destruct (static_hit req); [auto|].
  destruct (urlencoded_error req); [auto|]. right.
  change (createJob st) with (next_uid st, (createJob st).2).
  destruct (route req) as [files| | |]; try (cbn; auto).
  destruct (multer_ok files); [|cbn; auto].
  unfold upload, runQueue.
  match goal with |- context [run ?q ?s] =>
    destruct (run_static q s) as (H1 & _ & H3 & H4) end.
  rewrite H1, H3, H4. cbn. auto.
Qed.

Lemma reachable_timers st : reachable st -> timers st = jobs st.
Proof.
  induction 1 as [|ev st Hr IH]; [reflexivity|].
  destruct ev as [req|j r|j]; cbn [step].
  - destruct (handle_static st req) as [->|(H1 & H2 & _)]; [exact IH|].
    now rewrite H1, H2, IH.
  - destruct (settle_static st j r) as (H1 & H2 & _). now rewrite H1, H2.
  - unfold expire. case_bool_decide; [cbn; now rewrite IH | exact IH].
Qed.

(** An id that was given out and is not in the map never comes back. *)
Lemma gone_step ev st j :
  (j < next_uid st)%nat -> j ∉ jobs st ->
  (j < next_uid (step ev st))%nat /\ j ∉ jobs (step ev st).
Proof.
  intros Hlt Hout. destruct ev as [req|j0 r|j0]; cbn [step].
  - destruct (handle_static st req) as [->|(H1 & _ & H3)]; [auto|].
    rewrite H1, H3. split; [lia|].
    rewrite elem_of_union, elem_of_singleton. intros [->|H]; [lia | auto].
  - destruct (settle_static st j0 r) as (H1 & _ & H3 & _). now rewrite H1, H3.
  - unfold expire. case_bool_decide; [|auto]. cbn. split; [exact Hlt|].
    rewrite elem_of_difference. tauto.
Qed.

Lemma gone_follows st st' j :
  (j < next_uid st)%nat -> j ∉ jobs st -> follows st st' ->
  (j < next_uid st')%nat /\ j ∉ jobs st'.
Proof.
  intros Hlt Hout. induction 1 as [|ev st' Hf IH]; [auto|].
  destruct IH as [H1 H2]. apply gone_step; assumption.
Qed.

(** X14: the jobs of the map are the jobs whose deletion timer is pending.
    When the timer of a job fires the job leaves the map for good: in every
    later state the status and download routes answer that it has expired;
    the other jobs are looked up as before. *)
Theorem X14_expiry (st : State) (j : nat) :
  reachable st ->
  timers st = jobs st
  /\ (j ∈ jobs st ->
      forall st', follows (step (TtlExpired j) st) st' ->
        get_job j st' = None /\ status_page j st' = None)
  /\ (forall j', j' <> j ->
      get_job j' (step (TtlExpired j) st) = get_job j' st).
Proof.
  intros Hr. pose proof (reachable_inv st Hr) as HI.
  pose proof (reachable_timers st Hr) as Ht.
  split; [exact Ht|]. split.
  - intros Hj st' Hf.
    assert (Hgone : (j < next_uid (step (TtlExpired j) st))%nat
                    /\ j ∉ jobs (step (TtlExpired j) st)).
    { cbn [step]. unfold expire. rewrite Ht.
      rewrite bool_decide_eq_true_2 by exact Hj. cbn.
      split; [apply (inv_known st HI), Hj|].
      rewrite elem_of_difference, elem_of_singleton. tauto. }
    destruct (gone_follows _ st' j (proj1 Hgone) (proj2 Hgone) Hf) as [_ Hout].
    assert (G : get_job j st' = None).
    { unfold get_job. now rewrite bool_decide_eq_false_2 by exact Hout. }
    split; [exact G|]. unfold status_page. now rewrite G.
  - intros j' Hne. cbn [step]. unfold expire.
    destruct (bool_decide (j ∈ timers st)); [|reflexivity]. unfold get_job. cbn.
    destruct (decide (j' ∈ jobs st)) as [Hj'|Hj'].
    + rewrite !bool_decide_eq_true_2; [reflexivity | exact Hj' |].
      rewrite elem_of_difference, elem_of_singleton. auto.
    + rewrite !bool_decide_eq_false_2; [reflexivity | exact Hj' |].
      rewrite elem_of_difference. tauto.
Qed.

(** *** Files and their outputs *)

(** What [runQueue] does to a job object: nothing, or, for a job of the
    queue, it sets the status of its first file. *)
Lemma run_effect q st j job :
  objects st !! j = Some job ->
  exists job',
    objects (run q st) !! j = Some job'
    /\ Job.id job' = Job.id job
    /\ Job.uploadDir job' = Job.uploadDir job
    /\ Job.outputDir job' = Job.outputDir job
    /\ (Job.files job' = Job.files job
        \/ (j ∈ q
            /\ Job.files job'
               = alter (FileTask.set_status PROCESSING) 0%nat (Job.files job))).
Proof.
  revert st job. induction q as [|j0 q IH]; intros st job Hjob; cbn [run];
    case_bool_decide; eauto 10.
  destruct (decide (j = j0)) as [->|Hne].
  - rewrite files_of_start_job, (files_of_lookup _ _ _ Hjob).
    destruct (Job.files job) as [|f fs] eqn:Hfiles.
    + edestruct (IH (end_job j0 DONE (start_job j0 q st))) as (job' & Ho & ? & ? & ? & Hf).
      { cbn. rewrite !lookup_alter_eq, Hjob. reflexivity. }
      exists job'. cbn in *. rewrite Hfiles in Hf. repeat split; auto.
      left. destruct Hf as [Hf|[_ Hf]]; rewrite Hf; reflexivity.
    + eexists. cbn. rewrite !lookup_alter_eq, Hjob. cbn.
      repeat split; auto. right. split; [left|cbn; now rewrite Hfiles].
  - destruct (files_of j0 (start_job j0 q st)).
    + edestruct (IH (end_job j0 DONE (start_job j0 q st))) as (job' & Ho & ? & ? & ? & Hf).
      { cbn. rewrite !lookup_alter_ne by auto. exact Hjob. }
      exists job'. repeat split; auto.
      destruct Hf as [Hf|[Hin Hf]]; [auto|]. right. split; [right|]; auto.
    + exists job. cbn. rewrite !lookup_alter_ne by auto.
      repeat split; auto.
Qed.

Lemma good_start (j : nat) (job : Job.t) (i : nat) f :
  good_job j job -> Job.files job !! i = Some f -> FileTask.status f = QUEUED ->
  good_job j (Job.alter_file i (FileTask.set_status PROCESSING) job).
Proof.
  intros (Hid & Hu & Ho & Hfiles) Hi Hq. split; [|split; [|split]]; auto.
  intros k f0 Hk. cbn in Hk. destruct (decide (k = i)) as [->|Hne].
  - rewrite list_lookup_alter_eq, Hi in Hk. injection Hk as <-. cbn.
    split; [discriminate|]. intros Hs. apply (Hfiles i f Hi) in Hs. congruence.
  - rewrite list_lookup_alter_ne in Hk by auto. exact (Hfiles k f0 Hk).
Qed.

Lemma good_set_status (j : nat) (job : Job.t) (s : Status) :
  good_job j job -> good_job j (Job.set_status s job).
Proof. intros (Hid & Hu & Ho & Hfiles). split; [|split; [|split]]; auto. Qed.

Lemma good_file_done (j : nat) (job : Job.t) (i : nat) (o : string) :
  good_job j job ->
  good_job j (Job.alter_file i (FileTask.set_status DONE)
                (Job.alter_file i (FileTask.set_outputName o) job)).
Proof.
  intros (Hid & Hu & Ho & Hfiles). split; [|split; [|split]]; auto.
  intros k f Hk. cbn in Hk. destruct (decide (k = i)) as [->|Hne].
  - rewrite !list_lookup_alter_eq in Hk.
    destruct (Job.files job !! i); [|discriminate]. injection Hk as <-.
    cbn. split; eauto.
  - rewrite !list_lookup_alter_ne in Hk by auto. exact (Hfiles k f Hk).
Qed.

Lemma all_good_update st j (f : Job.t -> Job.t) :
  all_good st ->
  (forall job, objects st !! j = Some job -> good_job j job -> good_job j (f job)) ->
  all_good (update_job j f st).
Proof.
  intros Hall Hf j' job'. cbn. destruct (decide (j' = j)) as [->|Hne].
  - rewrite lookup_alter_eq. destruct (objects st !! j) as [job|] eqn:E; [|discriminate].
    intros [= <-]. auto.
  - rewrite lookup_alter_ne by auto. apply Hall.
Qed.

Lemma good_same_files (j : nat) (job job' : Job.t) :
  good_job j job ->
  Job.id job' = Job.id job -> Job.uploadDir job' = Job.uploadDir job ->
  Job.outputDir job' = Job.outputDir job -> Job.files job' = Job.files job ->
  good_job j job'.
Proof.
  intros (Hid & Hu & Ho & Hfiles) E1 E2 E3 E4.
  split; [|split; [|split]]; try congruence. rewrite E4. exact Hfiles.
Qed.

Lemma run_good q st :
  Inv st -> queue st = q -> all_good st -> all_good (run q st).
Proof.
  intros HI Hq Hall j job' Hjob'.
  destruct (objects st !! j) as [job|] eqn:Hjob.
  - destruct (run_effect q st j job Hjob) as (job'' & Ho & Hid & Hu & Hod & Hf).
    rewrite Ho in Hjob'. injection Hjob' as <-.
    pose proof (Hall j job Hjob) as Hg.
    destruct Hf as [Hf|[Hin Hf]]; [eapply good_same_files; eauto|].
    rewrite <- Hq in Hin.
    destruct (inv_queued st j HI Hin) as (job0 & Hjob0 & _ & _ & Hsh).
    rewrite Hjob in Hjob0. injection Hjob0 as <-.
    destruct (Job.files job !! 0%nat) as [f|] eqn:H0.
    + apply (good_same_files j
               (Job.alter_file 0 (FileTask.set_status PROCESSING) job)); auto.
      apply (good_start j job 0 f Hg H0 (Hsh _ _ H0)).
    + eapply good_same_files; eauto. rewrite Hf. apply list_eq. intros k.
      destruct (decide (k = 0%nat)) as [->|Hk].
      * rewrite list_lookup_alter_eq, H0. reflexivity.
      * now rewrite list_lookup_alter_ne by auto.
  - assert (Hs : is_Some (objects (run q st) !! j)) by eauto.
    apply run_is_Some in Hs. rewrite Hjob in Hs. now destruct Hs.
Qed.


Lemma all_good_same st st' :
  objects st' = objects st -> all_good st -> all_good st'.
Proof. intros E H j job. rewrite E. apply H. Qed.

Lemma createJob_good st : all_good st -> all_good (createJob st).2.
Proof.
  intros H j job. cbn. destruct (decide (j = next_uid st)) as [->|Hne].
  - rewrite lookup_insert_eq. intros [= <-]. repeat split; try reflexivity;
      cbn; intros Hf; try discriminate; rewrite lookup_nil in Hf; discriminate.
  - rewrite lookup_insert_ne by auto. apply H.
Qed.

Lemma handle_good st req : Inv st -> all_good st -> all_good (handle req st).
Proof.
  intros HI Hall. unfold handle.
  destruct (static_hit req); [exact Hall|].
  destruct (urlencoded_error req); [exact Hall|].
  pose proof (createJob_good st Hall) as Hall1.
  destruct (createJob_inv st HI) as (HI1 & Hnew & _ & Hq & Ha).
  change (createJob st) with (next_uid st, (createJob st).2).
  set (st1 := (createJob st).2) in *.
  destruct (route req) as [files| | |]; try exact Hall1.
  destruct (multer_ok files); [|exact Hall1].
  unfold upload, runQueue.
  set (tasks := map _ files).
  assert (Hsome : is_Some (objects st1 !! next_uid st)).
  { unfold st1. cbn. rewrite lookup_insert_eq. eauto. }
  apply run_good; [|reflexivity|].
  - apply (inv_enqueue st1 (next_uid st) tasks); auto.
    + intros job. unfold st1. cbn. rewrite lookup_insert_eq. now intros [= <-].
    + unfold tasks. apply Forall_forall. intros f Hf.
      apply list_elem_of_In, in_map_iff in Hf as (u & <- & _). reflexivity.
  - apply (all_good_same (update_job (next_uid st)
                            (fun j => Job.set_files (Job.files j ++ tasks) j) st1));
      [reflexivity|].
    apply all_good_update; [exact Hall1|].
    intros job _ (Hid & Hu & Ho & Hfiles). split; [|split; [|split]]; auto.
    intros k f Hk. cbn in Hk. apply lookup_app_Some in Hk as [Hk|[_ Hk]].
    + exact (Hfiles k f Hk).
    + unfold tasks in Hk. rewrite list_lookup_fmap in Hk.
      destruct (files !! _); [|discriminate]. injection Hk as <-. cbn.
      split; [discriminate | intros [? [=]]].
Qed.

Lemma settle_good st j r : Inv st -> all_good st -> all_good (settle j r st).
Proof.
  intros HI Hall. unfold settle.
  destruct (awaiting st !! j) as [i|] eqn:Ha; [|exact Hall].
  destruct (inv_awaited st j i HI Ha) as (job & Hjob & _ & _ & Hlen & Hshape).
  destruct r as [o|e].
  - set (st1 := file_done j i o (with_awaiting (delete j) st)).
    assert (Hall1 : all_good st1).
    { unfold st1, file_done.
      apply (all_good_same
               (update_job j (fun job => Job.alter_file i (FileTask.set_status DONE)
                                (Job.alter_file i (FileTask.set_outputName o) job)) st)).
      - cbn. apply map_eq. intros k. destruct (decide (k = j)) as [->|Hne].
        + rewrite !lookup_alter_eq. now destruct (objects st !! j).
        + now rewrite !lookup_alter_ne by auto.
      - apply all_good_update; [exact Hall|]. intros job0 _. apply good_file_done. }
    case_bool_decide as Hnext.
    + apply (all_good_same
               (update_job j (Job.alter_file (S i) (FileTask.set_status PROCESSING)) st1));
        [reflexivity|].
      apply all_good_update; [exact Hall1|]. intros job1 Hjob1 Hg1.
      unfold st1 in Hjob1. rewrite (files_of_file_done _ _ _ _ job) in Hjob1
        by exact Hjob.
      injection Hjob1 as <-.
      destruct (Job.files job !! S i) as [f|] eqn:Hf.
      * apply (good_start j _ (S i) f Hg1).
        -- cbn. rewrite !list_lookup_alter_ne by lia. exact Hf.
        -- rewrite (Hshape _ _ Hf). apply expected_gt. lia.
      * eapply good_same_files; [exact Hg1|..]; try reflexivity.
        cbn. apply list_eq. intros k. destruct (decide (k = S i)) as [->|Hk].
        -- rewrite list_lookup_alter_eq, !list_lookup_alter_ne, Hf by lia. reflexivity.
        -- now rewrite list_lookup_alter_ne by auto.
    + unfold finish, runQueue. apply run_good; [|reflexivity|].
      * apply inv_succeed_last; assumption.
      * apply all_good_update; [exact Hall1|]. intros ? _. apply good_set_status.
  - unfold finish, runQueue. apply run_good; [|reflexivity|].
    + apply inv_fail with i; assumption.
    + apply all_good_update; [|intros ? _; apply good_set_status].
      apply (all_good_same st); [reflexivity | exact Hall].
Qed.

Lemma reachable_good st : reachable st -> all_good st.
Proof.
  induction 1 as [|ev st Hr IH].
  - intros j job Hj. cbn in Hj. rewrite lookup_empty in Hj. discriminate.
  - pose proof (reachable_inv st Hr) as HI.
    destruct ev as [req|j r|j]; cbn [step].
    + apply handle_good; assumption.
    + apply settle_good; assumption.
    + apply (all_good_same st); [|exact IH].
      unfold expire. case_bool_decide; reflexivity.
Qed.

(** X15: in every reachable state a file has an [outputName] exactly when
    its status is [DONE], and every job object carries the id and the
    upload and output directories that the middleware gave it. *)
Theorem X15_done_files_have_output (st : State) (j : nat) (job : Job.t) :
  reachable st -> objects st !! j = Some job ->
  Job.id job = j
  /\ Job.uploadDir job = (BASE_DIR ++ [pretty j]) ++ ["uploads"]
  /\ Job.outputDir job = (BASE_DIR ++ [pretty j]) ++ ["outputs"]
  /\ forall f, f ∈ Job.files job ->
       (FileTask.status f = DONE <-> is_Some (FileTask.outputName f)).
Proof.
  intros Hr Hjob. destruct (reachable_good st Hr j job Hjob) as (H1 & H2 & H3 & H4).
  repeat split; auto; apply list_elem_of_lookup_1 in H as [k Hk];
    apply (H4 k f Hk); assumption.
Qed.

(** X16: the status page of a job whose file failed never says so.  From
    the failure on, until the job expires, the page is the reloading page
    "Processing…", and it lists the failed file as [PROCESSING], without a
    download link. *)
Theorem X16_failed_job_page (st st' : State) (j i : nat) (e : string) :
  reachable st -> awaiting st !! j = Some i ->
  follows (step (Settled j (Throw e)) st) st' ->
  status_page j st' = None
  \/ exists page name,
       status_page j st' = Some page
       /\ reloads page = true /\ heading page = "Processing…"
       /\ upload_more page = false
       /\ items page !! i = Some (name, PROCESSING, None).
Proof.
  intros Hr Ha Hf. pose proof (reachable_inv st Hr) as HI.
  destruct (settle_throw st j i e HI Ha) as (job & Hjob & _ & Ho & Hidle & Hi & Hshape).
  destruct (idle_follows _ st' j (step_inv (Settled j (Throw e)) st HI) Hidle Hf)
    as (Ho' & _).
  cbn [step] in Ho'. rewrite Ho in Ho'.
  unfold status_page, get_job. case_bool_decide; [|auto]. right.
  rewrite Ho'. cbn.
  destruct (Job.files job !! i) as [f|] eqn:Hfi; [|contradiction].
  assert (Hs : FileTask.status f = PROCESSING).
  { rewrite (Hshape i f Hfi). apply expected_eq. }
  destruct (reachable_good st Hr j job Hjob) as (_ & _ & _ & Hout).
  assert (Hno : FileTask.outputName f = None).
  { destruct (FileTask.outputName f) eqn:E; [|reflexivity].
    assert (FileTask.status f = DONE) by (apply (Hout i f Hfi); rewrite E; eauto).
    congruence. }
  eexists _, (FileTask.originalName f). split; [reflexivity|]. cbn.
  repeat split. rewrite list_lookup_fmap, Hfi. cbn. unfold page_item.
  now rewrite Hs, Hno.
Qed.

End Bookkeeping.


Lemma X10_no_idle_slot_witness :
  V1.activeJobs three_uploads = V1.MAX_CONCURRENT_JOBS
  /\ Z.of_nat (size (V1.processing three_uploads)) = V1.MAX_CONCURRENT_JOBS.
Proof.
  apply X10_no_idle_slot; [exact three_uploads_reachable | discriminate].
Defined.

Lemma X12_finished_job_frozen_witness :
  V1.objects (V1.step (V1.Http (status_request 0))
                (V1.step (V1.Settled 0 (Throw "boom")) three_uploads)) !! 0%nat
  = Some (V1.Job.mk 0 V1.ERROR [V1.FileTask.mk "a.mp4" "a.mp4" None V1.PROCESSING]
            ["jobs"; "0"; "uploads"] ["jobs"; "0"; "outputs"])
  /\ (0%nat ∉ V1.queue (V1.step (V1.Http (status_request 0))
                          (V1.step (V1.Settled 0 (Throw "boom")) three_uploads)))
  /\ V1.awaiting (V1.step (V1.Http (status_request 0))
                    (V1.step (V1.Settled 0 (Throw "boom")) three_uploads)) !! 0%nat
     = None.
Proof.
  apply (X12_finished_job_frozen
           (V1.step (V1.Settled 0 (Throw "boom")) three_uploads)).
  - apply V1.reachable_step, three_uploads_reachable.
  - reflexivity.
  - right. reflexivity.
  - apply V1.follows_step, V1.follows_refl.
Defined.

Lemma X13_lookup_job_never_runs_witness :
  V1.objects (V1.step (upload_one "d.mp4")
                (V1.step (V1.Http (status_request 0)) three_uploads)) !! 3%nat
  = Some (V1.Job.mk 3 V1.QUEUED [] ["jobs"; "3"; "uploads"] ["jobs"; "3"; "outputs"])
  /\ (3%nat ∉ V1.queue (V1.step (upload_one "d.mp4")
                          (V1.step (V1.Http (status_request 0)) three_uploads)))
  /\ V1.awaiting (V1.step (upload_one "d.mp4")
                    (V1.step (V1.Http (status_request 0)) three_uploads)) !! 3%nat
     = None
  /\ (status_page 3 (V1.step (upload_one "d.mp4")
                       (V1.step (V1.Http (status_request 0)) three_uploads))
      = None
      \/ status_page 3 (V1.step (upload_one "d.mp4")
                          (V1.step (V1.Http (status_request 0)) three_uploads))
         = Some {| reloads := true; heading := "Processing…"; items := [];
                   upload_more := false |}).
Proof.
  apply (X13_lookup_job_never_runs three_uploads _ (status_request 0)).
  - exact three_uploads_reachable.
  - reflexivity.
  - reflexivity.
  - exact I.
  - apply V1.follows_step, V1.follows_refl.
Defined.

Lemma X14_expiry_witness :
  V1.get_job 0 (V1.step (V1.Http (status_request 0))
                  (V1.step (V1.TtlExpired 0) three_uploads)) = None
  /\ status_page 0 (V1.step (V1.Http (status_request 0))
                      (V1.step (V1.TtlExpired 0) three_uploads)) = None.
Proof.
  destruct (X14_expiry three_uploads 0 three_uploads_reachable) as (_ & H & _).
  apply H.
  - refine (bool_decide_unpack _ _). vm_compute. exact I.
  - apply V1.follows_step, V1.follows_refl.
Defined.

Lemma X15_done_files_have_output_witness :
  V1.Job.id (V1.Job.mk 0 V1.PROCESSING
               [V1.FileTask.mk "a.mp4" "a.mp4" None V1.PROCESSING]
               ["jobs"; "0"; "uploads"] ["jobs"; "0"; "outputs"]) = 0%nat
  /\ ["jobs"; "0"; "uploads"] = (V1.BASE_DIR ++ [pretty 0%nat]) ++ ["uploads"]
  /\ ["jobs"; "0"; "outputs"] = (V1.BASE_DIR ++ [pretty 0%nat]) ++ ["outputs"]
  /\ forall f, f ∈ [V1.FileTask.mk "a.mp4" "a.mp4" None V1.PROCESSING] ->
       (V1.FileTask.status f = V1.DONE <-> is_Some (V1.FileTask.outputName f)).
Proof.
  apply (X15_done_files_have_output three_uploads 0
           (V1.Job.mk 0 V1.PROCESSING
              [V1.FileTask.mk "a.mp4" "a.mp4" None V1.PROCESSING]
              ["jobs"; "0"; "uploads"] ["jobs"; "0"; "outputs"])).
  - exact three_uploads_reachable.
  - reflexivity.
Defined.

Lemma X16_failed_job_page_witness :
  status_page 0 (V1.step (V1.Http (status_request 0))
                   (V1.step (V1.Settled 0 (Throw "boom")) three_uploads)) = None
  \/ exists page name,
       status_page 0 (V1.step (V1.Http (status_request 0))
                        (V1.step (V1.Settled 0 (Throw "boom")) three_uploads))
       = Some page
       /\ reloads page = true /\ heading page = "Processing…"
       /\ upload_more page = false
       /\ items page !! 0%nat = Some (name, V1.PROCESSING, None).
Proof.
  apply (X16_failed_job_page three_uploads _ 0 0 "boom").
  - exact three_uploads_reachable.
  - reflexivity.
  - apply V1.follows_step, V1.follows_refl.
Defined.

Example failed_job_page :
  status_page 0 (V1.step (V1.Settled 0 (Throw "boom")) three_uploads)
  = Some {| reloads := true; heading := "Processing…";
            items := [("a.mp4", V1.PROCESSING, None)]; upload_more := false |}.
Proof. vm_compute. reflexivity. Qed.

